(** * AutoPath: dynamic routing simulation (src/pages/Simulation.tsx)

    A shallow embedding of the planner [findBestPath] and of the state
    transitions of the [Simulation] component, followed by the properties
    of the specification that are stated about them.

    Conventions of the embedding.
    - A JavaScript [number] that holds a measured quantity (speed, length,
      time, coordinate) is an exact rational [Q]; rounding of IEEE doubles is
      not modelled.  The score tables of the planner also hold [Infinity],
      so their entries are [num].  A statement that depends on a sum of
      many terms says so: what is said of the planner reaching a node
      assumes weights for which no sum of the code overflows
      ([costsInRange]), and what is said of the vehicle reaching a node
      leaves one tick for the rounding of the running sum.
    - A JavaScript object used as a dictionary ([Record<string, T>]) is a
      [gmap string T]; a missing key reads as [None] ([undefined]).  This is
      the read, the `in` test and the assignment of the code at every key
      that is not the name of a property of Object.prototype
      ([Object_prototype]): at such a name a plain object answers with what
      it inherits.  The ids of the generated map are the numerals 1 to 81;
      what is stated of the planner for arbitrary ids assumes [plainIds].
    - A JavaScript [Set<string>] is the list of its members in insertion
      order, which is the order [Array.from] iterates in.
    - React state is an explicit record [Sim]; every effect, timer callback
      and event handler is a function from [Sim] to [Sim].  [Math.random] is
      a tape of draws read in order, and [Date] is a [Clock] argument. *)

From Stdlib Require Import Ascii QArith Qround Qabs Lqa.
From stdpp Require Import gmap strings list pretty.

Local Open Scope Q_scope.

(** ** JavaScript numbers and [Math] *)

Definition Qltb (a b : Q) : bool := negb (Qle_bool b a).

(* Math.max(a, b), Math.min(a, b), Math.floor(q), Math.abs(q) *)
Definition Math_max (a b : Q) : Q := if Qle_bool a b then b else a.
Definition Math_min (a b : Q) : Q := if Qle_bool a b then a else b.
Definition Math_floor (q : Q) : Q := inject_Z (Qfloor q).
Definition Math_abs (q : Q) : Q := Qabs q.

(* An entry of gScore / fScore: a finite number or Infinity. *)
Inductive num : Type :=
  | Fin (q : Q)
  | Infinity.

(* [a < b] on two table reads.  A missing entry is [undefined], which
   converts to NaN and makes every comparison false. *)
Definition js_lt (a b : option num) : bool :=
  match a, b with
  | Some (Fin p), Some (Fin q) => Qltb p q
  | Some (Fin _), Some Infinity => true
  | _, _ => false
  end.

Definition num_plus (t : num) (c : Q) : num :=
  match t with
  | Fin p => Fin (p + c)
  | Infinity => Infinity
  end.

(* [a + c] for a table read [a] and a finite [c]; [undefined + c] is NaN,
   written [None]. *)
Definition js_add (a : option num) (c : Q) : option num :=
  match a with
  | Some t => Some (num_plus t c)
  | None => None
  end.

(* Truthiness of a string: only the empty string is falsy. *)
Definition truthy (s : string) : bool :=
  match s with
  | EmptyString => false
  | String _ _ => true
  end.

(** ** Data model (src/types.ts) *)

Inductive Light : Type := green | red.

Module Node.
Record t : Type := mk {
    id : string;
    x : Q;
    y : Q;
    label : string;
    lightStatus : option Light
  }.
End Node.

Module Edge.
Record t : Type := mk {
    id : string;
    source : string;
    target : string;
    length : Q;
    limit : Q;
    baseSpeed : Q;
    currentSpeed : Q;
    congested : option bool
  }.
End Edge.

Inductive LogType : Type := info | warning | error | success.

(* The template literals passed to addLog, with their holes. *)
Inductive LogMessage : Type :=
  | MsgTriggeredReroute (rawTimeSaved netBenefit : Q)
      (* `DQN-RLPSO: Triggered Reroute | Saved: ${..}m | Net Benefit: ${..}m` *)
  | MsgDestinationReached (totalTime : Q)
      (* `Destination Reached! Total Time: ${..} min` *)
  | MsgConnectivityLost
      (* "Error: Path connectivity lost" *)
  | MsgStartSet (id : string)
      (* `Start set to: Node ${id}` *)
  | MsgEndSet (id : string)
      (* `End set to: Node ${id}` *)
  | MsgVanetAlert (reason edgeId : string) (speed : Q)
      (* `VANET Alert: ${reason} (Edge ${edgeId}), Speed dropped to ${speed}km/h` *)
  | MsgReset
      (* "Simulation reset" *)
  | MsgStarted.
      (* "Simulation started..." *)

Module SimulationLog.
Record t : Type := mk {
    id : Z;
    timestamp : string;
    message : LogMessage;
    type : LogType
  }.
End SimulationLog.

Inductive Constraint : Type := Satisfied | Violated.

Module SimulationMetrics.
Record t : Type := mk {
    totalTime : Q;
    pathChanges : Z;
    distanceTraveled : Q;
    currentConstraint : Constraint
  }.
End SimulationMetrics.

(** ** ALGORITHM 1: findBestPath *)

(* The value returned by findBestPath: { path, time }. *)
Module Route.
Record t : Type := mk {
    path : list string;
    time : Q
  }.
End Route.

(* nodes.find(node => node.id === id) *)
Definition find_node (nodes : list Node.t) (id : string) : option Node.t :=
  List.find (fun node => String.eqb (Node.id node) id) nodes.

Definition heuristic (nodes : list Node.t) (endId : string) (id : string) : Q :=
  match find_node nodes id, find_node nodes endId with
  | Some n, Some target =>
      let dx := Math_abs (Node.x n - Node.x target) in
      let dy := Math_abs (Node.y n - Node.y target) in
      let distKm := (dx + dy) / 100 in
      distKm
  | _, _ => 0
  end.

Inductive Direction : Type := none | horizontal | vertical.

Definition Direction_eqb (a b : Direction) : bool :=
  match a, b with
  | none, none | horizontal, horizontal | vertical, vertical => true
  | _, _ => false
  end.

Definition getDirection (nodes : list Node.t) (fromId toId : string) : Direction :=
  match find_node nodes fromId, find_node nodes toId with
  | Some n1, Some n2 =>
      if Qltb (Math_abs (Node.y n1 - Node.y n2)) (Math_abs (Node.x n1 - Node.x n2))
      then horizontal else vertical
  | _, _ => none
  end.

(* The four mutable structures of the search. *)
Record AStar : Type := mkAStar {
  openSet : list string;
  cameFrom : gmap string string;
  gScore : gmap string num;
  fScore : gmap string num
}.

(* openSet.add(x): a member keeps its place, a new one goes last. *)
Definition set_add (x : string) (s : list string) : list string :=
  if decide (x ∈ s) then s else s ++ [x].

(* openSet.delete(x) *)
Definition set_delete (x : string) (s : list string) : list string :=
  filter (fun y => y ≠ x) s.

(* nodes.forEach(n => table[n.id] = Infinity); on the object of the code
   the assignment at the id `__proto__` stores nothing ([plainIds] excludes
   it where it matters). *)
Definition all_infinity (nodes : list Node.t) : gmap string num :=
  fold_left (fun tbl n => <[Node.id n := Infinity]> tbl) nodes ∅.

Definition astar_init (nodes : list Node.t) (startId endId : string) : AStar :=
  {| openSet := [startId];
     cameFrom := ∅;
     gScore := <[startId := Fin 0]> (all_infinity nodes);
     fScore := <[startId := Fin (heuristic nodes endId startId)]> (all_infinity nodes) |}.

(* Array.from(openSet).reduce((a, b) => (fScore[a] < fScore[b] ? a : b)) *)
Definition lowest (fScore : gmap string num) (a : string) (rest : list string) : string :=
  fold_left (fun a b => if js_lt (fScore !! a) (fScore !! b) then a else b) rest a.

(* edge.source === current ? edge.target : edge.source *)
Definition neighborOf (current : string) (edge : Edge.t) : string :=
  if String.eqb (Edge.source edge) current then Edge.target edge else Edge.source edge.

Definition lightPenalty (nodes : list Node.t) (neighborId : string) : Q :=
  match find_node nodes neighborId with
  | Some targetNode =>
      match Node.lightStatus targetNode with
      | Some red => 0.5
      | _ => 0
      end
  | None => 0
  end.

(* `const prevId = cameFrom[current]; if (prevId) { ... }`: the read of the
   finite map, which is the read of the object when [current] is not a
   name of Object.prototype. *)
Definition turnPenalty (nodes : list Node.t) (cameFrom : gmap string string)
    (current neighborId : string) : Q :=
  match cameFrom !! current with
  | Some prevId =>
      if truthy prevId then
        let prevDir := getDirection nodes prevId current in
        let currDir := getDirection nodes current neighborId in
        if Direction_eqb prevDir currDir then 0 else 0.15
      else 0
  | None => 0
  end.

Definition roadLevelFactor (edge : Edge.t) : Q :=
  if Qle_bool 60 (Edge.limit edge) then 1.0 else 1.2.

Definition baseTime (edge : Edge.t) : Q :=
  let speed := Math_max 0.1 (Edge.currentSpeed edge) in
  (Edge.length edge / speed) * 60.

(* (baseTime + lightPenalty + turnPenalty) * roadLevelFactor *)
Definition stepCost (nodes : list Node.t) (cameFrom : gmap string string)
    (current : string) (edge : Edge.t) : Q :=
  let neighborId := neighborOf current edge in
  (baseTime edge + lightPenalty nodes neighborId
   + turnPenalty nodes cameFrom current neighborId) * roadLevelFactor edge.

(* Body of `for (const edge of neighbors)`. *)
Definition relax (nodes : list Node.t) (endId current : string)
    (st : AStar) (edge : Edge.t) : AStar :=
  let neighborId := neighborOf current edge in
  let tentativeGScore :=
    js_add (gScore st !! current) (stepCost nodes (cameFrom st) current edge) in
  if js_lt tentativeGScore (gScore st !! neighborId) then
    match tentativeGScore with
    | Some t =>
        {| openSet := set_add neighborId (openSet st);
           cameFrom := <[neighborId := current]> (cameFrom st);
           gScore := <[neighborId := t]> (gScore st);
           fScore := <[neighborId := num_plus t (heuristic nodes endId neighborId)]>
                       (fScore st) |}
    | None => st
    end
  else st.

(* currentEdges.filter(e => e.source === current || e.target === current) *)
Definition neighbors (currentEdges : list Edge.t) (current : string) : list Edge.t :=
  List.filter (fun e => String.eqb (Edge.source e) current
                        || String.eqb (Edge.target e) current) currentEdges.

(* openSet.delete(current), then the loop over the neighbours. *)
Definition expand (nodes : list Node.t) (currentEdges : list Edge.t)
    (endId current : string) (st : AStar) : AStar :=
  let st' := {| openSet := set_delete current (openSet st);
                cameFrom := cameFrom st;
                gScore := gScore st;
                fScore := fScore st |} in
  fold_left (relax nodes endId current) (neighbors currentEdges current) st'.

(* `while (current in cameFrom) { current = cameFrom[current];
   totalPath.unshift(current); }`.  [None] when the fuel runs out.  `in`
   is the lookup of the finite map: for a [current] that is a name of
   Object.prototype and has no entry, the object of the code answers true
   and the loop goes on with the inherited value, which is outside this
   embedding. *)
Fixpoint reconstruct (fuel : nat) (cameFrom : gmap string string)
    (current : string) (totalPath : list string) : option (list string) :=
  match cameFrom !! current with
  | None => Some totalPath
  | Some prev =>
      match fuel with
      | O => None
      | S k => reconstruct k cameFrom prev (prev :: totalPath)
      end
  end.

(* `while (openSet.size > 0)`.  The outer option is [None] when the fuel
   runs out; inside, [None] is the `return null` after the loop.  [time] is
   a rational: the g-score of an open node is always finite ([open_finite],
   [expand_open_finite], [selected_finite] below), and so is gScore[endId]
   at the return.  A read that is not finite has no [Route.t] and falls
   under the outer [None]; it does not arise. *)
Fixpoint search (fuel : nat) (nodes : list Node.t) (currentEdges : list Edge.t)
    (endId : string) (st : AStar) : option (option Route.t) :=
  match fuel with
  | O => None
  | S k =>
      match openSet st with
      | [] => Some None
      | a :: rest =>
          let current := lowest (fScore st) a rest in
          if String.eqb current endId then
            match reconstruct k (cameFrom st) current [current], gScore st !! endId with
            | Some totalPath, Some (Fin t) =>
                Some (Some {| Route.path := totalPath; Route.time := t |})
            | _, _ => None
            end
          else search k nodes currentEdges endId (expand nodes currentEdges endId current st)
      end
  end.

Definition findBestPath (fuel : nat) (startId endId : string)
    (currentEdges : list Edge.t) (nodes : list Node.t) : option (option Route.t) :=
  search fuel nodes currentEdges endId (astar_init nodes startId endId).

(** ** The Simulation component *)

(* The two reads of [Date] made by addLog. *)
Record Clock : Type := mkClock {
  now : Z;                      (* Date.now() *)
  toLocaleTimeString : string   (* new Date().toLocaleTimeString() *)
}.

(* Math.random(): the draws in the order they are made. *)
Definition Tape : Type := nat -> Q.

Inductive Selection : Type := start | end_.

Record Sim : Type := mkSim {
  edges : list Edge.t;
  nodes : list Node.t;
  startNode : string;
  endNode : string;
  selectionMode : option Selection;
  isPlaying : bool;
  carNodeIndex : nat;
  progressBetweenNodes : Q;
  isWaitingForLight : bool;
  currentPath : list string;
  estimatedTime : Q;
  penaltyWeight : Q;
  logs : list SimulationLog.t;
  metrics : SimulationMetrics.t
}.

(* The setState calls. *)
Definition setEdges (v : list Edge.t) (s : Sim) : Sim :=
  mkSim v (nodes s) (startNode s) (endNode s) (selectionMode s) (isPlaying s)
    (carNodeIndex s) (progressBetweenNodes s) (isWaitingForLight s) (currentPath s)
    (estimatedTime s) (penaltyWeight s) (logs s) (metrics s).
Definition setNodes (v : list Node.t) (s : Sim) : Sim :=
  mkSim (edges s) v (startNode s) (endNode s) (selectionMode s) (isPlaying s)
    (carNodeIndex s) (progressBetweenNodes s) (isWaitingForLight s) (currentPath s)
    (estimatedTime s) (penaltyWeight s) (logs s) (metrics s).
Definition setStartNode (v : string) (s : Sim) : Sim :=
  mkSim (edges s) (nodes s) v (endNode s) (selectionMode s) (isPlaying s)
    (carNodeIndex s) (progressBetweenNodes s) (isWaitingForLight s) (currentPath s)
    (estimatedTime s) (penaltyWeight s) (logs s) (metrics s).
Definition setEndNode (v : string) (s : Sim) : Sim :=
  mkSim (edges s) (nodes s) (startNode s) v (selectionMode s) (isPlaying s)
    (carNodeIndex s) (progressBetweenNodes s) (isWaitingForLight s) (currentPath s)
    (estimatedTime s) (penaltyWeight s) (logs s) (metrics s).
Definition setSelectionMode (v : option Selection) (s : Sim) : Sim :=
  mkSim (edges s) (nodes s) (startNode s) (endNode s) v (isPlaying s)
    (carNodeIndex s) (progressBetweenNodes s) (isWaitingForLight s) (currentPath s)
    (estimatedTime s) (penaltyWeight s) (logs s) (metrics s).
Definition setIsPlaying (v : bool) (s : Sim) : Sim :=
  mkSim (edges s) (nodes s) (startNode s) (endNode s) (selectionMode s) v
    (carNodeIndex s) (progressBetweenNodes s) (isWaitingForLight s) (currentPath s)
    (estimatedTime s) (penaltyWeight s) (logs s) (metrics s).
Definition setCarNodeIndex (v : nat) (s : Sim) : Sim :=
  mkSim (edges s) (nodes s) (startNode s) (endNode s) (selectionMode s) (isPlaying s)
    v (progressBetweenNodes s) (isWaitingForLight s) (currentPath s)
    (estimatedTime s) (penaltyWeight s) (logs s) (metrics s).
Definition setProgressBetweenNodes (v : Q) (s : Sim) : Sim :=
  mkSim (edges s) (nodes s) (startNode s) (endNode s) (selectionMode s) (isPlaying s)
    (carNodeIndex s) v (isWaitingForLight s) (currentPath s)
    (estimatedTime s) (penaltyWeight s) (logs s) (metrics s).
Definition setIsWaitingForLight (v : bool) (s : Sim) : Sim :=
  mkSim (edges s) (nodes s) (startNode s) (endNode s) (selectionMode s) (isPlaying s)
    (carNodeIndex s) (progressBetweenNodes s) v (currentPath s)
    (estimatedTime s) (penaltyWeight s) (logs s) (metrics s).
Definition setCurrentPath (v : list string) (s : Sim) : Sim :=
  mkSim (edges s) (nodes s) (startNode s) (endNode s) (selectionMode s) (isPlaying s)
    (carNodeIndex s) (progressBetweenNodes s) (isWaitingForLight s) v
    (estimatedTime s) (penaltyWeight s) (logs s) (metrics s).
Definition setEstimatedTime (v : Q) (s : Sim) : Sim :=
  mkSim (edges s) (nodes s) (startNode s) (endNode s) (selectionMode s) (isPlaying s)
    (carNodeIndex s) (progressBetweenNodes s) (isWaitingForLight s) (currentPath s)
    v (penaltyWeight s) (logs s) (metrics s).
Definition setPenaltyWeight (v : Q) (s : Sim) : Sim :=
  mkSim (edges s) (nodes s) (startNode s) (endNode s) (selectionMode s) (isPlaying s)
    (carNodeIndex s) (progressBetweenNodes s) (isWaitingForLight s) (currentPath s)
    (estimatedTime s) v (logs s) (metrics s).
Definition setLogs (f : list SimulationLog.t -> list SimulationLog.t) (s : Sim) : Sim :=
  mkSim (edges s) (nodes s) (startNode s) (endNode s) (selectionMode s) (isPlaying s)
    (carNodeIndex s) (progressBetweenNodes s) (isWaitingForLight s) (currentPath s)
    (estimatedTime s) (penaltyWeight s) (f (logs s)) (metrics s).
Definition setMetrics (f : SimulationMetrics.t -> SimulationMetrics.t) (s : Sim) : Sim :=
  mkSim (edges s) (nodes s) (startNode s) (endNode s) (selectionMode s) (isPlaying s)
    (carNodeIndex s) (progressBetweenNodes s) (isWaitingForLight s) (currentPath s)
    (estimatedTime s) (penaltyWeight s) (logs s) (f (metrics s)).

(* setLogs(prev => [{ id, timestamp, message, type }, ...prev].slice(100)) *)
Definition addLogEntry (entry : SimulationLog.t) (prev : list SimulationLog.t)
    : list SimulationLog.t :=
  drop 100 (entry :: prev).

Definition addLog (clock : Clock) (message : LogMessage) (type : LogType)
    (s : Sim) : Sim :=
  setLogs (addLogEntry (SimulationLog.mk (now clock) (toLocaleTimeString clock)
                          message type)) s.

(** *** ALGORITHM 2: the environment tick *)

(* `if (Math.random() > 0.7) return { ...n, lightStatus: ... }; return n;` *)
Definition toggleLight (r : Q) (n : Node.t) : Node.t :=
  if Qltb 0.7 r then
    Node.mk (Node.id n) (Node.x n) (Node.y n) (Node.label n)
      (Some (match Node.lightStatus n with
             | Some green => red
             | _ => green
             end))
  else n.

Definition isCongested (e : Edge.t) : bool :=
  match Edge.congested e with
  | Some true => true
  | _ => false
  end.

(* The callback of setEdges in the tick, for one edge that is not
   congested; [r1] and [r2] are its two draws. *)
Definition perturb (r1 r2 : Q) (e : Edge.t) : Edge.t :=
  let flux := (r1 - 0.5) * 15 in
  let newSpeed := Edge.baseSpeed e + flux in
  let newSpeed := Math_max 5 (Math_min (Edge.limit e) newSpeed) in
  let newSpeed := if Qltb 0.95 r2 then Math_max 5 (Edge.baseSpeed e * 0.2)
                  else newSpeed in
  Edge.mk (Edge.id e) (Edge.source e) (Edge.target e) (Edge.length e)
    (Edge.limit e) (Edge.baseSpeed e) (Math_floor newSpeed) (Edge.congested e).

(* prev.map(n => ...) reading one draw per node. *)
Fixpoint tickNodes (rnd : Tape) (pos : nat) (l : list Node.t) : list Node.t * nat :=
  match l with
  | [] => ([], pos)
  | n :: l' =>
      let n' := toggleLight (rnd pos) n in
      let '(r, pos') := tickNodes rnd (S pos) l' in
      (n' :: r, pos')
  end.

(* prev.map(e => ...) reading two draws per edge that is not congested. *)
Fixpoint tickEdges (rnd : Tape) (pos : nat) (l : list Edge.t) : list Edge.t * nat :=
  match l with
  | [] => ([], pos)
  | e :: l' =>
      if isCongested e then
        let '(r, pos') := tickEdges rnd pos l' in
        (e :: r, pos')
      else
        let e' := perturb (rnd pos) (rnd (S pos)) e in
        let '(r, pos') := tickEdges rnd (S (S pos)) l' in
        (e' :: r, pos')
  end.

(* The callback of the 1500 ms interval; the interval exists only while
   isPlaying.  Returns the next state and the next tape position. *)
Definition envTick (rnd : Tape) (pos : nat) (s : Sim) : Sim * nat :=
  if isPlaying s then
    let '(ns, pos1) := tickNodes rnd pos (nodes s) in
    let '(es, pos2) := tickEdges rnd pos1 (edges s) in
    (setEdges es (setNodes ns s), pos2)
  else (s, pos).

(** *** ALGORITHM 3: planning and the soft-constraint reroute decision *)

(* netBenefit > 0 && relativeImprovement > 0.2, from the four scalars. *)
Definition shouldReroute (estimatedTime totalTime newRemainingTime penaltyWeight : Q)
    : bool :=
  let oldRemainingTime := Math_max 0.1 (estimatedTime - totalTime) in
  let rawTimeSaved := oldRemainingTime - newRemainingTime in
  let netBenefit := rawTimeSaved - penaltyWeight in
  let relativeImprovement := rawTimeSaved / oldRemainingTime in
  Qltb 0 netBenefit && Qltb 0.2 relativeImprovement.

(* The three state updates of an accepted reroute. *)
Definition commitReroute (clock : Clock) (newRoute : Route.t) (s : Sim) : Sim :=
  let totalTime := SimulationMetrics.totalTime (metrics s) in
  let oldRemainingTime := Math_max 0.1 (estimatedTime s - totalTime) in
  let newRemainingTime := Route.time newRoute in
  let rawTimeSaved := oldRemainingTime - newRemainingTime in
  let netBenefit := rawTimeSaved - penaltyWeight s in
  let fullNewPath := take (carNodeIndex s) (currentPath s) ++ Route.path newRoute in
  setEstimatedTime (totalTime + newRemainingTime)
    (setMetrics (fun m => SimulationMetrics.mk (SimulationMetrics.totalTime m)
                            (SimulationMetrics.pathChanges m + 1)
                            (SimulationMetrics.distanceTraveled m)
                            (SimulationMetrics.currentConstraint m))
       (setCurrentPath fullNewPath
          (addLog clock (MsgTriggeredReroute rawTimeSaved netBenefit) success s))).

(* The effect on [edges, isPlaying, nodes, penaltyWeight, startNode,
   endNode].  [None] when the planner runs out of fuel. *)
Definition rerouteEffect (fuel : nat) (clock : Clock) (s : Sim) : option Sim :=
  if negb (isPlaying s) then
    (* Initial Planning *)
    match findBestPath fuel (startNode s) (endNode s) (edges s) (nodes s) with
    | None => None
    | Some (Some result) =>
        Some (setProgressBetweenNodes 0
                (setCarNodeIndex 0
                   (setEstimatedTime (Route.time result)
                      (setCurrentPath (Route.path result) s))))
    | Some None => Some s
    end
  else
    (* Real-time re-planning logic *)
    match currentPath s !! carNodeIndex s with
    | Some currentNode =>
        if truthy currentNode && negb (String.eqb currentNode (endNode s)) then
          match findBestPath fuel currentNode (endNode s) (edges s) (nodes s) with
          | None => None
          | Some (Some newRouteFromHere) =>
              let oldPathStr := String.concat "," (drop (carNodeIndex s) (currentPath s)) in
              let newPathStr := String.concat "," (Route.path newRouteFromHere) in
              if negb (String.eqb oldPathStr newPathStr) then
                if shouldReroute (estimatedTime s)
                     (SimulationMetrics.totalTime (metrics s))
                     (Route.time newRouteFromHere) (penaltyWeight s)
                then Some (commitReroute clock newRouteFromHere s)
                else Some s
              else Some s
          | Some None => Some s
          end
        else Some s
    | None => Some s
    end.

(** *** The vehicle movement tick *)

(* edges.find(e => (e.source === u && e.target === v)
                   || (e.source === v && e.target === u)), where u and v
   are array reads and may be undefined. *)
Definition findEdge (edges : list Edge.t) (u v : option string) : option Edge.t :=
  match u, v with
  | Some u, Some v =>
      List.find (fun e => (String.eqb (Edge.source e) u && String.eqb (Edge.target e) v)
                          || (String.eqb (Edge.source e) v && String.eqb (Edge.target e) u))
        edges
  | _, _ => None
  end.

(* targetNodeObj?.lightStatus === 'red', where v may be undefined *)
Definition lightIsRed (nodes : list Node.t) (v : option string) : bool :=
  match v with
  | Some v =>
      match find_node nodes v with
      | Some targetNodeObj =>
          match Node.lightStatus targetNodeObj with
          | Some red => true
          | _ => false
          end
      | None => false
      end
  | None => false
  end.

Definition addTime (dt dd : Q) (m : SimulationMetrics.t) : SimulationMetrics.t :=
  SimulationMetrics.mk (SimulationMetrics.totalTime m + dt)
    (SimulationMetrics.pathChanges m)
    (SimulationMetrics.distanceTraveled m + dd)
    (SimulationMetrics.currentConstraint m).

(* m => ({ ...m, totalTime: m.totalTime + 0.05 }) *)
Definition addWaitingTime (m : SimulationMetrics.t) : SimulationMetrics.t :=
  SimulationMetrics.mk (SimulationMetrics.totalTime m + 0.05)
    (SimulationMetrics.pathChanges m)
    (SimulationMetrics.distanceTraveled m)
    (SimulationMetrics.currentConstraint m).

(* The callback of the 50 ms interval; the interval exists only while
   isPlaying.  [speed / length] is the division of [Q], which is 0 for a
   length of 0 where JavaScript gives Infinity or NaN: what is stated below
   about [step] is stated for edges of positive length. *)
Definition moveTick (clock : Clock) (s : Sim) : Sim :=
  if negb (isPlaying s) then s
  else if (Z.of_nat (List.length (currentPath s)) - 1 <=? Z.of_nat (carNodeIndex s))%Z then
    addLog clock
      (MsgDestinationReached (SimulationMetrics.totalTime (metrics s))) success
      (setIsPlaying false s)
  else
    let u := currentPath s !! carNodeIndex s in
    let v := currentPath s !! (carNodeIndex s + 1)%nat in
    match findEdge (edges s) u v with
    | None => addLog clock MsgConnectivityLost error (setIsPlaying false s)
    | Some edge =>
        let speed := Edge.currentSpeed edge in
        let length := Edge.length edge in
        let step := (speed / length) * 0.005 in
        if lightIsRed (nodes s) v && Qltb 0.85 (progressBetweenNodes s) then
          setMetrics addWaitingTime (setIsWaitingForLight true s)
        else
          let newProgress := progressBetweenNodes s + step in
          let s1 := setIsWaitingForLight false s in
          let s2 := if Qle_bool 1 newProgress
                    then setProgressBetweenNodes 0 (setCarNodeIndex (carNodeIndex s + 1)%nat s1)
                    else setProgressBetweenNodes newProgress s1 in
          setMetrics (addTime 0.02 (step * length)) s2
    end.

(** *** Interaction handlers *)

Definition triggerCongestion (clock : Clock) (edgeId : string) (speed : Q)
    (reason : string) (s : Sim) : Sim :=
  addLog clock (MsgVanetAlert reason edgeId speed) error
    (setEdges (map (fun e =>
                      if String.eqb (Edge.id e) edgeId then
                        Edge.mk (Edge.id e) (Edge.source e) (Edge.target e)
                          (Edge.length e) (Edge.limit e) (Edge.baseSpeed e)
                          speed (Some true)
                      else e) (edges s)) s).

(* validEdges[Math.floor(Math.random() * validEdges.length)], [r] being the
   draw. *)
Definition randomEdge (r : Q) (s : Sim) : option Edge.t :=
  let validEdges := List.filter (fun e => negb (isCongested e)) (edges s) in
  let i := Qfloor (r * inject_Z (Z.of_nat (List.length validEdges))) in
  if (0 <=? i)%Z then validEdges !! Z.to_nat i else None.

(* The onClick of the "Trigger Random Accident" button. *)
Definition randomAccident (clock : Clock) (r : Q) (s : Sim) : Sim :=
  match randomEdge r s with
  | Some e => triggerCongestion clock (Edge.id e) 2 "Sudden Accident" s
  | None => s
  end.

(** *** Drawing *)

(* [v || u] for two array reads: an undefined or empty [v] gives [u]. *)
Definition orElse (v u : option string) : option string :=
  match v with
  | Some id => if truthy id then Some id else u
  | None => u
  end.

(* [None] is the TypeError of [u.x] or [v.x] when [find] gave undefined. *)
Definition getCarCoords (s : Sim) : option (Q * Q) :=
  if Nat.eqb (List.length (currentPath s)) 0 then Some (0, 0)
  else
    let uId := currentPath s !! carNodeIndex s in
    let vId := orElse (currentPath s !! (carNodeIndex s + 1)%nat) uId in
    match uId ≫= find_node (nodes s), vId ≫= find_node (nodes s) with
    | Some u, Some v =>
        Some (Node.x u + (Node.x v - Node.x u) * progressBetweenNodes s,
              Node.y u + (Node.y v - Node.y u) * progressBetweenNodes s)
    | _, _ => None
    end.

(* The division is that of [Q], which is 0 for a base speed of 0 where
   JavaScript gives Infinity or NaN. *)
Definition getEdgeColor (edge : Edge.t) (isPath : bool) : string :=
  if isPath then "#3b82f6"
  else
    let ratio := Edge.currentSpeed edge / Edge.baseSpeed edge in
    if Qltb 0.7 ratio then "#22c55e"
    else if Qltb 0.3 ratio then "#eab308"
    else "#ef4444".

(* The test of the loop `for (let i = 0; i < currentPath.length - 1; i++)`
   of the edge renderer, at index [i]. *)
Definition legAt (path : list string) (edge : Edge.t) (i : nat) : bool :=
  match path !! i, path !! (i + 1)%nat with
  | Some a, Some b =>
      (String.eqb a (Edge.source edge) && String.eqb b (Edge.target edge))
      || (String.eqb a (Edge.target edge) && String.eqb b (Edge.source edge))
  | _, _ => false
  end.

(* `let isPath = false; for (...) { if (...) isPath = true; }` *)
Definition isPath (path : list string) (edge : Edge.t) : bool :=
  fold_left (fun isPath i => if legAt path edge i then true else isPath)
    (seq 0 (List.length path - 1)) false.

(* const strokeColor = getEdgeColor(edge, isPath) *)
Definition strokeColor (s : Sim) (edge : Edge.t) : string :=
  getEdgeColor edge (isPath (currentPath s) edge).

Section Handlers.
  (* `import { NODES, INITIAL_EDGES } from '../constants'`: the handlers are
     written for any two constants; the ones the module generates are
     [constants.NODES] and [constants.INITIAL_EDGES] below. *)
Variable INITIAL_EDGES : list Edge.t.
Variable NODES : list Node.t.

Definition initialSim : Sim :=
    {| edges := INITIAL_EDGES;
       nodes := NODES;
       startNode := "1";
       endNode := "81";
       selectionMode := None;
       isPlaying := false;
       carNodeIndex := 0;
       progressBetweenNodes := 0;
       isWaitingForLight := false;
       currentPath := [];
       estimatedTime := 0;
       penaltyWeight := 1.5;
       logs := [];
       metrics := SimulationMetrics.mk 0 0 0 Satisfied |}.

Definition handleReset (clock : Clock) (s : Sim) : Sim :=
    addLog clock MsgReset info
      (setEdges INITIAL_EDGES
         (setMetrics (fun _ => SimulationMetrics.mk 0 0 0 Satisfied)
            (setIsWaitingForLight false
               (setProgressBetweenNodes 0
                  (setCarNodeIndex 0
                     (setIsPlaying false s)))))).

Definition handleNodeClick (clock : Clock) (id : string) (s : Sim) : Sim :=
    match selectionMode s with
    | Some start =>
        handleReset clock
          (addLog clock (MsgStartSet id) info
             (setSelectionMode None (setStartNode id s)))
    | Some end_ =>
        handleReset clock
          (addLog clock (MsgEndSet id) info
             (setSelectionMode None (setEndNode id s)))
    | None => s
    end.

  (* The onClick of the Start / Pause button. *)
Definition togglePlay (clock : Clock) (s : Sim) : Sim :=
    setIsPlaying (negb (isPlaying s))
      (if negb (isPlaying s) && Nat.eqb (carNodeIndex s) 0
       then addLog clock MsgStarted info s else s).

  (* One transition of the component: a timer callback, the planning effect
     or a user action.  [allowed s edgeId speed] says which incident
     injections are taken into account; the component itself accepts all. *)
Inductive step (allowed : Sim -> string -> Q -> Prop) : Sim -> Sim -> Prop :=
    | step_env rnd pos s : step allowed s (fst (envTick rnd pos s))
    | step_plan fuel clock s s' :
        rerouteEffect fuel clock s = Some s' -> step allowed s s'
    | step_move clock s : step allowed s (moveTick clock s)
    | step_incident clock edgeId speed reason s :
        allowed s edgeId speed ->
        step allowed s (triggerCongestion clock edgeId speed reason s)
    | step_accident clock r s :
        (forall e, randomEdge r s = Some e -> allowed s (Edge.id e) 2) ->
        step allowed s (randomAccident clock r s)
    | step_reset clock s : step allowed s (handleReset clock s)
    | step_click clock id s : step allowed s (handleNodeClick clock id s)
    | step_select m s : step allowed s (setSelectionMode m s)
    | step_play clock s : step allowed s (togglePlay clock s)
    | step_penalty w s : step allowed s (setPenaltyWeight w s).

Inductive reachable (allowed : Sim -> string -> Q -> Prop) : Sim -> Prop :=
    | reachable_init : reachable allowed initialSim
    | reachable_step s s' :
        reachable allowed s -> step allowed s s' -> reachable allowed s'.
End Handlers.

(** ** The generated map (constants.ts)

    The text of the module follows the Sidebar component in
    src/components/Sidebar.tsx.  It fills NODES and INITIAL_EDGES when it is
    loaded; a createEdge that throws would make the load fail, which is
    [None] here. *)

(* Math.sqrt(q), where the root is a rational; [None] is an irrational root
   (or NaN), which the rationals of the embedding cannot hold. *)
Definition Math_sqrt (q : Q) : option Q :=
  let r := Qred q in
  let n := Z.sqrt (Qnum r) in
  let d := Z.sqrt (Zpos (Qden r)) in
  if ((n * n =? Qnum r) && (d * d =? Zpos (Qden r)))%Z
  then Some (n # Z.to_pos d) else None.

(* parseFloat(x.toFixed(2)): the nearest multiple of 0.01, the larger one
   when two are as near. *)
Definition toFixed2 (x : Q) : Q :=
  if Qle_bool 0 x then Math_floor (x * 100 + 0.5) / 100
  else - (Math_floor (- x * 100 + 0.5) / 100).

Module constants.
(* `${n}` for a whole number *)
Definition idOf (n : nat) : string := pretty n.

Definition ROWS : nat := 9.
Definition COLS : nat := 9.
Definition CANVAS_WIDTH : Q := 800.
Definition CANVAS_HEIGHT : Q := 600.
Definition PADDING : Q := 50.
Definition SPACING_X : Q := (CANVAS_WIDTH - PADDING * 2) / (inject_Z (Z.of_nat COLS) - 1).
Definition SPACING_Y : Q := (CANVAS_HEIGHT - PADDING * 2) / (inject_Z (Z.of_nat ROWS) - 1).

(* The two nested loops that push the nodes, row by row. *)
Definition NODES : list Node.t :=
  flat_map (fun r =>
    map (fun c =>
      let id := idOf (r * COLS + c + 1) in
      Node.mk id (PADDING + inject_Z (Z.of_nat c) * SPACING_X)
        (PADDING + inject_Z (Z.of_nat r) * SPACING_Y) id (Some green))
      (seq 0 COLS))
    (seq 0 ROWS).

Definition createEdge (source target : string) (baseSpeed : Q) : option Edge.t :=
  match find_node NODES source, find_node NODES target with
  | Some sNode, Some tNode =>
      let dx := Node.x sNode - Node.x tNode in
      let dy := Node.y sNode - Node.y tNode in
      match Math_sqrt (dx * dx + dy * dy) with
      | Some pixelDist =>
          let kmDist := toFixed2 (pixelDist / 100) in
          Some (Edge.mk (source ++ "-" ++ target) source target kmDist 60
                  baseSpeed baseSpeed None)
      | None => None
      end
  | _, _ => None
  end.

(* The body of the two nested loops that push the edges: the edge to the
   right, then the edge down. *)
Definition cellEdges (r c : nat) : list (option Edge.t) :=
  let currentIndex := (r * COLS + c + 1)%nat in
  let currentId := idOf currentIndex in
  (if (c <? COLS - 1)%nat then
     let rightId := idOf (currentIndex + 1) in
     let isHighway := (r mod 4 =? 0)%nat in
     [createEdge currentId rightId (if isHighway then 60 else 40)]
   else [])
  ++ (if (r <? ROWS - 1)%nat then
        let downId := idOf (currentIndex + COLS) in
        let isHighway := (c mod 4 =? 0)%nat in
        [createEdge currentId downId (if isHighway then 60 else 40)]
      else []).

Definition generateEdges : option (list Edge.t) :=
  mapM id (flat_map (fun r => flat_map (cellEdges r) (seq 0 COLS)) (seq 0 ROWS)).

(* The array after the loops; [generated_grid_wellformed] shows that no
   createEdge fails. *)
Definition INITIAL_EDGES : list Edge.t := default [] generateEdges.
End constants.

(** ** Properties: vocabulary *)

(* Every injection, as the component accepts them. *)
Definition anyIncident : Sim -> string -> Q -> Prop := fun _ _ _ => True.

(* Injections whose forced speed lies between minSpeed = 5 and the limit of
   each edge they hit. *)
Definition boundedIncident : Sim -> string -> Q -> Prop :=
  fun s edgeId speed =>
    forall e, e ∈ edges s -> Edge.id e = edgeId -> 5 <= speed /\ speed <= Edge.limit e.

(* 0 < minSpeed <= currentSpeed <= limit, with minSpeed = 5 *)
Definition speedInvariant (e : Edge.t) : Prop :=
  0 < 5 /\ 5 <= Edge.currentSpeed e /\ Edge.currentSpeed e <= Edge.limit e.

(* The severe slowdown to 20% of the base speed stays under the limit. *)
Definition slowdownWithinLimit (e : Edge.t) : Prop :=
  Edge.baseSpeed e * 0.2 <= Edge.limit e.

(* What the invariant needs of an edge to survive the ticks. *)
Definition edgeOk (e : Edge.t) : Prop := speedInvariant e /\ slowdownWithinLimit e.

(* A run of environment ticks, each with its tape and position. *)
Definition envTicks (draws : list (Tape * nat)) (s : Sim) : Sim :=
  fold_left (fun s d => fst (envTick (fst d) (snd d) s)) draws s.

(* The position of the vehicle moved forward: a later edge, or further
   along the same edge. *)
Definition advanced (s s' : Sim) : Prop :=
  (carNodeIndex s' = S (carNodeIndex s) /\ progressBetweenNodes s' = 0)
  \/ (carNodeIndex s' = carNodeIndex s
      /\ progressBetweenNodes s < progressBetweenNodes s').

(* What an accepted reroute leaves behind. *)
Definition committed (newRoute : Route.t) (s s' : Sim) : Prop :=
  currentPath s' = take (carNodeIndex s) (currentPath s) ++ Route.path newRoute
  /\ SimulationMetrics.pathChanges (metrics s')
     = (SimulationMetrics.pathChanges (metrics s) + 1)%Z
  /\ estimatedTime s'
     = SimulationMetrics.totalTime (metrics s) + Route.time newRoute.

(** ** A small world for concrete runs: a 2 x 2 grid

<<
      1 --- 2
      |     |
      3 --- 4
>>
    Edges of 1 km, limit 60, nominal speed 50, all lights green. *)

Definition gridNode (id : string) (x y : Q) : Node.t :=
  Node.mk id x y id (Some green).

Definition gridEdge (id source target : string) (currentSpeed : Q) : Edge.t :=
  Edge.mk id source target 1 60 50 currentSpeed None.

Definition gridNodes : list Node.t :=
  [gridNode "1" 0 0; gridNode "2" 100 0; gridNode "3" 0 100; gridNode "4" 100 100].

Definition gridEdges : list Edge.t :=
  [gridEdge "e12" "1" "2" 50; gridEdge "e13" "1" "3" 50;
   gridEdge "e24" "2" "4" 50; gridEdge "e34" "3" "4" 50].

Definition noon : Clock := mkClock 0 "12:00:00".

(* The vehicle at node "1" of the grid, on its way to "4" along the
   committed path [path], with [elapsed] minutes behind it. *)
Definition drivingSim (nodes : list Node.t) (edges : list Edge.t)
    (path : list string) (estimate elapsed progress : Q) : Sim :=
  {| edges := edges;
     nodes := nodes;
     startNode := "1";
     endNode := "4";
     selectionMode := None;
     isPlaying := true;
     carNodeIndex := 0;
     progressBetweenNodes := progress;
     isWaitingForLight := false;
     currentPath := path;
     estimatedTime := estimate;
     penaltyWeight := 1.5;
     logs := [];
     metrics := SimulationMetrics.mk elapsed 0 0 Satisfied |}.

(* The grid after an accident on the road 1 - 2. *)
Definition jammedEdges : list Edge.t :=
  [Edge.mk "e12" "1" "2" 1 60 50 2 (Some true); gridEdge "e13" "1" "3" 50;
   gridEdge "e24" "2" "4" 50; gridEdge "e34" "3" "4" 50].

(* The grid with the light of node "3" red. *)
Definition redNodes : list Node.t :=
  [gridNode "1" 0 0; gridNode "2" 100 0; Node.mk "3" 0 100 "3" (Some red);
   gridNode "4" 100 100].

(** ** Ids and the join of a path *)

Definition comma : ascii := ","%char.

Fixpoint commaFree (s : string) : Prop :=
  match s with
  | EmptyString => True
  | String a s' => a <> comma /\ commaFree s'
  end.

(* The names of the properties of Object.prototype.  gScore, fScore and
   cameFrom are plain objects: at one of these names a read or an `in`
   test on an object without such an own property finds the inherited
   one, and an assignment at `__proto__` stores nothing.  At every other
   key the object reads and writes as a finite map does. *)
Definition Object_prototype : list string :=
  ["constructor"; "hasOwnProperty"; "isPrototypeOf"; "propertyIsEnumerable";
   "toLocaleString"; "toString"; "valueOf"; "__proto__";
   "__defineGetter__"; "__defineSetter__"; "__lookupGetter__"; "__lookupSetter__"].

(* The keys at which the planner writes its tables, the start and the ids
   of the nodes, are none of these names.  An edge end that is neither the
   start nor a node is only ever read in `tentativeGScore < gScore[id]`,
   which is false for undefined and for an inherited function or object
   alike. *)
Definition plainIds (nodes : list Node.t) (startId : string) : Prop :=
  (startId ∉ Object_prototype)
  /\ Forall (fun n => Node.id n ∉ Object_prototype) nodes.

(** ** Paths of the planner *)

(* The edge joins [a] and [b], in either direction. *)
Definition connects (e : Edge.t) (a b : string) : Prop :=
  (Edge.source e = a /\ Edge.target e = b) \/ (Edge.source e = b /\ Edge.target e = a).

(* [a] is immediately followed by [b] in [l]. *)
Definition adjacent (a b : string) (l : list string) : Prop :=
  exists l1 l2, l = l1 ++ a :: b :: l2.

(* The walk of the reconstruction loop, last node first: each node is
   followed by its cameFrom entry, down to a node that has none. *)
Inductive rchain (cameFrom : gmap string string) : list string -> Prop :=
  | rchain_root r : cameFrom !! r = None -> rchain cameFrom [r]
  | rchain_link b a l :
      cameFrom !! b = Some a -> rchain cameFrom (a :: l) -> rchain cameFrom (b :: a :: l).

(* Every node that is open or is some node's predecessor is the start or
   has a predecessor of its own. *)
Definition origin_ok (startId : string) (st : AStar) : Prop :=
  forall n, (n ∈ openSet st \/ exists m, cameFrom st !! m = Some n) ->
            n = startId \/ is_Some (cameFrom st !! n).

(* Every predecessor link runs along an edge of the list. *)
Definition links_ok (currentEdges : list Edge.t) (st : AStar) : Prop :=
  forall n c, cameFrom st !! n = Some c ->
              exists e, e ∈ currentEdges /\ connects e c n.

(* Every open node has a finite g-score. *)
Definition open_finite (st : AStar) : Prop :=
  forall n, n ∈ openSet st -> exists q, gScore st !! n = Some (Fin q).

(* The node is the start or has a predecessor. *)
Definition has_origin (startId : string) (st : AStar) (n : string) : Prop :=
  n = startId \/ is_Some (cameFrom st !! n).

(** ** Static weights and the reference shortest-path algorithm *)

(* The weight of [edge] travelled towards [neighborId] when neither the turn
   penalty nor the road-level factor plays a part: the travel time at the
   current speed plus the red-light penalty of the node entered. *)
Definition staticCost (nodes : list Node.t) (edge : Edge.t) (neighborId : string) : Q :=
  baseTime edge + lightPenalty nodes neighborId.

(* The ids the score tables have an entry for. *)
Definition known (nodes : list Node.t) (startId : string) (n : string) : Prop :=
  n = startId \/ n ∈ (Node.id <$> nodes).

(* [walk nodes es startId a b c]: one can go from [a] to [b] along edges of
   [es], through known nodes, at total static cost [c]. *)
Inductive walk (nodes : list Node.t) (currentEdges : list Edge.t) (startId : string)
    (a : string) : string -> Q -> Prop :=
  | walk_here : walk nodes currentEdges startId a a 0
  | walk_step m b c e :
      walk nodes currentEdges startId a m c ->
      e ∈ currentEdges -> connects e m b -> known nodes startId b ->
      walk nodes currentEdges startId a b (c + staticCost nodes e b).

(* [c] is the cost of a cheapest way from [a] to [b]. *)
Definition shortest (nodes : list Node.t) (currentEdges : list Edge.t)
    (startId a b : string) (c : Q) : Prop :=
  (exists c', walk nodes currentEdges startId a b c' /\ c' == c)
  /\ forall c', walk nodes currentEdges startId a b c' -> c <= c'.

(* The turn penalty contributes nothing: along any two edges that meet, the
   direction does not change. *)
Definition noTurnPenalty (nodes : list Node.t) (currentEdges : list Edge.t) : Prop :=
  forall e1 e2 p c n,
    e1 ∈ currentEdges -> e2 ∈ currentEdges ->
    connects e1 p c -> connects e2 c n ->
    getDirection nodes p c = getDirection nodes c n.

(* The road-level multiplier contributes nothing: every edge is a highway. *)
Definition noRoadLevelPenalty (currentEdges : list Edge.t) : Prop :=
  forall e, e ∈ currentEdges -> 60 <= Edge.limit e.

(* Data model: length > 0. *)
Definition positiveLengths (currentEdges : list Edge.t) : Prop :=
  forall e, e ∈ currentEdges -> 0 < Edge.length e.

(* The heuristic never overestimates the cost that remains to the goal. *)
Definition admissible (nodes : list Node.t) (currentEdges : list Edge.t)
    (startId endId : string) : Prop :=
  forall n c, walk nodes currentEdges startId n endId c -> heuristic nodes endId n <= c.

(* A condition on the edges that can be checked and gives admissibility:
   the heuristic drops by no more than the weight along every edge. *)
Definition consistent (nodes : list Node.t) (currentEdges : list Edge.t)
    (endId : string) : Prop :=
  forall e a b, e ∈ currentEdges -> connects e a b ->
    heuristic nodes endId a <= staticCost nodes e b + heuristic nodes endId b.

(** Reference algorithm, written after the specification ("a reference
    shortest-path algorithm (e.g. Dijkstra) on the same static weights"):
    Dijkstra's algorithm with a table of distances and a list of unvisited
    vertices.  Each round visits the unvisited vertex of least distance and
    relaxes the edges that leave it. *)
Definition dijkstra_relax (nodes : list Node.t) (u : string)
    (dist : gmap string num) (edge : Edge.t) : gmap string num :=
  let v := neighborOf u edge in
  let alt := js_add (dist !! u) (staticCost nodes edge v) in
  if js_lt alt (dist !! v) then
    match alt with
    | Some d => <[v := d]> dist
    | None => dist
    end
  else dist.

(* The unvisited vertex of least distance, if one can be reached at all. *)
Definition closest (dist : gmap string num) (unvisited : list string) : option string :=
  match unvisited with
  | [] => None
  | a :: rest =>
      let u := lowest dist a rest in
      match dist !! u with
      | Some (Fin _) => Some u
      | _ => None
      end
  end.

Fixpoint dijkstra_loop (rounds : nat) (nodes : list Node.t) (currentEdges : list Edge.t)
    (dist : gmap string num) (unvisited : list string) : gmap string num :=
  match rounds with
  | O => dist
  | S k =>
      match closest dist unvisited with
      | None => dist
      | Some u =>
          dijkstra_loop k nodes currentEdges
            (fold_left (dijkstra_relax nodes u) (neighbors currentEdges u) dist)
            (set_delete u unvisited)
      end
  end.

Definition dijkstra (startId endId : string) (currentEdges : list Edge.t)
    (nodes : list Node.t) : option Q :=
  let vertices := startId :: (Node.id <$> nodes) in
  let dist := <[startId := Fin 0]> (all_infinity nodes) in
  match dijkstra_loop (List.length vertices) nodes currentEdges dist vertices !! endId with
  | Some (Fin d) => Some d
  | _ => None
  end.

(** ** Two more small worlds *)

(* A detour that the heuristic hides: S and G are close on the map, A is
   far from both, the road S - G is slow and the roads through A are fast.

<<
      S --- G ------------------------ A
>> *)
Definition detourNodes : list Node.t :=
  [gridNode "S" 0 0; gridNode "G" 100 0; gridNode "A" 10000 0].

Definition detourEdges : list Edge.t :=
  [Edge.mk "sg" "S" "G" 1 60 50 6 None;
   Edge.mk "sa" "S" "A" 1 60 50 60 None;
   Edge.mk "ag" "A" "G" 1 60 50 60 None].

(* Three nodes on a line, two short fast roads and a long slow one.

<<
      A --- B --- C        and a road A - C of 2 km
>> *)
Definition lineNodes : list Node.t :=
  [gridNode "A" 0 0; gridNode "B" 100 0; gridNode "C" 200 0].

Definition lineEdges : list Edge.t :=
  [Edge.mk "ab" "A" "B" 1 60 50 50 None;
   Edge.mk "bc" "B" "C" 1 60 50 50 None;
   Edge.mk "ac" "A" "C" 2 60 50 30 None].

(** ** Invariants of the score tables *)

(* The table has an entry exactly for the known ids. *)
Definition dom_known (nodes : list Node.t) (startId : string)
    (g : gmap string num) : Prop :=
  forall n, is_Some (g !! n) <-> known nodes startId n.

(* The start is at distance zero. *)
Definition start_zero (startId : string) (g : gmap string num) : Prop :=
  exists q, g !! startId = Some (Fin q) /\ q == 0.

(* Every finite entry is the cost of a walk from the start. *)
Definition walk_costs (nodes : list Node.t) (currentEdges : list Edge.t)
    (startId : string) (g : gmap string num) : Prop :=
  forall n q, g !! n = Some (Fin q) ->
    exists c, walk nodes currentEdges startId startId n c /\ c == q.

(* The edge [e], leaving [m], cannot improve the entry of its other end. *)
Definition relaxed_edge (nodes : list Node.t) (g : gmap string num)
    (m : string) (e : Edge.t) : Prop :=
  forall qm t gt,
    g !! m = Some (Fin qm) -> connects e m t -> g !! t = Some gt ->
    exists qt, gt = Fin qt /\ qt <= qm + staticCost nodes e t.

(* No edge leaving a node outside [frontier] can improve an entry. *)
Definition closed_relaxed (nodes : list Node.t) (currentEdges : list Edge.t)
    (frontier : list string) (g : gmap string num) : Prop :=
  forall m e, m ∉ frontier -> e ∈ currentEdges -> relaxed_edge nodes g m e.

(** ** Invariants of the reference algorithm *)

(* The entry of a visited vertex is below the cost of every walk to it. *)
Definition visited_final (nodes : list Node.t) (currentEdges : list Edge.t)
    (startId : string) (unvisited : list string) (dist : gmap string num) : Prop :=
  forall m q c, m ∉ unvisited -> dist !! m = Some (Fin q) ->
    walk nodes currentEdges startId startId m c -> q <= c.

(* The entry of a visited vertex is finite. *)
Definition visited_finite (unvisited : list string) (dist : gmap string num) : Prop :=
  forall m gt, m ∉ unvisited -> dist !! m = Some gt -> exists q, gt = Fin q.

(* Between two rounds. *)
Definition dijkstra_inv (nodes : list Node.t) (currentEdges : list Edge.t)
    (startId : string) (dist : gmap string num) (unvisited : list string) : Prop :=
  dom_known nodes startId dist
  /\ start_zero startId dist
  /\ walk_costs nodes currentEdges startId dist
  /\ closed_relaxed nodes currentEdges unvisited dist
  /\ visited_final nodes currentEdges startId unvisited dist
  /\ visited_finite unvisited dist
  /\ (forall x, x ∈ unvisited -> known nodes startId x).

(* Within the round that visits [u], whose entry is [qu], after the edges
   of [done] have been relaxed. *)
Definition dijkstra_round_inv (nodes : list Node.t) (currentEdges : list Edge.t)
    (startId : string) (unvisited : list string) (u : string) (qu : Q)
    (done : list Edge.t) (dist : gmap string num) : Prop :=
  dom_known nodes startId dist
  /\ start_zero startId dist
  /\ walk_costs nodes currentEdges startId dist
  /\ closed_relaxed nodes currentEdges unvisited dist
  /\ visited_final nodes currentEdges startId (set_delete u unvisited) dist
  /\ visited_finite (set_delete u unvisited) dist
  /\ dist !! u = Some (Fin qu)
  /\ (forall e, e ∈ done -> relaxed_edge nodes dist u e).

(** ** Invariants of the planner *)

(* Every open node has a finite g-score, and its f-score is that plus the
   heuristic. *)
Definition open_scores (nodes : list Node.t) (endId : string) (st : AStar) : Prop :=
  forall n, n ∈ openSet st ->
    exists q fq, gScore st !! n = Some (Fin q) /\ fScore st !! n = Some (Fin fq)
                 /\ fq == q + heuristic nodes endId n.

(* The goal is open as soon as its g-score is finite: it is never expanded. *)
Definition goal_open (endId : string) (st : AStar) : Prop :=
  forall q, gScore st !! endId = Some (Fin q) -> endId ∈ openSet st.

(* Along a predecessor link, the g-score grows by at least the weight of an
   edge that joins the two nodes. *)
Definition pred_cost (nodes : list Node.t) (currentEdges : list Edge.t)
    (st : AStar) : Prop :=
  forall n c, cameFrom st !! n = Some c ->
    exists e qc qn, e ∈ currentEdges /\ connects e c n
      /\ gScore st !! c = Some (Fin qc) /\ gScore st !! n = Some (Fin qn)
      /\ qc + staticCost nodes e n <= qn.

(* At the head of the while loop. *)
Definition astar_inv (nodes : list Node.t) (currentEdges : list Edge.t)
    (startId endId : string) (st : AStar) : Prop :=
  origin_ok startId st
  /\ links_ok currentEdges st
  /\ dom_known nodes startId (gScore st)
  /\ start_zero startId (gScore st)
  /\ walk_costs nodes currentEdges startId (gScore st)
  /\ closed_relaxed nodes currentEdges (openSet st) (gScore st)
  /\ open_scores nodes endId st
  /\ goal_open endId st
  /\ pred_cost nodes currentEdges st.

(* Within the for loop that expands [current], whose g-score is [qc],
   after the edges of [done]. *)
Definition astar_round_inv (nodes : list Node.t) (currentEdges : list Edge.t)
    (startId endId current : string) (qc : Q) (done : list Edge.t) (st : AStar) : Prop :=
  origin_ok startId st
  /\ links_ok currentEdges st
  /\ has_origin startId st current
  /\ dom_known nodes startId (gScore st)
  /\ start_zero startId (gScore st)
  /\ walk_costs nodes currentEdges startId (gScore st)
  /\ closed_relaxed nodes currentEdges (current :: openSet st) (gScore st)
  /\ gScore st !! current = Some (Fin qc)
  /\ (forall e, e ∈ done -> relaxed_edge nodes (gScore st) current e)
  /\ open_scores nodes endId st
  /\ goal_open endId st
  /\ pred_cost nodes currentEdges st.

(* The cost of a path given last node first: the sum of the static weights
   of edges that join its consecutive nodes. *)
Inductive route_cost (nodes : list Node.t) (currentEdges : list Edge.t)
    : list string -> Q -> Prop :=
  | route_one r : route_cost nodes currentEdges [r] 0
  | route_step b a l c e :
      route_cost nodes currentEdges (a :: l) c ->
      e ∈ currentEdges -> connects e a b ->
      route_cost nodes currentEdges (b :: a :: l) (c + staticCost nodes e b).

(* The cost of a path given first node first, as findBestPath returns it. *)
Definition pathCost (nodes : list Node.t) (currentEdges : list Edge.t)
    (path : list string) (c : Q) : Prop :=
  route_cost nodes currentEdges (rev path) c.

(** ** Termination of the planner *)

(* One entry for each edge and each direction of travel: the node entered
   and the static weight paid. *)
Definition stepEntries (nodes : list Node.t) (currentEdges : list Edge.t)
    : list (string * Q) :=
  flat_map (fun e => [(Edge.target e, staticCost nodes e (Edge.target e));
                      (Edge.source e, staticCost nodes e (Edge.source e))])
    currentEdges.

Fixpoint Qsum (l : list Q) : Q :=
  match l with
  | [] => 0
  | x :: l => x + Qsum l
  end.

(* The sums of all the sublists of [l]. *)
Fixpoint subset_sums (l : list Q) : list Q :=
  match l with
  | [] => [0]
  | x :: l => subset_sums l ++ map (Qplus x) (subset_sums l)
  end.

(* How a finite g-score was reached, last step first: each step enters a
   node not entered before, along an entry of [stepEntries], and the
   g-score of the node entered is at most what the steps so far add up
   to. *)
Inductive trail (nodes : list Node.t) (currentEdges : list Edge.t)
    (g : gmap string num) : list (string * Q) -> Prop :=
  | trail_nil : trail nodes currentEdges g []
  | trail_cons m v T q :
      trail nodes currentEdges g T ->
      (m, v) ∈ stepEntries nodes currentEdges ->
      m ∉ T.*1 ->
      g !! m = Some (Fin q) ->
      q <= v + Qsum (T.*2) ->
      trail nodes currentEdges g ((m, v) :: T).

Definition trails (nodes : list Node.t) (currentEdges : list Edge.t)
    (g : gmap string num) : Prop :=
  forall n q, g !! n = Some (Fin q) ->
    exists T, trail nodes currentEdges g T /\ q == Qsum (T.*2).

Definition countBelow (q : Q) (l : list Q) : nat :=
  List.length (List.filter (fun v => Qltb v q) l).

(* The number of values an entry can still decrease to. *)
Definition rank (sums : list Q) (o : option num) : nat :=
  match o with
  | Some (Fin q) => countBelow q sums
  | Some Infinity => S (List.length sums)
  | None => 0
  end.

Fixpoint potential (sums : list Q) (g : gmap string num) (keys : list string) : nat :=
  match keys with
  | [] => 0
  | k :: keys => (rank sums (g !! k) + potential sums g keys)%nat
  end.

Definition allSums (nodes : list Node.t) (currentEdges : list Edge.t) : list Q :=
  subset_sums ((stepEntries nodes currentEdges).*2).

Definition allKeys (nodes : list Node.t) (startId : string) : list string :=
  startId :: (Node.id <$> nodes).

(* The quantity that every turn of the while loop decreases. *)
Definition measure (nodes : list Node.t) (currentEdges : list Edge.t)
    (startId : string) (st : AStar) : nat :=
  (2 * potential (allSums nodes currentEdges) (gScore st) (allKeys nodes startId)
   + List.length (openSet st))%nat.

(* The number of keys whose g-score is below [q]. *)
Definition keysBelow (g : gmap string num) (q : Q) (keys : list string) : nat :=
  List.length (List.filter (fun k => js_lt (g !! k) (Some (Fin q))) keys).

(* Fuel that is enough for findBestPath. *)
Definition enoughFuel (nodes : list Node.t) (currentEdges : list Edge.t)
    (startId endId : string) : nat :=
  S (measure nodes currentEdges startId (astar_init nodes startId endId)
     + List.length (allKeys nodes startId)).

(** ** The planner on every graph *)

(* The entry of [n] is a finite number. *)
Definition finite_at (g : gmap string num) (n : string) : Prop :=
  exists q, g !! n = Some (Fin q).

(* Every known node next to a node with a finite entry that is not in
   [frontier] has a finite entry too. *)
Definition closed_finite (nodes : list Node.t) (currentEdges : list Edge.t)
    (startId : string) (frontier : list string) (g : gmap string num) : Prop :=
  forall m e t, m ∉ frontier -> finite_at g m -> e ∈ currentEdges -> connects e m t ->
    known nodes startId t -> finite_at g t.

(* At the head of the while loop, whatever the weights. *)
Definition reach_inv (nodes : list Node.t) (currentEdges : list Edge.t)
    (startId endId : string) (st : AStar) : Prop :=
  dom_known nodes startId (gScore st)
  /\ finite_at (gScore st) startId
  /\ closed_finite nodes currentEdges startId (openSet st) (gScore st)
  /\ goal_open endId st
  /\ open_finite st.

(* Within the for loop that expands [current], after the edges of [done]. *)
Definition reach_round_inv (nodes : list Node.t) (currentEdges : list Edge.t)
    (startId endId current : string) (done : list Edge.t) (st : AStar) : Prop :=
  dom_known nodes startId (gScore st)
  /\ finite_at (gScore st) startId
  /\ closed_finite nodes currentEdges startId (current :: openSet st) (gScore st)
  /\ goal_open endId st
  /\ open_finite st
  /\ finite_at (gScore st) current
  /\ (forall e t, e ∈ done -> connects e current t -> known nodes startId t ->
        finite_at (gScore st) t).

(* Every node of the search is known: the open nodes and both ends of every
   predecessor link. *)
Definition links_known (nodes : list Node.t) (startId : string) (st : AStar) : Prop :=
  (forall n, n ∈ openSet st -> known nodes startId n)
  /\ (forall n c, cameFrom st !! n = Some c ->
        known nodes startId n /\ known nodes startId c).

(* (baseTime + lightPenalty + turnPenalty) * roadLevelFactor for a given
   turn penalty. *)
Definition weightOf (nodes : list Node.t) (edge : Edge.t) (neighborId : string)
    (turn : Q) : Q :=
  (baseTime edge + lightPenalty nodes neighborId + turn) * roadLevelFactor edge.

(* Every amount a turn of the for loop can add to a g-score, with the node
   entered: each edge, in each direction, without and with the turn
   penalty. *)
Definition costEntries (nodes : list Node.t) (currentEdges : list Edge.t)
    : list (string * Q) :=
  flat_map (fun e => [(Edge.target e, weightOf nodes e (Edge.target e) 0);
                      (Edge.target e, weightOf nodes e (Edge.target e) 0.15);
                      (Edge.source e, weightOf nodes e (Edge.source e) 0);
                      (Edge.source e, weightOf nodes e (Edge.source e) 0.15)])
    currentEdges.

(* The weights are far from the range where a sum of doubles overflows:
   a g-score of the code is a rounded sum of weights, and with all the
   weights together below 10^200 in absolute value none of these sums
   comes near Number.MAX_VALUE (1.8 x 10^308), so that
   `tentativeGScore < Infinity` holds in the code whenever it holds
   here. *)
Definition costsInRange (nodes : list Node.t) (currentEdges : list Edge.t) : Prop :=
  Qsum (Qabs <$> (costEntries nodes currentEdges).*2) <= inject_Z (10 ^ 200).

(* [trail] for the weights of the planner itself. *)
Inductive costTrail (nodes : list Node.t) (currentEdges : list Edge.t)
    (g : gmap string num) : list (string * Q) -> Prop :=
  | costTrail_nil : costTrail nodes currentEdges g []
  | costTrail_cons m v T q :
      costTrail nodes currentEdges g T ->
      (m, v) ∈ costEntries nodes currentEdges ->
      m ∉ T.*1 ->
      g !! m = Some (Fin q) ->
      q <= v + Qsum (T.*2) ->
      costTrail nodes currentEdges g ((m, v) :: T).

(* Every finite g-score is the sum of such a trail. *)
Definition costTrails (nodes : list Node.t) (currentEdges : list Edge.t)
    (g : gmap string num) : Prop :=
  forall n q, g !! n = Some (Fin q) ->
    exists T, costTrail nodes currentEdges g T /\ q == Qsum (T.*2).

(* The g-score grows strictly along a predecessor link. *)
Definition pred_below (st : AStar) : Prop :=
  forall n c, cameFrom st !! n = Some c ->
    exists qc qn, gScore st !! c = Some (Fin qc) /\ gScore st !! n = Some (Fin qn)
                  /\ qc < qn.

(* At the head of the while loop, for positive lengths. *)
Definition plan_inv (nodes : list Node.t) (currentEdges : list Edge.t)
    (startId : string) (st : AStar) : Prop :=
  dom_known nodes startId (gScore st)
  /\ open_finite st
  /\ costTrails nodes currentEdges (gScore st)
  /\ pred_below st.

(* [allSums] and [measure] for the weights of the planner itself. *)
Definition planSums (nodes : list Node.t) (currentEdges : list Edge.t) : list Q :=
  subset_sums ((costEntries nodes currentEdges).*2).

Definition planMeasure (nodes : list Node.t) (currentEdges : list Edge.t)
    (startId : string) (st : AStar) : nat :=
  (2 * potential (planSums nodes currentEdges) (gScore st) (allKeys nodes startId)
   + List.length (openSet st))%nat.

(* Fuel that is enough for findBestPath on every graph of positive
   lengths. *)
Definition planFuel (nodes : list Node.t) (currentEdges : list Edge.t)
    (startId endId : string) : nat :=
  S (planMeasure nodes currentEdges startId (astar_init nodes startId endId)
     + List.length (allKeys nodes startId)).

(** ** What the transitions keep *)

(* The part of a node, and of an edge, that no transition writes. *)
Definition nodeFrame (n : Node.t) : string * Q * Q * string :=
  (Node.id n, Node.x n, Node.y n, Node.label n).

Definition edgeFrame (e : Edge.t) : string * string * string * Q * Q * Q :=
  (Edge.id e, Edge.source e, Edge.target e, Edge.length e, Edge.limit e,
   Edge.baseSpeed e).

(* The state holds the map it started with: only lights, current speeds
   and incident flags may differ. *)
Definition sameMap (INITIAL_EDGES : list Edge.t) (NODES : list Node.t) (s : Sim) : Prop :=
  nodeFrame <$> nodes s = nodeFrame <$> NODES
  /\ edgeFrame <$> edges s = edgeFrame <$> INITIAL_EDGES.

(* Some edge of the list joins [a] and [b]. *)
Definition joined (es : list Edge.t) (a b : string) : Prop :=
  exists e, e ∈ es /\ connects e a b.

(* Every two consecutive nodes of the path are joined by an edge. *)
Definition pathLinked (es : list Edge.t) (path : list string) : Prop :=
  forall a b, adjacent a b path -> joined es a b.

(* The vehicle is at a node of the committed path, or at index 0. *)
Definition indexOk (s : Sim) : Prop :=
  carNodeIndex s = 0%nat \/ (carNodeIndex s < List.length (currentPath s))%nat.

(* Injections that force a speed that is not negative. *)
Definition nonnegIncident : Sim -> string -> Q -> Prop := fun _ _ speed => 0 <= speed.

(* The only injection the page makes: the accident button, at 2 km/h. *)
Definition pageIncident : Sim -> string -> Q -> Prop := fun _ _ speed => speed = 2.

(* Some node has this id. *)
Definition isNodeId (nodes : list Node.t) (id : string) : Prop :=
  id ∈ (Node.id <$> nodes).

(* Start and end are nodes, as they are when they are chosen by a click
   on the circle of a node. *)
Definition validEndpoints (s : Sim) : Prop :=
  isNodeId (nodes s) (startNode s) /\ isNodeId (nodes s) (endNode s).

(* The states the page can be in: its transitions are those of the
   component, the injections are those of the accident button and the ids
   passed to handleNodeClick are ids of nodes. *)
Inductive onPage (INITIAL_EDGES : list Edge.t) (NODES : list Node.t) : Sim -> Prop :=
  | onPage_init : onPage INITIAL_EDGES NODES (initialSim INITIAL_EDGES NODES)
  | onPage_step s s' :
      onPage INITIAL_EDGES NODES s -> step INITIAL_EDGES pageIncident s s' ->
      validEndpoints s' -> onPage INITIAL_EDGES NODES s'.

(* What every state of the component satisfies. *)
Definition simInv (INITIAL_EDGES : list Edge.t) (NODES : list Node.t) (s : Sim) : Prop :=
  sameMap INITIAL_EDGES NODES s
  /\ pathLinked INITIAL_EDGES (currentPath s)
  /\ indexOk s.

(* An edge the vehicle can be on: a positive length and a speed that is
   not negative. *)
Definition drivable (e : Edge.t) : Prop :=
  0 < Edge.length e /\ 0 <= Edge.currentSpeed e.

(* Every edge can be driven and the progress along the current one is a
   fraction of it. *)
Definition progressInv (s : Sim) : Prop :=
  Forall drivable (edges s)
  /\ 0 <= progressBetweenNodes s /\ progressBetweenNodes s < 1.

(* Every node of the committed path is a node of the map. *)
Definition pathKnown (NODES : list Node.t) (s : Sim) : Prop :=
  forall n, n ∈ currentPath s -> isNodeId NODES n.

(* What the environment tick does to an edge: an incident edge is kept, any
   other gets a new speed from two draws. *)
Definition ticked (e e' : Edge.t) : Prop :=
  (isCongested e = true /\ e' = e)
  \/ (isCongested e = false /\ exists r1 r2, e' = perturb r1 r2 e).

(* The speeds the page can leave on an edge: those of the ticks, from
   minSpeed up, and the 2 km/h of the accident button; never above the
   limit. *)
Definition pageSpeedOk (e : Edge.t) : Prop :=
  (5 <= Edge.currentSpeed e \/ Edge.currentSpeed e = 2)
  /\ Edge.currentSpeed e <= Edge.limit e
  /\ 5 <= Edge.limit e
  /\ slowdownWithinLimit e.

(* The point lies in the rectangle. *)
Definition inBox (x0 x1 y0 y1 : Q) (p : Q * Q) : Prop :=
  (x0 <= fst p /\ fst p <= x1) /\ (y0 <= snd p /\ snd p <= y1).

(* The edge joins two nodes of the map, and the estimate the heuristic
   gives between its two ends is at most its travel time at the speed
   limit. *)
Definition estimateOk (NODES : list Node.t) (e : Edge.t) : Prop :=
  0 < Edge.length e
  /\ isNodeId NODES (Edge.source e) /\ isNodeId NODES (Edge.target e)
  /\ heuristic NODES (Edge.target e) (Edge.source e)
     <= Edge.length e / Edge.limit e * 60.

(* [n] movement ticks in a row.  The running sum of the progress is exact
   here and rounded at every tick in the code. *)
Definition moveTicks (clock : Clock) (n : nat) (s : Sim) : Sim :=
  Nat.iter n (moveTick clock) s.

(* What a movement tick can be. *)
Inductive moved (clock : Clock) (s : Sim) : Sim -> Prop :=
  | moved_paused : isPlaying s = false -> moved clock s s
  | moved_stopped message type :
      moved clock s (addLog clock message type (setIsPlaying false s))
  | moved_waiting :
      moved clock s (setMetrics addWaitingTime (setIsWaitingForLight true s))
  | moved_next dt dd :
      (carNodeIndex s + 1 < List.length (currentPath s))%nat ->
      moved clock s
        (setMetrics (addTime dt dd)
           (setProgressBetweenNodes 0
              (setCarNodeIndex (carNodeIndex s + 1)%nat (setIsWaitingForLight false s))))
  | moved_along edge dt dd :
      findEdge (edges s) (currentPath s !! carNodeIndex s)
        (currentPath s !! (carNodeIndex s + 1)%nat) = Some edge ->
      let newProgress :=
        progressBetweenNodes s
        + Edge.currentSpeed edge / Edge.length edge * 0.005 in
      newProgress < 1 ->
      moved clock s
        (setMetrics (addTime dt dd)
           (setProgressBetweenNodes newProgress (setIsWaitingForLight false s))).

(** ** Deciding the conditions on a concrete map *)

#[local] Instance Qle_dec (x y : Q) : Decision (x <= y).
Proof. destruct (Qlt_le_dec y x) as [H|H]; [right; apply Qlt_not_le, H | left; exact H]. Defined.

#[local] Instance Qlt_dec (x y : Q) : Decision (x < y).
Proof. destruct (Qlt_le_dec x y) as [H|H]; [left; exact H | right; apply Qle_not_lt, H]. Defined.

#[local] Instance Q_eq_dec : EqDecision Q.
Proof. solve_decision. Defined.

#[local] Instance edgeOk_dec (e : Edge.t) : Decision (edgeOk e).
Proof. unfold edgeOk, speedInvariant, slowdownWithinLimit. apply _. Defined.

#[local] Instance drivable_dec (e : Edge.t) : Decision (drivable e).
Proof. unfold drivable. apply _. Defined.

#[local] Instance estimateOk_dec (NODES : list Node.t) (e : Edge.t) :
  Decision (estimateOk NODES e).
Proof. unfold estimateOk, isNodeId. apply _. Defined.

#[local] Instance inBox_dec (x0 x1 y0 y1 : Q) (p : Q * Q) : Decision (inBox x0 x1 y0 y1 p).
Proof. unfold inBox. apply _. Defined.

#[local] Instance commaFree_dec (s : string) : Decision (commaFree s).
Proof. induction s as [|a s IH]; simpl; apply _. Defined.

#[local] Instance plainIds_dec (nodes : list Node.t) (startId : string) :
  Decision (plainIds nodes startId).
Proof. unfold plainIds. apply _. Defined.

#[local] Instance costsInRange_dec (nodes : list Node.t) (currentEdges : list Edge.t) :
  Decision (costsInRange nodes currentEdges).
Proof. unfold costsInRange. apply _. Defined.

(** ** More small worlds, and the page on the generated map *)

(* The line with the road A - B alone: C cannot be reached. *)
Definition islandEdges : list Edge.t := [Edge.mk "ab" "A" "B" 1 60 50 50 None].

(* Every draw is 0.5: no light changes, no flux, no slowdown. *)
Definition halfTape : Tape := fun _ => 0.5.

(* The page as it is loaded, after the first planning, and after a click
   on Start and one movement tick. *)
Definition pageStart : Sim := initialSim constants.INITIAL_EDGES constants.NODES.
Definition pagePlanned : Sim := default pageStart (rerouteEffect 200 noon pageStart).
Definition pageDriving : Sim := moveTick noon (togglePlay noon pagePlanned).

(** ** Arithmetic of the embedding *)

Create HintDb sim discriminated.
#[local] Hint Unfold setEdges setNodes setStartNode setEndNode setSelectionMode
  setIsPlaying setCarNodeIndex setProgressBetweenNodes setIsWaitingForLight
  setCurrentPath setEstimatedTime setPenaltyWeight setLogs setMetrics addLog : sim.

(* Reads of a field after a chain of setState calls. *)
Ltac sim_simpl := autounfold with sim; cbn [edges nodes startNode endNode
  selectionMode isPlaying carNodeIndex progressBetweenNodes isWaitingForLight
  currentPath estimatedTime penaltyWeight logs metrics].

Lemma Qltb_lt (a b : Q) : Qltb a b = true <-> a < b.
Proof.
  unfold Qltb. rewrite negb_true_iff, <- not_true_iff_false, Qle_bool_iff.
  split; intros H; lra.
Qed.

Lemma Qltb_ge (a b : Q) : Qltb a b = false <-> b <= a.
Proof.
  unfold Qltb. rewrite negb_false_iff, Qle_bool_iff. reflexivity.
Qed.

Lemma Qle_bool_false (a b : Q) : Qle_bool a b = false <-> b < a.
Proof.
  rewrite <- not_true_iff_false, Qle_bool_iff. split; intros H; lra.
Qed.

Lemma Math_max_spec (a b : Q) :
  (a <= b /\ Math_max a b = b) \/ (b < a /\ Math_max a b = a).
Proof.
  unfold Math_max. destruct (Qle_bool a b) eqn:E.
  - left. apply Qle_bool_iff in E. auto.
  - right. apply Qle_bool_false in E. auto.
Qed.

Lemma Math_min_spec (a b : Q) :
  (a <= b /\ Math_min a b = a) \/ (b < a /\ Math_min a b = b).
Proof.
  unfold Math_min. destruct (Qle_bool a b) eqn:E.
  - left. apply Qle_bool_iff in E. auto.
  - right. apply Qle_bool_false in E. auto.
Qed.

Lemma Math_max_lower (a b : Q) : a <= Math_max a b /\ b <= Math_max a b.
Proof. destruct (Math_max_spec a b) as [[H ->]|[H ->]]; split; lra. Qed.

Lemma Math_floor_le (q : Q) : Math_floor q <= q.
Proof. apply Qfloor_le. Qed.

(* Math.floor does not cross an integer bound from above. *)
Lemma Math_floor_ge (z : Z) (q : Q) : inject_Z z <= q -> inject_Z z <= Math_floor q.
Proof.
  intros H. unfold Math_floor. rewrite <- Zle_Qle.
  rewrite <- (Qfloor_Z z). apply Qfloor_resp_le, H.
Qed.

(** ** DecisionLog *)

Lemma addLogEntry_length (entry : SimulationLog.t) (prev : list SimulationLog.t) :
  List.length (addLogEntry entry prev) = (S (List.length prev) - 100)%nat.
Proof. unfold addLogEntry. rewrite length_drop. reflexivity. Qed.

(* From an empty log, as the component starts, no call ever stores an
   entry. *)
Lemma addLogEntry_short (entry : SimulationLog.t) (prev : list SimulationLog.t) :
  (List.length prev < 100)%nat -> addLogEntry entry prev = [].
Proof.
  intros H. unfold addLogEntry. apply drop_ge. simpl. lia.
Qed.

(** C5 (the code departs from the specification).  The specification: the
    log keeps at most 100 entries, a new entry goes to the front, and only
    the oldest entries are discarded.  The code: [addLog] keeps what
    `slice(100)` returns, the entries from index 100 on, so on a log of
    fewer than 100 entries (the empty log the component starts with among
    them) the new entry is not at the front: nothing is stored at all. *)
Theorem addLog_discards_new_entry (clock : Clock) (message : LogMessage)
    (type : LogType) (s : Sim) :
  (List.length (logs s) < 100)%nat ->
  logs (addLog clock message type s) = []
  /\ head (logs (addLog clock message type s))
     <> Some (SimulationLog.mk (now clock) (toLocaleTimeString clock) message type).
Proof.
  intros H. unfold addLog. simpl. rewrite addLogEntry_short by exact H.
  split; [reflexivity | discriminate].
Qed.

Lemma addLog_discards_new_entry_witness :
  let s := initialSim [] [] in
  let clock := mkClock 0 "12:00:00" in
  logs (addLog clock MsgStarted info s) = []
  /\ head (logs (addLog clock MsgStarted info s))
     <> Some (SimulationLog.mk 0 "12:00:00" MsgStarted info).
Proof.
  apply (addLog_discards_new_entry (mkClock 0 "12:00:00") MsgStarted info
           (initialSim [] [])).
  simpl. lia.
Defined.

(** ** RerouteDecisionEngine *)

(* The decision rule, read as a proposition on the quantities it names. *)
Lemma shouldReroute_spec (estimatedTime totalTime newRemainingTime penaltyWeight : Q) :
  let oldRemaining := Math_max 0.1 (estimatedTime - totalTime) in
  let timeSaved := oldRemaining - newRemainingTime in
  let netBenefit := timeSaved - penaltyWeight in
  let relativeImprovement := timeSaved / oldRemaining in
  shouldReroute estimatedTime totalTime newRemainingTime penaltyWeight = true
  <-> 0 < netBenefit /\ 0.2 < relativeImprovement.
Proof.
  simpl. unfold shouldReroute. rewrite andb_true_iff, !Qltb_lt. reflexivity.
Qed.

(* The replanning branch of the effect, once the candidate is known and the
   two joined id strings differ. *)
Lemma rerouteEffect_decides (fuel : nat) (clock : Clock) (s : Sim)
    (currentNode : string) (newRoute : Route.t) :
  isPlaying s = true ->
  currentPath s !! carNodeIndex s = Some currentNode ->
  truthy currentNode = true ->
  currentNode <> endNode s ->
  findBestPath fuel currentNode (endNode s) (edges s) (nodes s) = Some (Some newRoute) ->
  String.concat "," (drop (carNodeIndex s) (currentPath s))
    <> String.concat "," (Route.path newRoute) ->
  rerouteEffect fuel clock s
  = Some (if shouldReroute (estimatedTime s) (SimulationMetrics.totalTime (metrics s))
               (Route.time newRoute) (penaltyWeight s)
          then commitReroute clock newRoute s else s).
Proof.
  intros Hplay Hcur Htruthy Hne Hplan Hdiff.
  unfold rerouteEffect. rewrite Hplay, Hcur, Htruthy. simpl.
  apply String.eqb_neq in Hne. rewrite Hne. simpl. rewrite Hplan.
  apply String.eqb_neq in Hdiff. rewrite Hdiff. simpl.
  destruct (shouldReroute _ _ _ _); reflexivity.
Qed.

Lemma commitReroute_committed (clock : Clock) (newRoute : Route.t) (s : Sim) :
  committed newRoute s (commitReroute clock newRoute s).
Proof. unfold committed, commitReroute. simpl. auto. Qed.

Lemma not_committed_self (newRoute : Route.t) (s : Sim) : ~ committed newRoute s s.
Proof. intros (_ & H & _). lia. Qed.

(** C4.  Acceptance is antitone in penaltyWeight: with the estimate, the
    elapsed time and the candidate fixed, a reroute accepted at penalty
    weight p2 is accepted at every p1 <= p2; raising the weight never turns
    a reject into an accept. *)
Theorem shouldReroute_antitone_penaltyWeight
    (estimatedTime totalTime newRemainingTime p1 p2 : Q) :
  p1 <= p2 ->
  shouldReroute estimatedTime totalTime newRemainingTime p2 = true ->
  shouldReroute estimatedTime totalTime newRemainingTime p1 = true.
Proof.
  intros Hle. rewrite !shouldReroute_spec. simpl.
  intros [Hnet Hrel]. split; [lra | exact Hrel].
Qed.

Lemma shouldReroute_antitone_penaltyWeight_witness :
  shouldReroute 10 0 5 0.5 = true.
Proof.
  apply (shouldReroute_antitone_penaltyWeight 10 0 5 0.5 1.5).
  - vm_compute. discriminate.
  - vm_compute. reflexivity.
Defined.

(** C9.  When the candidate's node sequence equals the remaining suffix of
    the committed path, the reroute evaluation is a no-op: the whole state,
    and with it the committed path, the estimate, the reroute counter and
    the log, is unchanged. *)
Theorem reroute_same_suffix_noop (fuel : nat) (clock : Clock) (s : Sim)
    (newRoute : Route.t) :
  isPlaying s = true ->
  (forall currentNode,
     currentPath s !! carNodeIndex s = Some currentNode ->
     findBestPath fuel currentNode (endNode s) (edges s) (nodes s)
     = Some (Some newRoute)) ->
  Route.path newRoute = drop (carNodeIndex s) (currentPath s) ->
  rerouteEffect fuel clock s = Some s.
Proof.
  intros Hplay Hplan Hsame. unfold rerouteEffect. rewrite Hplay. simpl.
  destruct (currentPath s !! carNodeIndex s) as [currentNode|] eqn:Hcur;
    [|reflexivity].
  destruct (truthy currentNode && negb (currentNode =? endNode s)%string);
    [|reflexivity].
  rewrite (Hplan currentNode eq_refl), Hsame, String.eqb_refl. reflexivity.
Qed.

(** ** VehicleSimulator *)

(* With fewer than two nodes the tick takes the arrival branch whatever the
   edge index is, index 0 of the very first tick included. *)
Lemma moveTick_short_path (clock : Clock) (s : Sim) :
  isPlaying s = true ->
  (List.length (currentPath s) < 2)%nat ->
  moveTick clock s
  = addLog clock
      (MsgDestinationReached (SimulationMetrics.totalTime (metrics s))) success
      (setIsPlaying false s).
Proof.
  intros Hplay Hlen. unfold moveTick. rewrite Hplay. simpl.
  destruct (Z.leb_spec (Z.of_nat (List.length (currentPath s)) - 1)
              (Z.of_nat (carNodeIndex s))) as [_|H]; [reflexivity|lia].
Qed.

(** C10 (the code departs from the specification).  The specification: with
    a committed path of fewer than two nodes, the empty path included, the
    first movement tick takes the arrival branch, stops the simulation and
    logs the success entry `Destination Reached`.  The code: the tick takes
    the arrival branch and stops the simulation, and changes nothing else;
    the entry it hands to addLog is not stored, since addLog keeps
    `slice(100)` of the extended log (C5).  On a log of fewer than 100
    entries, the empty log of the component among them, the log is empty
    after the tick and holds no `Destination Reached` entry. *)
Theorem moveTick_short_path_arrival_not_logged (clock : Clock) (s : Sim) :
  isPlaying s = true ->
  (List.length (currentPath s) < 2)%nat ->
  (List.length (logs s) < 100)%nat ->
  moveTick clock s = setLogs (fun _ => []) (setIsPlaying false s)
  /\ isPlaying (moveTick clock s) = false
  /\ logs (moveTick clock s) = []
  /\ SimulationLog.mk (now clock) (toLocaleTimeString clock)
       (MsgDestinationReached (SimulationMetrics.totalTime (metrics s))) success
     ∉ logs (moveTick clock s).
Proof.
  intros Hplay Hlen Hlogs. rewrite (moveTick_short_path clock s Hplay Hlen).
  unfold addLog, setLogs. cbn [logs isPlaying setIsPlaying edges nodes startNode
    endNode selectionMode carNodeIndex progressBetweenNodes isWaitingForLight
    currentPath estimatedTime penaltyWeight metrics].
  rewrite addLogEntry_short by exact Hlogs.
  repeat split. apply not_elem_of_nil.
Qed.

Lemma moveTick_short_path_arrival_not_logged_witness :
  let s := setIsPlaying true (initialSim [] []) in
  let clock := mkClock 0 "12:00:00" in
  moveTick clock s = setLogs (fun _ => []) (setIsPlaying false s)
  /\ isPlaying (moveTick clock s) = false
  /\ logs (moveTick clock s) = []
  /\ SimulationLog.mk 0 "12:00:00" (MsgDestinationReached 0) success
     ∉ logs (moveTick clock s).
Proof.
  apply (moveTick_short_path_arrival_not_logged (mkClock 0 "12:00:00")
           (setIsPlaying true (initialSim [] []))).
  - reflexivity.
  - simpl. lia.
  - simpl. lia.
Defined.

(* The branch taken in front of a red light. *)
Lemma moveTick_red (clock : Clock) (s : Sim) (edge : Edge.t) :
  isPlaying s = true ->
  (S (carNodeIndex s) < List.length (currentPath s))%nat ->
  findEdge (edges s) (currentPath s !! carNodeIndex s)
    (currentPath s !! (carNodeIndex s + 1)%nat) = Some edge ->
  lightIsRed (nodes s) (currentPath s !! (carNodeIndex s + 1)%nat) = true ->
  0.85 < progressBetweenNodes s ->
  moveTick clock s = setMetrics addWaitingTime (setIsWaitingForLight true s).
Proof.
  intros Hplay Hlen Hedge Hred Hprog. unfold moveTick. rewrite Hplay. simpl.
  destruct (Z.leb_spec (Z.of_nat (List.length (currentPath s)) - 1)
              (Z.of_nat (carNodeIndex s))) as [H|_]; [lia|].
  rewrite Hedge, Hred. apply Qltb_lt in Hprog. rewrite Hprog. reflexivity.
Qed.

(* The branch taken when the light ahead is not red. *)
Lemma moveTick_go (clock : Clock) (s : Sim) (edge : Edge.t) :
  isPlaying s = true ->
  (S (carNodeIndex s) < List.length (currentPath s))%nat ->
  findEdge (edges s) (currentPath s !! carNodeIndex s)
    (currentPath s !! (carNodeIndex s + 1)%nat) = Some edge ->
  lightIsRed (nodes s) (currentPath s !! (carNodeIndex s + 1)%nat) = false ->
  0 < Edge.currentSpeed edge ->
  0 < Edge.length edge ->
  isWaitingForLight (moveTick clock s) = false /\ advanced s (moveTick clock s).
Proof.
  intros Hplay Hlen Hedge Hgreen Hspeed Hlength. unfold moveTick.
  rewrite Hplay. simpl.
  destruct (Z.leb_spec (Z.of_nat (List.length (currentPath s)) - 1)
              (Z.of_nat (carNodeIndex s))) as [H|_]; [lia|].
  rewrite Hedge, Hgreen. simpl.
  assert (Hstep : 0 < Edge.currentSpeed edge / Edge.length edge * 0.005).
  { apply Qmult_lt_0_compat; [|lra]. apply Qlt_shift_div_l; lra. }
  unfold advanced. destruct (Qle_bool 1 _) eqn:E; sim_simpl.
  - split; [reflexivity|]. left. split; [lia | reflexivity].
  - split; [reflexivity|]. right. split; [reflexivity | lra].
Qed.

(** C7.  On a movement tick with the next path node's light red and the
    progress within the edge above 0.85, the simulator sets
    waiting-for-light, advances neither the progress nor the edge index,
    and accrues only the fixed 0.05 of elapsed time (no distance).  On a
    later tick from that position, once the light is no longer red,
    waiting-for-light is cleared and the vehicle advances again (over an
    edge of positive length and speed). *)
Theorem red_light_wait_then_resume (clock : Clock) (s : Sim) (edge : Edge.t) :
  isPlaying s = true ->
  (S (carNodeIndex s) < List.length (currentPath s))%nat ->
  findEdge (edges s) (currentPath s !! carNodeIndex s)
    (currentPath s !! (carNodeIndex s + 1)%nat) = Some edge ->
  lightIsRed (nodes s) (currentPath s !! (carNodeIndex s + 1)%nat) = true ->
  0.85 < progressBetweenNodes s ->
  let s1 := moveTick clock s in
  (isWaitingForLight s1 = true
   /\ carNodeIndex s1 = carNodeIndex s
   /\ progressBetweenNodes s1 = progressBetweenNodes s
   /\ currentPath s1 = currentPath s
   /\ isPlaying s1 = true
   /\ SimulationMetrics.totalTime (metrics s1)
      = SimulationMetrics.totalTime (metrics s) + 0.05
   /\ SimulationMetrics.distanceTraveled (metrics s1)
      = SimulationMetrics.distanceTraveled (metrics s))
  /\ (forall (clock2 : Clock) (s2 : Sim) (edge2 : Edge.t),
        isPlaying s2 = true ->
        currentPath s2 = currentPath s1 ->
        carNodeIndex s2 = carNodeIndex s1 ->
        progressBetweenNodes s2 = progressBetweenNodes s1 ->
        findEdge (edges s2) (currentPath s2 !! carNodeIndex s2)
          (currentPath s2 !! (carNodeIndex s2 + 1)%nat) = Some edge2 ->
        0 < Edge.currentSpeed edge2 ->
        0 < Edge.length edge2 ->
        lightIsRed (nodes s2) (currentPath s2 !! (carNodeIndex s2 + 1)%nat) = false ->
        isWaitingForLight (moveTick clock2 s2) = false
        /\ advanced s2 (moveTick clock2 s2)).
Proof.
  intros Hplay Hlen Hedge Hred Hprog s1.
  assert (Hs1 : s1 = setMetrics addWaitingTime (setIsWaitingForLight true s))
    by (apply (moveTick_red clock s edge); assumption).
  split.
  - rewrite Hs1. sim_simpl. rewrite Hplay. repeat split; reflexivity.
  - intros clock2 s2 edge2 Hplay2 Hpath Hidx Hprog2 Hedge2 Hspeed Hlength Hgreen.
    apply (moveTick_go clock2 s2 edge2); try assumption.
    rewrite Hpath, Hidx, Hs1. sim_simpl. exact Hlen.
Qed.

(** ** EnvironmentSimulator and EventInjector *)

Lemma tickEdges_congested (rnd : Tape) (l : list Edge.t) :
  forall (pos i : nat) (e : Edge.t),
    l !! i = Some e -> isCongested e = true ->
    fst (tickEdges rnd pos l) !! i = Some e.
Proof.
  induction l as [|a l IH]; intros pos i e Hi Hc; [discriminate|].
  simpl. destruct i as [|i]; simpl in Hi.
  - injection Hi as ->. rewrite Hc.
    destruct (tickEdges rnd pos l). reflexivity.
  - destruct (isCongested a).
    + specialize (IH pos i e Hi Hc). destruct (tickEdges rnd pos l). exact IH.
    + specialize (IH (S (S pos)) i e Hi Hc).
      destruct (tickEdges rnd (S (S pos)) l). exact IH.
Qed.

Lemma envTick_edges (rnd : Tape) (pos : nat) (s : Sim) :
  edges (fst (envTick rnd pos s))
  = if isPlaying s
    then fst (tickEdges rnd (snd (tickNodes rnd pos (nodes s))) (edges s))
    else edges s.
Proof.
  unfold envTick. destruct (isPlaying s); [|reflexivity].
  destruct (tickNodes rnd pos (nodes s)) as [ns pos1]. simpl.
  destruct (tickEdges rnd pos1 (edges s)) as [es pos2]. reflexivity.
Qed.

(* One environment tick leaves an incident edge as it is. *)
Lemma envTick_congested (rnd : Tape) (pos : nat) (s : Sim) (i : nat) (e : Edge.t) :
  edges s !! i = Some e -> isCongested e = true ->
  edges (fst (envTick rnd pos s)) !! i = Some e.
Proof.
  intros Hi Hc. rewrite envTick_edges. destruct (isPlaying s); [|exact Hi].
  apply tickEdges_congested; assumption.
Qed.

Lemma envTicks_congested (draws : list (Tape * nat)) :
  forall (s : Sim) (i : nat) (e : Edge.t),
    edges s !! i = Some e -> isCongested e = true ->
    edges (envTicks draws s) !! i = Some e.
Proof.
  unfold envTicks. induction draws as [|d draws IH]; intros s i e Hi Hc; [exact Hi|].
  simpl. apply IH; [|exact Hc]. apply envTick_congested; assumption.
Qed.

Lemma triggerCongestion_edges (clock : Clock) (edgeId : string) (speed : Q)
    (reason : string) (s : Sim) :
  edges (triggerCongestion clock edgeId speed reason s)
  = map (fun e => if String.eqb (Edge.id e) edgeId then
                    Edge.mk (Edge.id e) (Edge.source e) (Edge.target e)
                      (Edge.length e) (Edge.limit e) (Edge.baseSpeed e)
                      speed (Some true)
                  else e) (edges s).
Proof. reflexivity. Qed.

(** C8.  An edge marked incident by an injection is left entirely unchanged
    by every later environment tick, its currentSpeed included: each tick
    returns an edge whose incident flag is set as it found it, and so does
    any run of ticks after the injection.  (Only a reset, which reloads the
    initial edges, clears the flag.) *)
Theorem incident_edge_frozen (clock : Clock) (edgeId : string) (speed : Q)
    (reason : string) (s : Sim) (i : nat) (e : Edge.t) :
  edges s !! i = Some e ->
  Edge.id e = edgeId ->
  let incident :=
    Edge.mk (Edge.id e) (Edge.source e) (Edge.target e) (Edge.length e)
      (Edge.limit e) (Edge.baseSpeed e) speed (Some true) in
  edges (triggerCongestion clock edgeId speed reason s) !! i = Some incident
  /\ (forall draws : list (Tape * nat),
        edges (envTicks draws (triggerCongestion clock edgeId speed reason s)) !! i
        = Some incident)
  /\ (forall (rnd : Tape) (pos : nat) (s' : Sim),
        edges s' !! i = Some incident ->
        edges (fst (envTick rnd pos s')) !! i = Some incident).
Proof.
  intros Hi Hid incident.
  assert (Hmark : edges (triggerCongestion clock edgeId speed reason s) !! i
                  = Some incident).
  { rewrite triggerCongestion_edges, list_lookup_fmap, Hi. simpl.
    apply String.eqb_eq in Hid. rewrite Hid. reflexivity. }
  split; [exact Hmark|]. split.
  - intros draws. apply envTicks_congested; [exact Hmark | reflexivity].
  - intros rnd pos s' Hs'. apply envTick_congested; [exact Hs' | reflexivity].
Qed.

(* The clamp of the tick does not depend on the draws. *)
Lemma perturb_speedInvariant (r1 r2 : Q) (e : Edge.t) :
  5 <= Edge.limit e -> slowdownWithinLimit e -> speedInvariant (perturb r1 r2 e).
Proof.
  unfold slowdownWithinLimit, speedInvariant, perturb. intros Hlimit Hslow. simpl.
  set (flux := (r1 - 0.5) * 15).
  assert (Hclamp : forall q, q <= Edge.limit e ->
            5 <= Math_max 5 q /\ Math_max 5 q <= Edge.limit e).
  { intros q Hq. destruct (Math_max_spec 5 q) as [[? ->]|[? ->]]; lra. }
  assert (Hnew : let v := if Qltb 0.95 r2 then Math_max 5 (Edge.baseSpeed e * 0.2)
                          else Math_max 5 (Math_min (Edge.limit e)
                                             (Edge.baseSpeed e + flux)) in
                 5 <= v /\ v <= Edge.limit e).
  { simpl. destruct (Qltb 0.95 r2).
    - apply Hclamp, Hslow.
    - apply Hclamp.
      destruct (Math_min_spec (Edge.limit e) (Edge.baseSpeed e + flux))
        as [[? ->]|[? ->]]; lra. }
  simpl in Hnew. destruct Hnew as [Hlo Hhi].
  split; [lra|]. split.
  - apply (Math_floor_ge 5). exact Hlo.
  - eapply Qle_trans; [apply Math_floor_le | exact Hhi].
Qed.

Lemma perturb_edgeOk (r1 r2 : Q) (e : Edge.t) : edgeOk e -> edgeOk (perturb r1 r2 e).
Proof.
  intros [Hs Hslow]. split; [|exact Hslow].
  apply perturb_speedInvariant; [|exact Hslow].
  destruct Hs as (_ & H1 & H2). lra.
Qed.

Lemma tickEdges_edgeOk (rnd : Tape) (l : list Edge.t) :
  forall pos : nat, Forall edgeOk l -> Forall edgeOk (fst (tickEdges rnd pos l)).
Proof.
  induction l as [|e l IH]; intros pos Hall; simpl; [constructor|].
  inversion Hall as [|? ? He Hl]; subst.
  destruct (isCongested e).
  - specialize (IH pos Hl). destruct (tickEdges rnd pos l). simpl in *.
    constructor; assumption.
  - specialize (IH (S (S pos)) Hl). destruct (tickEdges rnd (S (S pos)) l).
    simpl in *. constructor; [apply perturb_edgeOk|]; assumption.
Qed.

Lemma triggerCongestion_edgeOk (clock : Clock) (edgeId : string) (speed : Q)
    (reason : string) (s : Sim) :
  boundedIncident s edgeId speed ->
  Forall edgeOk (edges s) ->
  Forall edgeOk (edges (triggerCongestion clock edgeId speed reason s)).
Proof.
  intros Hb Hall. rewrite triggerCongestion_edges.
  apply Forall_fmap. rewrite Forall_forall in Hall |- *.
  intros e He. simpl. destruct (String.eqb_spec (Edge.id e) edgeId) as [Hid|_].
  - destruct (Hb e He Hid) as [Hlo Hhi]. destruct (Hall e He) as [_ Hslow].
    split; [|exact Hslow]. unfold speedInvariant. simpl. repeat split; lra.
  - apply Hall, He.
Qed.

Lemma rerouteEffect_edges (fuel : nat) (clock : Clock) (s s' : Sim) :
  rerouteEffect fuel clock s = Some s' -> edges s' = edges s.
Proof.
  unfold rerouteEffect. intros H.
  repeat match type of H with
         | context [match ?c with _ => _ end] => destruct c
         end;
    try discriminate; injection H as <-; reflexivity.
Qed.

Lemma moveTick_edges (clock : Clock) (s : Sim) : edges (moveTick clock s) = edges s.
Proof.
  unfold moveTick.
  repeat match goal with
         | |- context [match ?c with _ => _ end] => destruct c
         end; reflexivity.
Qed.

Section SpeedInvariant.
Variable INITIAL_EDGES : list Edge.t.
Variable NODES : list Node.t.
Hypothesis initial_ok : Forall edgeOk INITIAL_EDGES.

Lemma step_edgeOk (s s' : Sim) :
  step INITIAL_EDGES boundedIncident s s' ->
  Forall edgeOk (edges s) -> Forall edgeOk (edges s').
Proof.
  intros Hstep Hall. destruct Hstep.
  - rewrite envTick_edges. destruct (isPlaying s); [|exact Hall].
    apply tickEdges_edgeOk, Hall.
  - erewrite rerouteEffect_edges by eassumption. exact Hall.
  - rewrite moveTick_edges. exact Hall.
  - apply triggerCongestion_edgeOk; assumption.
  - unfold randomAccident. destruct (randomEdge r s) as [e|] eqn:E; [|exact Hall].
    apply triggerCongestion_edgeOk; [|exact Hall]. auto.
  - exact initial_ok.
  - unfold handleNodeClick. destruct (selectionMode s) as [[|]|];
      [exact initial_ok | exact initial_ok | exact Hall].
  - exact Hall.
  - unfold togglePlay. destruct (negb (isPlaying s) && Nat.eqb (carNodeIndex s) 0);
      exact Hall.
  - exact Hall.
Qed.

Lemma reachable_edgeOk (s : Sim) :
  reachable INITIAL_EDGES NODES boundedIncident s -> Forall edgeOk (edges s).
Proof.
  induction 1 as [|s s' _ IH Hstep]; [exact initial_ok|].
  exact (step_edgeOk s s' Hstep IH).
Qed.
End SpeedInvariant.

(** C6 (as amended).  From initial edges that satisfy
    0 < minSpeed <= currentSpeed <= limit (minSpeed = 5) and whose base
    speed times 0.2 does not exceed the limit, every state reached by any
    interleaving of environment ticks, resets, the other transitions, and
    incident injections whose forced speed lies between minSpeed and the
    limit of the edge they hit, keeps 0 < minSpeed <= currentSpeed <= limit
    on every edge.  Speeds are rationals here, hence finite. *)
Theorem speed_invariant_bounded_incidents (INITIAL_EDGES : list Edge.t)
    (NODES : list Node.t) (s : Sim) :
  Forall (fun e => speedInvariant e /\ slowdownWithinLimit e) INITIAL_EDGES ->
  reachable INITIAL_EDGES NODES boundedIncident s ->
  Forall speedInvariant (edges s).
Proof.
  intros Hinit Hreach.
  pose proof (reachable_edgeOk INITIAL_EDGES NODES Hinit s Hreach) as Hall.
  eapply Forall_impl; [exact Hall|]. intros e [H _]. exact H.
Qed.

Lemma gridEdges_ok :
  Forall (fun e => speedInvariant e /\ slowdownWithinLimit e) gridEdges.
Proof.
  repeat constructor; unfold slowdownWithinLimit; simpl; lra.
Qed.

Lemma speed_invariant_bounded_incidents_witness :
  Forall speedInvariant
    (edges (triggerCongestion noon "e12" 10 "Roadworks"
              (initialSim gridEdges gridNodes))).
Proof.
  apply (speed_invariant_bounded_incidents gridEdges gridNodes).
  - exact gridEdges_ok.
  - eapply reachable_step; [apply reachable_init|].
    apply step_incident. intros e He Hid.
    repeat (apply elem_of_cons in He; destruct He as [->|He]);
      [| | | |apply elem_of_nil in He; destruct He]; simpl; split; lra.
Defined.

(** C6 (fails as the specification states it).  The random-accident button
    forces the speed 2 on the edge it picks, below minSpeed = 5: one click
    from the initial state of the grid gives a reachable state with an edge
    outside 0 < minSpeed <= currentSpeed <= limit. *)
Lemma speed_invariant_broken_by_accident :
  ~ (forall (INITIAL_EDGES : list Edge.t) (NODES : list Node.t) (s : Sim),
       Forall (fun e => speedInvariant e /\ slowdownWithinLimit e) INITIAL_EDGES ->
       reachable INITIAL_EDGES NODES anyIncident s ->
       Forall speedInvariant (edges s)).
Proof.
  intros H.
  specialize (H gridEdges gridNodes
                (randomAccident noon 0 (initialSim gridEdges gridNodes))
                gridEdges_ok).
  assert (Hreach : reachable gridEdges gridNodes anyIncident
                     (randomAccident noon 0 (initialSim gridEdges gridNodes))).
  { eapply reachable_step; [apply reachable_init|].
    apply step_accident. intros e _. exact I. }
  specialize (H Hreach). inversion H as [|e l (_ & Hlo & _) _]; subst.
  simpl in Hlo. lra.
Qed.

(* The base speed matters too: the severe slowdown stores 20% of it without
   looking at the limit. *)
Example perturb_ignores_limit :
  let e := Edge.mk "e" "1" "2" 1 60 400 50 None in
  speedInvariant e /\ Edge.currentSpeed (perturb 0.5 0.99 e) == 80.
Proof.
  split; [unfold speedInvariant; simpl; lra | vm_compute; reflexivity].
Qed.

(** ** PathPlanner: shape of the returned path *)

Lemma rchain_functional (cf : gmap string string) (l1 : list string) :
  forall l2 n, rchain cf (n :: l1) -> rchain cf (n :: l2) -> l1 = l2.
Proof.
  induction l1 as [|a l1 IH]; intros l2 n H1 H2.
  - inversion H1; subst. inversion H2; subst; [reflexivity | congruence].
  - inversion H1; subst. inversion H2; subst; [congruence|].
    assert (a = a0) by congruence. subst a0. f_equal. eapply IH; eassumption.
Qed.

Lemma rchain_suffix (cf : gmap string string) (l1 : list string) :
  forall n l2, rchain cf (l1 ++ n :: l2) -> rchain cf (n :: l2).
Proof.
  induction l1 as [|a l1 IH]; intros n l2 H; [exact H|].
  simpl in H. inversion H; subst.
  - destruct l1; discriminate.
  - apply IH. destruct l1 as [|a' l1]; simpl in *; congruence.
Qed.

(* A walk that ends cannot pass twice through a node. *)
Lemma rchain_NoDup (cf : gmap string string) (l : list string) :
  rchain cf l -> NoDup l.
Proof.
  induction 1 as [r Hr | b a l Hb Hl IH].
  - apply NoDup_singleton.
  - constructor; [|exact IH]. intros Hin.
    apply list_elem_of_split in Hin as (l1 & l2 & Heq).
    assert (Hsuf : rchain cf (b :: l2)) by (apply (rchain_suffix cf l1); rewrite <- Heq; exact Hl).
    assert (Hfull : rchain cf (b :: a :: l)) by (constructor; assumption).
    pose proof (rchain_functional cf _ _ _ Hfull Hsuf) as Hlen.
    apply (f_equal List.length) in Hlen. rewrite Heq in Hlen.
    rewrite length_app in Hlen. simpl in Hlen. lia.
Qed.

Lemma rchain_adjacent (cf : gmap string string) (l : list string) (b a : string) :
  rchain cf l -> adjacent b a l -> cf !! b = Some a.
Proof.
  intros Hl (l1 & l2 & ->). apply rchain_suffix in Hl. inversion Hl; subst. assumption.
Qed.

Lemma rchain_last (cf : gmap string string) (l : list string) (r : string) :
  rchain cf l -> last l = Some r -> cf !! r = None.
Proof.
  induction 1 as [r' Hr | b a l Hb Hl IH]; simpl.
  - intros [= <-]. exact Hr.
  - intros H. apply IH. exact H.
Qed.

(* The node the walk stops at: it has no predecessor, and it is either the
   node the walk began at or some node's predecessor. *)
Lemma rchain_end (cf : gmap string string) (l : list string) :
  rchain cf l ->
  exists r, last l = Some r /\ cf !! r = None
            /\ (head l = Some r \/ exists p, cf !! p = Some r).
Proof.
  induction 1 as [r Hr | b a l Hb Hl (r & Hlast & Hnone & Hfrom)].
  - exists r. simpl. auto.
  - exists r. split; [exact Hlast|]. split; [exact Hnone|]. right.
    destruct Hfrom as [Hhead|Hpred]; [|exact Hpred].
    simpl in Hhead. injection Hhead as ->. eauto.
Qed.

Lemma rev_reverse {A : Type} (l : list A) : rev l = reverse l.
Proof. apply rev_alt. Qed.

Lemma adjacent_rev (a b : string) (l : list string) :
  adjacent a b (rev l) -> adjacent b a l.
Proof.
  intros (l1 & l2 & H). exists (rev l2), (rev l1).
  apply (f_equal (@rev string)) in H. rewrite rev_involutive in H. rewrite H.
  rewrite rev_app_distr. simpl. rewrite <- !app_assoc. reflexivity.
Qed.

(* The loop returns the walk from [current], reversed, in front of what
   follows [current] in the accumulator. *)
Lemma reconstruct_rchain (cf : gmap string string) (fuel : nat) :
  forall (current : string) (rest totalPath : list string),
    reconstruct fuel cf current (current :: rest) = Some totalPath ->
    exists l, rchain cf (current :: l) /\ totalPath = rev (current :: l) ++ rest.
Proof.
  induction fuel as [|k IH]; intros current rest totalPath H; simpl in H.
  - destruct (cf !! current) eqn:E; [discriminate|]. injection H as <-.
    exists []. split; [constructor; exact E | reflexivity].
  - destruct (cf !! current) as [prev|] eqn:E.
    + apply IH in H as (l & Hl & ->). exists (prev :: l). split.
      * constructor; assumption.
      * simpl. rewrite <- !app_assoc. reflexivity.
    + injection H as <-. exists []. split; [constructor; exact E | reflexivity].
Qed.

Lemma lowest_elem (fScore : gmap string num) (rest : list string) :
  forall a, lowest fScore a rest ∈ a :: rest.
Proof.
  unfold lowest. induction rest as [|b rest IH]; intros a; simpl.
  - apply list_elem_of_here.
  - destruct (js_lt (fScore !! a) (fScore !! b)).
    + specialize (IH a). apply elem_of_cons in IH as [->|IH].
      * apply list_elem_of_here.
      * do 2 apply list_elem_of_further. exact IH.
    + apply list_elem_of_further, IH.
Qed.

Lemma elem_of_set_add (x y : string) (s : list string) :
  y ∈ set_add x s <-> y = x \/ y ∈ s.
Proof.
  unfold set_add. destruct (decide (x ∈ s)) as [Hin|Hnin].
  - split; [auto|]. intros [->|H]; assumption.
  - rewrite elem_of_app, list_elem_of_singleton. tauto.
Qed.

Lemma elem_of_set_delete (x y : string) (s : list string) :
  y ∈ set_delete x s <-> y <> x /\ y ∈ s.
Proof. unfold set_delete. rewrite list_elem_of_filter. reflexivity. Qed.

Lemma neighbors_spec (currentEdges : list Edge.t) (current : string) (e : Edge.t) :
  e ∈ neighbors currentEdges current ->
  e ∈ currentEdges /\ connects e current (neighborOf current e).
Proof.
  unfold neighbors. rewrite !list_elem_of_In, filter_In. intros [Hin Hc].
  split; [exact Hin|]. unfold connects, neighborOf.
  destruct (String.eqb_spec (Edge.source e) current) as [Hs|Hs].
  - left. auto.
  - simpl in Hc. apply String.eqb_eq in Hc. right. auto.
Qed.

(* The two outcomes of the loop body. *)
Lemma relax_cases (nodes : list Node.t) (endId current : string) (st : AStar)
    (edge : Edge.t) :
  let neighborId := neighborOf current edge in
  let tentativeGScore :=
    js_add (gScore st !! current) (stepCost nodes (cameFrom st) current edge) in
  (relax nodes endId current st edge = st
   /\ js_lt tentativeGScore (gScore st !! neighborId) = false)
  \/ exists t,
       tentativeGScore = Some t
       /\ js_lt (Some t) (gScore st !! neighborId) = true
       /\ relax nodes endId current st edge
          = {| openSet := set_add neighborId (openSet st);
               cameFrom := <[neighborId := current]> (cameFrom st);
               gScore := <[neighborId := t]> (gScore st);
               fScore := <[neighborId := num_plus t (heuristic nodes endId neighborId)]>
                           (fScore st) |}.
Proof.
  simpl. unfold relax.
  destruct (js_add (gScore st !! current) _) as [t|] eqn:Et.
  - destruct (js_lt (Some t) _) eqn:Elt; [|left; auto].
    right. exists t. auto.
  - left. split; reflexivity.
Qed.

(* The g-score of an open node is finite, on every graph. *)
Lemma relax_open_finite (nodes : list Node.t) (endId current : string)
    (st : AStar) (edge : Edge.t) :
  open_finite st -> open_finite (relax nodes endId current st edge).
Proof.
  intros Hfin.
  destruct (relax_cases nodes endId current st edge) as [[-> _]|(t & _ & Hless & ->)];
    [exact Hfin|].
  intros n Hn. cbn [openSet gScore] in *.
  destruct (decide (neighborOf current edge = n)) as [<-|Hne].
  - rewrite lookup_insert_eq. destruct t as [q|]; [eauto|].
    destruct (gScore st !! neighborOf current edge) as [[?|]|]; discriminate.
  - rewrite lookup_insert_ne by exact Hne. apply Hfin.
    apply elem_of_set_add in Hn as [->|Hn]; [congruence | exact Hn].
Qed.

Lemma expand_open_finite (nodes : list Node.t) (currentEdges : list Edge.t)
    (endId current : string) (st : AStar) :
  open_finite st -> open_finite (expand nodes currentEdges endId current st).
Proof.
  intros Hfin. unfold expand.
  set (st0 := {| openSet := set_delete current (openSet st); cameFrom := cameFrom st;
                 gScore := gScore st; fScore := fScore st |}).
  assert (H0 : open_finite st0).
  { intros n Hn. apply elem_of_set_delete in Hn as [_ Hn]. apply Hfin, Hn. }
  clearbody st0. revert st0 H0.
  induction (neighbors currentEdges current) as [|e es IH]; intros st0 H0; simpl;
    [exact H0|].
  apply IH, relax_open_finite, H0.
Qed.

Lemma astar_init_open_finite (nodes : list Node.t) (startId endId : string) :
  open_finite (astar_init nodes startId endId).
Proof.
  intros n Hn. simpl in *. apply list_elem_of_singleton in Hn as ->.
  rewrite lookup_insert_eq. eauto.
Qed.

(* So is the g-score of the node the loop selects. *)
Lemma selected_finite (st : AStar) (a : string) (rest : list string) :
  open_finite st -> openSet st = a :: rest ->
  exists t, gScore st !! lowest (fScore st) a rest = Some (Fin t).
Proof.
  intros Hfin Hopen. apply Hfin. rewrite Hopen. apply lowest_elem.
Qed.

Section PlannerShape.
Variable nodes : list Node.t.
Variable currentEdges : list Edge.t.
Variables startId endId : string.

Lemma relax_shape (current : string) (st : AStar) (edge : Edge.t) :
  edge ∈ neighbors currentEdges current ->
  origin_ok startId st -> links_ok currentEdges st -> has_origin startId st current ->
  origin_ok startId (relax nodes endId current st edge)
  /\ links_ok currentEdges (relax nodes endId current st edge)
  /\ has_origin startId (relax nodes endId current st edge) current.
Proof.
  intros Hedge Horigin Hlinks Hcur.
  destruct (relax_cases nodes endId current st edge) as [[-> _]|(t & _ & _ & ->)];
    [auto|].
  apply neighbors_spec in Hedge as [Hin Hconn].
  set (nb := neighborOf current edge) in *.
  assert (Hstable : forall n, has_origin startId st n ->
            n = startId \/ is_Some (<[nb := current]> (cameFrom st) !! n)).
  { intros n [->|Hn]; [left; reflexivity|]. right.
    rewrite lookup_insert_is_Some'. auto. }
  split; [|split].
  - intros n. simpl. rewrite elem_of_set_add. intros [[->|Hn]|(m & Hm)].
    + right. rewrite lookup_insert_eq. eauto.
    + apply Hstable, Horigin. auto.
    + destruct (decide (nb = m)) as [->|Hne].
      * rewrite lookup_insert_eq in Hm. injection Hm as <-. apply Hstable, Hcur.
      * rewrite lookup_insert_ne in Hm by exact Hne. apply Hstable, Horigin. eauto.
  - intros n c. simpl. destruct (decide (nb = n)) as [<-|Hne].
    + rewrite lookup_insert_eq. intros [= <-]. eauto.
    + rewrite lookup_insert_ne by exact Hne. apply Hlinks.
  - apply Hstable, Hcur.
Qed.

Lemma fold_relax_shape (current : string) (es : list Edge.t) :
  forall st : AStar,
    (forall e, e ∈ es -> e ∈ neighbors currentEdges current) ->
    origin_ok startId st -> links_ok currentEdges st -> has_origin startId st current ->
    origin_ok startId (fold_left (relax nodes endId current) es st)
    /\ links_ok currentEdges (fold_left (relax nodes endId current) es st).
Proof.
  induction es as [|e es IH]; intros st Hsub Ho Hl Hc; simpl; [auto|].
  destruct (relax_shape current st e) as (Ho' & Hl' & Hc'); try assumption.
  { apply Hsub, list_elem_of_here. }
  apply IH; try assumption.
  intros e' He'. apply Hsub, list_elem_of_further, He'.
Qed.

Lemma expand_shape (current : string) (st : AStar) :
  current ∈ openSet st ->
  origin_ok startId st -> links_ok currentEdges st ->
  origin_ok startId (expand nodes currentEdges endId current st)
  /\ links_ok currentEdges (expand nodes currentEdges endId current st).
Proof.
  intros Hopen Horigin Hlinks. unfold expand.
  apply fold_relax_shape; [auto | | exact Hlinks | apply Horigin; auto].
  intros n [Hn|Hn]; apply Horigin; [left|right; exact Hn].
  apply elem_of_set_delete in Hn as [_ Hn]. exact Hn.
Qed.

Lemma astar_init_shape :
  origin_ok startId (astar_init nodes startId endId)
  /\ links_ok currentEdges (astar_init nodes startId endId).
Proof.
  split.
  - intros n [Hn|(m & Hm)]; simpl in *.
    + apply list_elem_of_singleton in Hn. auto.
    + rewrite lookup_empty in Hm. discriminate.
  - intros n c Hn. simpl in Hn. rewrite lookup_empty in Hn. discriminate.
Qed.

(* The path handed back by the loop is the reversed walk from the goal
   down to the start. *)
Lemma search_shape (fuel : nat) :
  forall (st : AStar) (r : Route.t),
    origin_ok startId st -> links_ok currentEdges st ->
    search fuel nodes currentEdges endId st = Some (Some r) ->
    exists (cf : gmap string string) (l : list string),
      rchain cf (endId :: l)
      /\ Route.path r = rev (endId :: l)
      /\ last (endId :: l) = Some startId
      /\ forall n c, cf !! n = Some c -> exists e, e ∈ currentEdges /\ connects e c n.
Proof.
  induction fuel as [|k IH]; intros st r Ho Hl H; simpl in H; [discriminate|].
  destruct (openSet st) as [|a rest] eqn:Eopen; [discriminate|].
  pose proof (lowest_elem (fScore st) rest a) as Hin. rewrite <- Eopen in Hin.
  set (current := lowest (fScore st) a rest) in *.
  destruct (String.eqb_spec current endId) as [Hgoal|Hgoal].
  - destruct (reconstruct k (cameFrom st) current [current]) as [totalPath|] eqn:Erec;
      [|discriminate].
    destruct (gScore st !! endId) as [[t|]|]; try discriminate.
    injection H as <-. simpl.
    apply reconstruct_rchain in Erec as (l & Hchain & ->).
    rewrite Hgoal in *. exists (cameFrom st), l.
    split; [exact Hchain|]. split; [rewrite app_nil_r; reflexivity|].
    split; [|exact Hl].
    destruct (rchain_end _ _ Hchain) as (root & Hlast & Hnone & Hfrom).
    rewrite Hlast. f_equal.
    destruct (Ho root) as [Hroot|[x Hx]]; [|exact Hroot|congruence].
    destruct Hfrom as [Hhead|Hpred]; [left|right; exact Hpred].
    simpl in Hhead. injection Hhead as <-. exact Hin.
  - destruct (expand_shape current st Hin Ho Hl) as [Ho' Hl'].
    exact (IH _ r Ho' Hl' H).
Qed.
End PlannerShape.



(** ** Order on table entries *)

Lemma js_lt_irrefl (a : option num) : js_lt a a = false.
Proof.
  destruct a as [[q|]|]; simpl; try reflexivity. apply Qltb_ge. lra.
Qed.

Lemma js_lt_asym (a b : option num) : js_lt a b = true -> js_lt b a = false.
Proof.
  destruct a as [[p|]|], b as [[q|]|]; simpl; try discriminate; try reflexivity.
  rewrite Qltb_lt, Qltb_ge. lra.
Qed.

(* On defined entries, "not less" is transitive. *)
Lemma js_ge_trans (a b c : num) :
  js_lt (Some b) (Some a) = false -> js_lt (Some c) (Some b) = false ->
  js_lt (Some c) (Some a) = false.
Proof.
  destruct a as [p|], b as [q|], c as [r|]; simpl; try discriminate; try reflexivity.
  rewrite !Qltb_ge. lra.
Qed.

(* The reduce returns a member that no member is less than. *)
Lemma lowest_min (f : gmap string num) (rest : list string) :
  forall a,
    (forall x, x ∈ a :: rest -> is_Some (f !! x)) ->
    forall x, x ∈ a :: rest -> js_lt (f !! x) (f !! lowest f a rest) = false.
Proof.
  unfold lowest. induction rest as [|b rest IH]; intros a Hdef x Hx; simpl.
  - apply list_elem_of_singleton in Hx as ->. apply js_lt_irrefl.
  - assert (Hda : is_Some (f !! a)) by (apply Hdef, list_elem_of_here).
    assert (Hdb : is_Some (f !! b))
      by (apply Hdef, list_elem_of_further, list_elem_of_here).
    destruct (js_lt (f !! a) (f !! b)) eqn:E.
    + assert (Hsub : forall y, y ∈ a :: rest -> is_Some (f !! y)).
      { intros y Hy. apply Hdef. apply elem_of_cons in Hy as [->|Hy].
        - apply list_elem_of_here.
        - do 2 apply list_elem_of_further. exact Hy. }
      apply elem_of_cons in Hx as [->|Hx].
      * apply IH; [exact Hsub | apply list_elem_of_here].
      * apply elem_of_cons in Hx as [->|Hx].
        -- pose proof (IH a Hsub a (list_elem_of_here _ _)) as Ha.
           destruct Hda as [va Hva], Hdb as [vb Hvb].
           assert (Hr : is_Some (f !! fold_left
                      (fun a0 b0 => if js_lt (f !! a0) (f !! b0) then a0 else b0) rest a)).
           { apply Hsub. apply (lowest_elem f rest a). }
           destruct Hr as [vr Hvr]. rewrite Hva, Hvb, Hvr in *.
           apply (js_ge_trans vr va vb); [exact Ha | apply js_lt_asym, E].
        -- apply IH; [exact Hsub | apply list_elem_of_further, Hx].
    + assert (Hsub : forall y, y ∈ b :: rest -> is_Some (f !! y)).
      { intros y Hy. apply Hdef, list_elem_of_further, Hy. }
      apply elem_of_cons in Hx as [->|Hx].
      * pose proof (IH b Hsub b (list_elem_of_here _ _)) as Hb.
        destruct Hda as [va Hva], Hdb as [vb Hvb].
        assert (Hr : is_Some (f !! fold_left
                   (fun a0 b0 => if js_lt (f !! a0) (f !! b0) then a0 else b0) rest b)).
        { apply Hsub. apply (lowest_elem f rest b). }
        destruct Hr as [vr Hvr]. rewrite Hva, Hvb, Hvr in *.
        apply (js_ge_trans vr vb va); [exact Hb | exact E].
      * apply IH; [exact Hsub | exact Hx].
Qed.

(** ** Walks and static weights *)

Lemma baseTime_pos (e : Edge.t) : 0 < Edge.length e -> 0 < baseTime e.
Proof.
  intros H. unfold baseTime.
  pose proof (Math_max_lower 0.1 (Edge.currentSpeed e)) as [Hs _].
  apply Qmult_lt_0_compat; [|lra]. apply Qlt_shift_div_l; lra.
Qed.

Lemma lightPenalty_nonneg (nodes : list Node.t) (n : string) : 0 <= lightPenalty nodes n.
Proof.
  unfold lightPenalty. destruct (find_node nodes n) as [t|]; [|lra].
  destruct (Node.lightStatus t) as [[|]|]; lra.
Qed.

Lemma staticCost_pos (nodes : list Node.t) (e : Edge.t) (n : string) :
  0 < Edge.length e -> 0 < staticCost nodes e n.
Proof.
  intros H. unfold staticCost.
  pose proof (baseTime_pos e H). pose proof (lightPenalty_nonneg nodes n). lra.
Qed.

Lemma connects_neighborOf (e : Edge.t) (m t : string) :
  connects e m t -> neighborOf m e = t.
Proof.
  unfold connects, neighborOf. intros [[Hs Ht]|[Hs Ht]].
  - rewrite Hs, String.eqb_refl. exact Ht.
  - destruct (String.eqb_spec (Edge.source e) m) as [Heq|_]; congruence.
Qed.

Lemma connects_neighbors (currentEdges : list Edge.t) (e : Edge.t) (m t : string) :
  e ∈ currentEdges -> connects e m t -> e ∈ neighbors currentEdges m.
Proof.
  intros Hin Hc. unfold neighbors. rewrite list_elem_of_In, filter_In, <- list_elem_of_In.
  split; [exact Hin|]. apply orb_true_iff.
  destruct Hc as [[Hs _]|[_ Ht]]; [left|right]; apply String.eqb_eq; assumption.
Qed.

Lemma Math_abs_diag (a : Q) : Math_abs (a - a) == 0.
Proof.
  unfold Math_abs. rewrite (Qabs_wd (a - a) 0) by ring. reflexivity.
Qed.

(* h(goal) = 0 *)
Lemma heuristic_goal (nodes : list Node.t) (endId : string) :
  heuristic nodes endId endId == 0.
Proof.
  unfold heuristic. destruct (find_node nodes endId) as [t|]; [|reflexivity].
  rewrite !Math_abs_diag. reflexivity.
Qed.

Section Walks.
Variable nodes : list Node.t.
Variable currentEdges : list Edge.t.
Variable startId : string.
Hypothesis lengths : positiveLengths currentEdges.

Lemma walk_nonneg (a b : string) (c : Q) :
  walk nodes currentEdges startId a b c -> 0 <= c.
Proof.
  induction 1 as [|m b c e Hw IH He Hc Hk]; [lra|].
  pose proof (staticCost_pos nodes e b (lengths e He)). lra.
Qed.

(* A consistent heuristic is admissible. *)
Lemma consistent_admissible (endId : string) :
  consistent nodes currentEdges endId -> admissible nodes currentEdges startId endId.
Proof.
  intros Hcons n c Hw.
  pose proof (heuristic_goal nodes endId) as Hgoal.
  assert (Hgen : forall b c, walk nodes currentEdges startId n b c ->
                   heuristic nodes endId n <= c + heuristic nodes endId b).
  { clear Hw c. induction 1 as [|m b c e Hw IH He Hc Hk]; [lra|].
    pose proof (Hcons e m b He Hc). lra. }
  specialize (Hgen endId c Hw). lra.
Qed.
End Walks.

(** ** The frontier lemma

    Shared by the planner and by the reference algorithm: along a walk from
    the start, either the entry of the end point is at most the cost of the
    walk, or the walk leaves the relaxed region through a frontier node
    whose entry is at most the cost of the walk up to it. *)
Section Frontier.
Variable nodes : list Node.t.
Variable currentEdges : list Edge.t.
Variable startId : string.
Variable frontier : list string.
Variable g : gmap string num.
Hypothesis Hdom : dom_known nodes startId g.
Hypothesis Hstart : start_zero startId g.
Hypothesis Hrelaxed : closed_relaxed nodes currentEdges frontier g.

Lemma frontier_on_walk (t : string) (c : Q) :
  walk nodes currentEdges startId startId t c ->
  (exists qt, g !! t = Some (Fin qt) /\ qt <= c)
  \/ (exists y q c' c'',
        y ∈ frontier /\ g !! y = Some (Fin q) /\ q <= c'
        /\ walk nodes currentEdges startId y t c'' /\ c' + c'' <= c).
Proof.
  induction 1 as [|m t c e Hw IH He Hc Hk].
  - left. destruct Hstart as (q & Hq & Hz). exists q. split; [exact Hq | lra].
  - destruct IH as [(qm & Hqm & Hle)|(y & q & c' & c'' & Hy & Hq & Hle & Hsuf & Hsum)].
    + destruct (decide (m ∈ frontier)) as [Hin|Hout].
      * right. exists m, qm, c, (0 + staticCost nodes e t).
        split; [exact Hin|]. split; [exact Hqm|]. split; [exact Hle|]. split; [|lra].
        apply (walk_step _ _ _ _ m); [constructor | assumption..].
      * left. apply Hdom in Hk as [gt Hgt].
        destruct (Hrelaxed m e Hout He qm t gt Hqm Hc Hgt) as (qt & -> & Hqt).
        exists qt. split; [exact Hgt | lra].
    + right. exists y, q, c', (c'' + staticCost nodes e t).
      split; [exact Hy|]. split; [exact Hq|]. split; [exact Hle|]. split; [|lra].
      apply (walk_step _ _ _ _ m); assumption.
Qed.
End Frontier.

(** ** One improvement of a table entry

    Both algorithms change their table in the same way: the entry of [v]
    is replaced by [tq], the entry of [u] plus the weight of an edge from
    [u] to [v], when that is less. *)

Lemma js_lt_Fin_inv (tq : Q) (o : option num) :
  js_lt (Some (Fin tq)) o = true ->
  o = Some Infinity \/ exists qo, o = Some (Fin qo) /\ tq < qo.
Proof.
  destruct o as [[qo|]|]; simpl; try discriminate; [|auto].
  rewrite Qltb_lt. eauto.
Qed.

Lemma js_ge_Fin_inv (tq : Q) (gt : num) :
  js_lt (Some (Fin tq)) (Some gt) = false -> exists qt, gt = Fin qt /\ qt <= tq.
Proof.
  destruct gt as [qt|]; simpl; [|discriminate].
  rewrite Qltb_ge. eauto.
Qed.

Lemma all_infinity_lookup (nodes : list Node.t) (n : string) :
  all_infinity nodes !! n
  = if decide (n ∈ (Node.id <$> nodes)) then Some Infinity else None.
Proof.
  unfold all_infinity.
  assert (Hgen : forall (tbl : gmap string num),
            fold_left (fun tbl n => <[Node.id n := Infinity]> tbl) nodes tbl !! n
            = if decide (n ∈ (Node.id <$> nodes)) then Some Infinity else tbl !! n).
  { induction nodes as [|a l IH]; intros tbl; simpl.
    - destruct (decide (n ∈ [])) as [H|_]; [|reflexivity]. inversion H.
    - rewrite IH. destruct (decide (n ∈ (Node.id <$> l))) as [Hin|Hout].
      + rewrite decide_True; [reflexivity | apply list_elem_of_further, Hin].
      + destruct (decide (Node.id a = n)) as [<-|Hne].
        * rewrite lookup_insert_eq, decide_True; [reflexivity | apply list_elem_of_here].
        * rewrite lookup_insert_ne by exact Hne. rewrite decide_False; [reflexivity|].
          intros H. apply elem_of_cons in H as [H|H]; [congruence | contradiction]. }
  rewrite Hgen. destruct (decide _); [reflexivity | apply lookup_empty].
Qed.

Section Tables.
Variable nodes : list Node.t.
Variable currentEdges : list Edge.t.
Variable startId : string.
Hypothesis lengths : positiveLengths currentEdges.

Lemma init_dom_known : dom_known nodes startId (<[startId := Fin 0]> (all_infinity nodes)).
Proof.
  intros n. unfold known. destruct (decide (startId = n)) as [<-|Hne].
  - rewrite lookup_insert_eq. split; [auto | eauto].
  - rewrite lookup_insert_ne by exact Hne. rewrite all_infinity_lookup.
    destruct (decide (n ∈ (Node.id <$> nodes))) as [Hin|Hout].
    + split; [auto | eauto].
    + split; [intros [? ?]; discriminate | intros [->|H]; [congruence | contradiction]].
Qed.

Lemma init_start_zero : start_zero startId (<[startId := Fin 0]> (all_infinity nodes)).
Proof. exists 0. rewrite lookup_insert_eq. split; reflexivity. Qed.

Lemma init_finite (n : string) (q : Q) :
  (<[startId := Fin 0]> (all_infinity nodes)) !! n = Some (Fin q) -> n = startId /\ q = 0.
Proof.
  destruct (decide (startId = n)) as [<-|Hne].
  - rewrite lookup_insert_eq. intros [= <-]. auto.
  - rewrite lookup_insert_ne by exact Hne. rewrite all_infinity_lookup.
    destruct (decide _); discriminate.
Qed.

Lemma init_walk_costs : walk_costs nodes currentEdges startId (<[startId := Fin 0]> (all_infinity nodes)).
Proof.
  intros n q H. apply init_finite in H as [-> ->].
  exists 0. split; [constructor | reflexivity].
Qed.

Section Improve.
Variable g : gmap string num.
Variables u v : string.
Variable e : Edge.t.
Variables qu tq : Q.
Hypothesis Hdom : dom_known nodes startId g.
Hypothesis Hstart : start_zero startId g.
Hypothesis Hcosts : walk_costs nodes currentEdges startId g.
Hypothesis Hu : g !! u = Some (Fin qu).
Hypothesis He : e ∈ currentEdges.
Hypothesis Hconn : connects e u v.
Hypothesis Htq : tq == qu + staticCost nodes e v.
Hypothesis Hless : js_lt (Some (Fin tq)) (g !! v) = true.

Lemma improve_known : known nodes startId v.
Proof.
  apply Hdom. destruct (js_lt_Fin_inv _ _ Hless) as [H|(qo & H & _)]; rewrite H; eauto.
Qed.

Lemma improve_source_nonneg : 0 <= qu.
Proof.
  destruct (Hcosts u qu Hu) as (c & Hw & Hc).
  pose proof (walk_nonneg nodes currentEdges startId lengths _ _ _ Hw). lra.
Qed.

Lemma improve_positive : qu < tq.
Proof. pose proof (staticCost_pos nodes e v (lengths e He)). lra. Qed.

Lemma improve_not_start : v <> startId.
Proof.
  intros Heq. destruct Hstart as (q0 & Hq0 & Hz). pose proof Hless as H.
  rewrite Heq, Hq0 in H. simpl in H. apply Qltb_lt in H.
  pose proof improve_source_nonneg. pose proof improve_positive. lra.
Qed.

Lemma improve_not_source : v <> u.
Proof.
  intros Heq. pose proof Hless as H. rewrite Heq, Hu in H. simpl in H.
  apply Qltb_lt in H. pose proof improve_positive. lra.
Qed.

Lemma improve_dom_known : dom_known nodes startId (<[v := Fin tq]> g).
Proof.
  intros n. rewrite lookup_insert_is_Some'. split.
  - intros [<-|H]; [exact improve_known | apply Hdom, H].
  - intros H. right. apply Hdom, H.
Qed.

Lemma improve_start_zero : start_zero startId (<[v := Fin tq]> g).
Proof.
  destruct Hstart as (q0 & Hq0 & Hz). exists q0.
  rewrite lookup_insert_ne by exact improve_not_start. auto.
Qed.

Lemma improve_walk_costs : walk_costs nodes currentEdges startId (<[v := Fin tq]> g).
Proof.
  intros n q. destruct (decide (v = n)) as [<-|Hne].
  - rewrite lookup_insert_eq. intros [= <-].
    destruct (Hcosts u qu Hu) as (c & Hw & Hc).
    exists (c + staticCost nodes e v). split; [|lra].
    apply (walk_step _ _ _ _ u); [assumption.. | exact improve_known].
  - rewrite lookup_insert_ne by exact Hne. apply Hcosts.
Qed.

(* Entries only decrease. *)
Lemma improve_decreases (n : string) (gt : num) :
  g !! n = Some gt ->
  exists gt', <[v := Fin tq]> g !! n = Some gt' /\ js_lt (Some gt) (Some gt') = false.
Proof.
  intros Hn. destruct (decide (v = n)) as [<-|Hne].
  - rewrite lookup_insert_eq. eexists. split; [reflexivity|].
    rewrite Hn in Hless. apply js_lt_asym, Hless.
  - rewrite lookup_insert_ne by exact Hne. exists gt. split; [exact Hn|].
    apply js_lt_irrefl.
Qed.

(* An edge that could not improve anything before cannot after, as long as
   it does not leave the node whose entry was improved. *)
Lemma improve_relaxed_edge (m : string) (e' : Edge.t) :
  m <> v -> relaxed_edge nodes g m e' ->
  relaxed_edge nodes (<[v := Fin tq]> g) m e'.
Proof.
  intros Hm Hrel qm t gt. rewrite lookup_insert_ne by (symmetry; exact Hm).
  intros Hqm Hc. destruct (decide (v = t)) as [<-|Hne].
  - rewrite lookup_insert_eq. intros [= <-]. exists tq. split; [reflexivity|].
    destruct (js_lt_Fin_inv _ _ Hless) as [Hinf|(qo & Hqo & Hlt)].
    + destruct (Hrel qm v Infinity Hqm Hc Hinf) as (qt & Habs & _). discriminate.
    + destruct (Hrel qm v (Fin qo) Hqm Hc Hqo) as (qt & [= <-] & Hle). lra.
  - rewrite lookup_insert_ne by exact Hne. apply Hrel; assumption.
Qed.

(* The edge that gave the improvement cannot improve further. *)
Lemma improve_relaxed_self : relaxed_edge nodes (<[v := Fin tq]> g) u e.
Proof.
  intros qm t gt. rewrite lookup_insert_ne by exact improve_not_source.
  rewrite Hu. intros [= <-] Hc.
  rewrite <- (connects_neighborOf e u t Hc), (connects_neighborOf e u v Hconn).
  rewrite lookup_insert_eq. intros [= <-]. exists tq. split; [reflexivity | lra].
Qed.
End Improve.

(* An edge that gives no improvement is relaxed. *)
Lemma no_improve_relaxed (g : gmap string num) (u v : string) (e : Edge.t) (qu tq : Q) :
  g !! u = Some (Fin qu) -> connects e u v ->
  tq == qu + staticCost nodes e v ->
  js_lt (Some (Fin tq)) (g !! v) = false ->
  relaxed_edge nodes g u e.
Proof.
  intros Hu Hconn Htq Hge qm t gt. rewrite Hu. intros [= <-] Hc Ht.
  rewrite <- (connects_neighborOf e u t Hc), (connects_neighborOf e u v Hconn) in *.
  rewrite Ht in Hge. destruct (js_ge_Fin_inv _ _ Hge) as (qt & -> & Hle).
  exists qt. split; [reflexivity | lra].
Qed.
End Tables.

(** ** The reference algorithm computes shortest paths *)

Lemma set_delete_length (x : string) (s : list string) :
  x ∈ s -> (List.length (set_delete x s) < List.length s)%nat.
Proof.
  unfold set_delete. induction s as [|a s IH]; intros Hin; [inversion Hin|].
  rewrite filter_cons. destruct (decide (a <> x)) as [Hne|Heq].
  - simpl. apply elem_of_cons in Hin as [->|Hin]; [congruence|].
    specialize (IH Hin). lia.
  - simpl. pose proof (length_filter (fun y => y <> x) s). lia.
Qed.

Lemma closest_Some (dist : gmap string num) (unvisited : list string) (u : string) :
  (forall x, x ∈ unvisited -> is_Some (dist !! x)) ->
  closest dist unvisited = Some u ->
  u ∈ unvisited
  /\ exists qu, dist !! u = Some (Fin qu)
       /\ forall x, x ∈ unvisited -> js_lt (dist !! x) (Some (Fin qu)) = false.
Proof.
  intros Hdef. unfold closest. destruct unvisited as [|a rest]; [discriminate|].
  pose proof (lowest_elem dist rest a) as Hin.
  pose proof (lowest_min dist rest a Hdef) as Hmin.
  destruct (dist !! lowest dist a rest) as [[qu|]|] eqn:E; try discriminate.
  intros [= <-]. split; [exact Hin|]. exists qu. split; [exact E|].
  intros x Hx. apply Hmin, Hx.
Qed.

Lemma closest_None (dist : gmap string num) (unvisited : list string) :
  (forall x, x ∈ unvisited -> is_Some (dist !! x)) ->
  closest dist unvisited = None ->
  forall x q, x ∈ unvisited -> dist !! x <> Some (Fin q).
Proof.
  intros Hdef. unfold closest. destruct unvisited as [|a rest].
  - intros _ x q Hx. inversion Hx.
  - pose proof (lowest_elem dist rest a) as Hin.
    pose proof (lowest_min dist rest a Hdef) as Hmin.
    destruct (Hdef _ Hin) as [gu Hgu]. rewrite Hgu in *.
    destruct gu as [qu|]; [discriminate|].
    intros _ x q Hx Hq. specialize (Hmin x Hx). rewrite Hq in Hmin. discriminate.
Qed.

Section DijkstraCorrect.
Variable nodes : list Node.t.
Variable currentEdges : list Edge.t.
Variable startId : string.
Hypothesis lengths : positiveLengths currentEdges.

Lemma dijkstra_relax_round (unvisited : list string) (u : string) (qu : Q)
    (done : list Edge.t) (dist : gmap string num) (e : Edge.t) :
  e ∈ neighbors currentEdges u ->
  dijkstra_round_inv nodes currentEdges startId unvisited u qu done dist ->
  dijkstra_round_inv nodes currentEdges startId unvisited u qu (e :: done)
    (dijkstra_relax nodes u dist e).
Proof.
  intros Hnb (Hdom & Hstart & Hcosts & Hclosed & Hfinal & Hfinite & Hu & Hdone).
  apply neighbors_spec in Hnb as [He Hconn].
  unfold dijkstra_relax. set (v := neighborOf u e) in *.
  rewrite Hu. cbn [js_add num_plus].
  set (tq := qu + staticCost nodes e v).
  assert (Htq : tq == qu + staticCost nodes e v) by reflexivity.
  destruct (js_lt (Some (Fin tq)) (dist !! v)) eqn:Hless.
  - (* the entry of v improves, so v is not a visited vertex *)
    assert (Hv : v ∈ set_delete u unvisited).
    { destruct (decide (v ∈ set_delete u unvisited)) as [H|Hout]; [exact H|].
      exfalso. destruct (js_lt_Fin_inv _ _ Hless) as [Hinf|(qo & Hqo & Hlt)].
      - destruct (Hfinite v Infinity Hout Hinf) as (q & Hq). discriminate.
      - destruct (Hcosts u qu Hu) as (c & Hw & Hc).
        assert (Hk : known nodes startId v) by (apply Hdom; rewrite Hqo; eauto).
        pose proof (walk_step _ _ _ _ u v c e Hw He Hconn Hk) as Hwv.
        pose proof (Hfinal v qo _ Hout Hqo Hwv). lra. }
    apply elem_of_set_delete in Hv as [Hvu Hvin].
    split; [eapply improve_dom_known; eassumption|].
    split; [eapply improve_start_zero; eassumption|].
    split; [eapply improve_walk_costs; eassumption|].
    split; [|split; [|split; [|split]]].
    + intros m e' Hm He'. eapply improve_relaxed_edge; try eassumption.
      * intros ->. contradiction.
      * apply Hclosed; assumption.
    + intros m q c Hm. rewrite lookup_insert_ne.
      * apply Hfinal, Hm.
      * intros ->. apply Hm, elem_of_set_delete. auto.
    + intros m gt Hm. rewrite lookup_insert_ne.
      * apply Hfinite, Hm.
      * intros ->. apply Hm, elem_of_set_delete. auto.
    + rewrite lookup_insert_ne by exact Hvu. exact Hu.
    + intros e' He'. apply elem_of_cons in He' as [->|He'].
      * eapply improve_relaxed_self; eassumption.
      * eapply improve_relaxed_edge; try eassumption; auto.
  - repeat (split; [assumption|]). intros e' He'.
    apply elem_of_cons in He' as [->|He']; [|auto].
    eapply no_improve_relaxed; eassumption.
Qed.

Lemma dijkstra_fold_round (unvisited : list string) (u : string) (qu : Q)
    (es : list Edge.t) :
  forall (done : list Edge.t) (dist : gmap string num),
    (forall e, e ∈ es -> e ∈ neighbors currentEdges u) ->
    dijkstra_round_inv nodes currentEdges startId unvisited u qu done dist ->
    dijkstra_round_inv nodes currentEdges startId unvisited u qu (rev es ++ done)
      (fold_left (dijkstra_relax nodes u) es dist).
Proof.
  induction es as [|e es IH]; intros done dist Hsub Hinv; simpl; [exact Hinv|].
  rewrite <- app_assoc. simpl. apply IH.
  - intros e' He'. apply Hsub, list_elem_of_further, He'.
  - apply dijkstra_relax_round; [apply Hsub, list_elem_of_here | exact Hinv].
Qed.

(* One round keeps the invariant and shortens the list of unvisited
   vertices. *)
Lemma dijkstra_round (dist : gmap string num) (unvisited : list string) (u : string) :
  dijkstra_inv nodes currentEdges startId dist unvisited ->
  closest dist unvisited = Some u ->
  dijkstra_inv nodes currentEdges startId
    (fold_left (dijkstra_relax nodes u) (neighbors currentEdges u) dist)
    (set_delete u unvisited)
  /\ (List.length (set_delete u unvisited) < List.length unvisited)%nat.
Proof.
  intros (Hdom & Hstart & Hcosts & Hclosed & Hfinal & Hfinite & Hknown) Hu.
  apply closest_Some in Hu as (Hin & qu & Hqu & Hmin);
    [|intros x Hx; apply Hdom, Hknown, Hx].
  split; [|apply set_delete_length, Hin].
  (* the entry of u is final *)
  assert (Hufinal : forall c, walk nodes currentEdges startId startId u c -> qu <= c).
  { intros c Hw.
    destruct (frontier_on_walk nodes currentEdges startId unvisited dist
                Hdom Hstart Hclosed u c Hw)
      as [(qt & Hqt & Hle)|(y & q & c' & c'' & Hy & Hq & Hle & Hsuf & Hsum)].
    - rewrite Hqu in Hqt. injection Hqt as <-. exact Hle.
    - specialize (Hmin y Hy). rewrite Hq in Hmin. simpl in Hmin.
      apply Qltb_ge in Hmin.
      pose proof (walk_nonneg nodes currentEdges startId lengths _ _ _ Hsuf). lra. }
  assert (Hsplit : forall m, m ∉ set_delete u unvisited -> m = u \/ m ∉ unvisited).
  { intros m Hm. destruct (decide (m = u)); [auto|]. right. intros Hin'.
    apply Hm, elem_of_set_delete. auto. }
  assert (Hinit : dijkstra_round_inv nodes currentEdges startId unvisited u qu [] dist).
  { repeat (split; [assumption|]). split; [|split; [|split]].
    - intros m q c Hm Hq Hw. destruct (Hsplit m Hm) as [->|Hvis].
      + rewrite Hqu in Hq. injection Hq as <-. apply Hufinal, Hw.
      + exact (Hfinal m q c Hvis Hq Hw).
    - intros m gt Hm Hgt. destruct (Hsplit m Hm) as [->|Hvis].
      + rewrite Hqu in Hgt. injection Hgt as <-. eauto.
      + exact (Hfinite m gt Hvis Hgt).
    - exact Hqu.
    - intros e He. inversion He. }
  pose proof (dijkstra_fold_round unvisited u qu (neighbors currentEdges u) [] dist
                (fun e H => H) Hinit)
    as (Hdom' & Hstart' & Hcosts' & Hclosed' & Hfinal' & Hfinite' & Hu' & Hdone').
  repeat (split; [assumption|]). split; [|split; [|split]]; try assumption.
  - intros m e Hm He. destruct (Hsplit m Hm) as [->|Hvis].
    + intros qm t gt Hqm Hc. apply Hdone'; [|exact Hqm|exact Hc].
      rewrite app_nil_r, rev_reverse, elem_of_reverse.
      eapply connects_neighbors; eassumption.
    + apply Hclosed'; assumption.
  - intros x Hx. apply elem_of_set_delete in Hx as [_ Hx]. apply Hknown, Hx.
Qed.
Lemma dijkstra_loop_inv (rounds : nat) :
  forall (dist : gmap string num) (unvisited : list string),
    dijkstra_inv nodes currentEdges startId dist unvisited ->
    (List.length unvisited <= rounds)%nat ->
    exists unvisited',
      dijkstra_inv nodes currentEdges startId
        (dijkstra_loop rounds nodes currentEdges dist unvisited) unvisited'
      /\ forall x q, x ∈ unvisited' ->
            dijkstra_loop rounds nodes currentEdges dist unvisited !! x <> Some (Fin q).
Proof.
  induction rounds as [|k IH]; intros dist unvisited Hinv Hlen; simpl.
  - exists unvisited. split; [exact Hinv|]. intros x q Hx.
    destruct unvisited; [inversion Hx | simpl in Hlen; lia].
  - destruct (closest dist unvisited) as [u|] eqn:Hu.
    + destruct (dijkstra_round dist unvisited u Hinv Hu) as [Hinv' Hlt].
      apply IH; [exact Hinv' | lia].
    + exists unvisited. split; [exact Hinv|]. intros x q Hx.
      destruct Hinv as (Hdom & _ & _ & _ & _ & _ & Hknown).
      apply (closest_None dist unvisited); [|exact Hu|exact Hx].
      intros y Hy. apply Hdom, Hknown, Hy.
Qed.

Lemma dijkstra_init_inv :
  dijkstra_inv nodes currentEdges startId
    (<[startId := Fin 0]> (all_infinity nodes)) (startId :: (Node.id <$> nodes)).
Proof.
  pose proof (init_dom_known nodes startId) as Hdom.
  assert (Hnone : forall m, m ∉ startId :: (Node.id <$> nodes) ->
            <[startId := Fin 0]> (all_infinity nodes) !! m = None).
  { intros m Hm. apply eq_None_not_Some. intros H. apply Hdom in H. apply Hm.
    destruct H as [->|H]; [apply list_elem_of_here | apply list_elem_of_further, H]. }
  split; [exact Hdom|]. split; [apply init_start_zero|].
  split; [apply init_walk_costs|]. split; [|split; [|split]].
  - intros m e Hm _ qm t gt Hqm. rewrite (Hnone m Hm) in Hqm. discriminate.
  - intros m q c Hm Hq. rewrite (Hnone m Hm) in Hq. discriminate.
  - intros m gt Hm Hgt. rewrite (Hnone m Hm) in Hgt. discriminate.
  - intros x Hx. apply elem_of_cons in Hx as [->|Hx]; [left|right]; auto.
Qed.

(* The reference algorithm returns the cost of a cheapest walk, and it
   returns one whenever there is a walk. *)
Lemma dijkstra_shortest (endId : string) :
  (forall d, dijkstra startId endId currentEdges nodes = Some d ->
             shortest nodes currentEdges startId startId endId d)
  /\ (forall c, walk nodes currentEdges startId startId endId c ->
        exists d, dijkstra startId endId currentEdges nodes = Some d).
Proof.
  unfold dijkstra.
  destruct (dijkstra_loop_inv (List.length (startId :: (Node.id <$> nodes)))
              _ _ dijkstra_init_inv (le_n _))
    as (unvisited' & (Hdom & Hstart & Hcosts & Hclosed & Hfinal & Hfinite & Hknown) & Hend).
  set (dist := dijkstra_loop _ _ _ _ _) in *.
  assert (Hlower : forall q c, dist !! endId = Some (Fin q) ->
            walk nodes currentEdges startId startId endId c -> q <= c).
  { intros q c Hq Hw. apply (Hfinal endId q c); [|exact Hq|exact Hw].
    intros Hin. exact (Hend endId q Hin Hq). }
  split.
  - intros d Hd. destruct (dist !! endId) as [[q|]|] eqn:E; try discriminate.
    injection Hd as <-. split.
    + destruct (Hcosts endId q E) as (c & Hw & Hc). eauto.
    + intros c Hw. exact (Hlower q c eq_refl Hw).
  - intros c Hw.
    destruct (frontier_on_walk nodes currentEdges startId unvisited' dist
                Hdom Hstart Hclosed endId c Hw)
      as [(qt & Hqt & _)|(y & q & _ & _ & Hy & Hq & _)].
    + rewrite Hqt. eauto.
    + exfalso. exact (Hend y q Hy Hq).
Qed.
End DijkstraCorrect.

(** ** The planner on static weights *)

Section PlannerOptimal.
Variable nodes : list Node.t.
Variable currentEdges : list Edge.t.
Variables startId endId : string.
Hypothesis turns : noTurnPenalty nodes currentEdges.
Hypothesis levels : noRoadLevelPenalty currentEdges.
Hypothesis lengths : positiveLengths currentEdges.

Lemma Direction_eqb_refl (d : Direction) : Direction_eqb d d = true.
Proof. destruct d; reflexivity. Qed.

(* Without turn and road-level penalties the cost of a step is the static
   weight of its edge. *)
Lemma stepCost_static (st : AStar) (current : string) (e : Edge.t) :
  links_ok currentEdges st -> e ∈ neighbors currentEdges current ->
  stepCost nodes (cameFrom st) current e
  == staticCost nodes e (neighborOf current e).
Proof.
  intros Hlinks Hnb. apply neighbors_spec in Hnb as [He Hconn].
  unfold stepCost, staticCost.
  assert (Hturn : turnPenalty nodes (cameFrom st) current (neighborOf current e) = 0).
  { unfold turnPenalty. destruct (cameFrom st !! current) as [prevId|] eqn:E; [|reflexivity].
    destruct (truthy prevId); [|reflexivity].
    destruct (Hlinks current prevId E) as (e1 & He1 & Hc1).
    rewrite (turns e1 e prevId current (neighborOf current e) He1 He Hc1 Hconn).
    rewrite Direction_eqb_refl. reflexivity. }
  assert (Hfactor : roadLevelFactor e = 1.0).
  { unfold roadLevelFactor. specialize (levels e He).
    apply Qle_bool_iff in levels. rewrite levels. reflexivity. }
  rewrite Hturn, Hfactor. ring.
Qed.

Lemma astar_relax_round (current : string) (qc : Q) (done : list Edge.t)
    (st : AStar) (e : Edge.t) :
  e ∈ neighbors currentEdges current ->
  astar_round_inv nodes currentEdges startId endId current qc done st ->
  astar_round_inv nodes currentEdges startId endId current qc (e :: done)
    (relax nodes endId current st e).
Proof.
  intros Hnb (Horigin & Hlinks & Hhas & Hdom & Hstart & Hcosts & Hclosed & Hcur
              & Hdone & Hscores & Hgoal & Hpred).
  destruct (relax_shape nodes currentEdges startId endId current st e
              Hnb Horigin Hlinks Hhas) as (Horigin' & Hlinks' & Hhas').
  pose proof (stepCost_static st current e Hlinks Hnb) as Hstatic.
  pose proof Hnb as Hnb'. apply neighbors_spec in Hnb' as [He Hconn].
  destruct (relax_cases nodes endId current st e) as [[Heq Hge]|(t & Ht & Hless & Heq)];
    rewrite Heq in *; clear Heq.
  - (* no improvement *)
    rewrite Hcur in Hge. cbn [js_add num_plus] in Hge.
    repeat (split; [assumption|]). split; [|split; [|split]]; try assumption.
    intros e' He'. apply elem_of_cons in He' as [->|He']; [|auto].
    eapply no_improve_relaxed; try eassumption. rewrite Hstatic. reflexivity.
  - (* the entry of the neighbour improves *)
    rewrite Hcur in Ht. cbn [js_add num_plus] in Ht. injection Ht as <-.
    set (v := neighborOf current e) in *.
    set (tq := qc + stepCost nodes (cameFrom st) current e) in *.
    assert (Htq : tq == qc + staticCost nodes e v) by (unfold tq; rewrite Hstatic; reflexivity).
    assert (Hvc : v <> current) by (eapply improve_not_source; eassumption).
    unfold astar_round_inv, open_scores, goal_open, pred_cost.
    cbn [openSet cameFrom gScore fScore num_plus] in *.
    split; [exact Horigin'|]. split; [exact Hlinks'|]. split; [exact Hhas'|].
    split; [eapply improve_dom_known; eassumption|].
    split; [eapply improve_start_zero; eassumption|].
    split; [eapply improve_walk_costs; eassumption|].
    split; [|split; [|split; [|split; [|split]]]].
    + intros m e' Hm He'.
      assert (Hmv : m <> v).
      { intros ->. apply Hm, list_elem_of_further, elem_of_set_add. auto. }
      eapply improve_relaxed_edge; try eassumption.
      apply Hclosed; [|exact He']. intros Hin. apply Hm.
      apply elem_of_cons in Hin as [->|Hin]; [apply list_elem_of_here|].
      apply list_elem_of_further, elem_of_set_add. auto.
    + rewrite lookup_insert_ne by exact Hvc. exact Hcur.
    + intros e' He'. apply elem_of_cons in He' as [->|He'].
      * eapply improve_relaxed_self; eassumption.
      * eapply improve_relaxed_edge; try eassumption; auto.
    + intros n Hn. destruct (decide (v = n)) as [<-|Hne].
      * rewrite !lookup_insert_eq. eexists _, _. split; [reflexivity|].
        split; [reflexivity|]. reflexivity.
      * rewrite !lookup_insert_ne by exact Hne. apply Hscores.
        apply elem_of_set_add in Hn as [->|Hn]; [congruence | exact Hn].
    + intros q. destruct (decide (v = endId)) as [<-|Hne].
      * intros _. apply elem_of_set_add. auto.
      * rewrite lookup_insert_ne by exact Hne. intros Hq.
        apply elem_of_set_add. right. apply (Hgoal q Hq).
    + intros n c. destruct (decide (v = n)) as [<-|Hne].
      * rewrite lookup_insert_eq. intros [= <-].
        exists e, qc, tq. split; [exact He|]. split; [exact Hconn|].
        rewrite lookup_insert_ne by exact Hvc. rewrite lookup_insert_eq.
        split; [exact Hcur|]. split; [reflexivity | lra].
      * rewrite lookup_insert_ne by exact Hne. intros Hn.
        destruct (Hpred n c Hn) as (e' & qc' & qn' & He' & Hc' & Hgc & Hgn & Hle).
        rewrite (lookup_insert_ne _ v n) by exact Hne.
        destruct (decide (v = c)) as [<-|Hnc].
        -- rewrite lookup_insert_eq. exists e', tq, qn'.
           repeat (split; [assumption || reflexivity|]).
           rewrite Hgc in Hless. simpl in Hless. apply Qltb_lt in Hless. lra.
        -- rewrite lookup_insert_ne by exact Hnc. exists e', qc', qn'. auto.
Qed.
Lemma astar_fold_round (current : string) (qc : Q) (es : list Edge.t) :
  forall (done : list Edge.t) (st : AStar),
    (forall e, e ∈ es -> e ∈ neighbors currentEdges current) ->
    astar_round_inv nodes currentEdges startId endId current qc done st ->
    astar_round_inv nodes currentEdges startId endId current qc (rev es ++ done)
      (fold_left (relax nodes endId current) es st).
Proof.
  induction es as [|e es IH]; intros done st Hsub Hinv; simpl; [exact Hinv|].
  rewrite <- app_assoc. simpl. apply IH.
  - intros e' He'. apply Hsub, list_elem_of_further, He'.
  - apply astar_relax_round; [apply Hsub, list_elem_of_here | exact Hinv].
Qed.

(* The state in which the for loop starts. *)
Lemma astar_round_start (current : string) (st : AStar) :
  current ∈ openSet st -> current <> endId ->
  astar_inv nodes currentEdges startId endId st ->
  exists qc,
    astar_round_inv nodes currentEdges startId endId current qc []
      {| openSet := set_delete current (openSet st); cameFrom := cameFrom st;
         gScore := gScore st; fScore := fScore st |}.
Proof.
  intros Hin Hne (Horigin & Hlinks & Hdom & Hstart & Hcosts & Hclosed & Hscores
                  & Hgoal & Hpred).
  destruct (Hscores current Hin) as (qc & fq & Hqc & _ & _). exists qc.
  unfold astar_round_inv, open_scores, goal_open, pred_cost, origin_ok, has_origin.
  cbn [openSet cameFrom gScore fScore].
  split.
  { intros n [Hn|Hn]; apply Horigin; [left|right; exact Hn].
    apply elem_of_set_delete in Hn as [_ Hn]. exact Hn. }
  split; [exact Hlinks|]. split; [apply Horigin; auto|].
  repeat (split; [assumption|]). split; [|split; [exact Hqc|split; [|split; [|split]]]].
  - intros m e Hm He. apply Hclosed; [|exact He]. intros Hin'. apply Hm.
    destruct (decide (m = current)) as [->|Hmc]; [apply list_elem_of_here|].
    apply list_elem_of_further, elem_of_set_delete. auto.
  - intros e He. inversion He.
  - intros n Hn. apply elem_of_set_delete in Hn as [_ Hn]. apply Hscores, Hn.
  - intros q Hq. apply elem_of_set_delete. split; [congruence | exact (Hgoal q Hq)].
  - exact Hpred.
Qed.

(* The state in which the for loop ends. *)
Lemma astar_round_end (current : string) (qc : Q) (st : AStar) :
  astar_round_inv nodes currentEdges startId endId current qc
    (rev (neighbors currentEdges current) ++ []) st ->
  astar_inv nodes currentEdges startId endId st.
Proof.
  intros (Horigin' & Hlinks' & _ & Hdom' & Hstart' & Hcosts' & Hclosed' & Hcur'
          & Hdone' & Hscores' & Hgoal' & Hpred').
  repeat (split; [assumption|]). split; [|split; [|split]]; try assumption.
  intros m e Hm He. destruct (decide (m = current)) as [->|Hmc].
  - intros qm t gt Hqm Hc. apply Hdone'; [|exact Hqm|exact Hc].
    rewrite app_nil_r, rev_reverse, elem_of_reverse.
    eapply connects_neighbors; eassumption.
  - apply Hclosed'; [|exact He]. intros Hin'.
    apply elem_of_cons in Hin' as [->|Hin']; [congruence | contradiction].
Qed.

(* One turn of the while loop that does not select the goal. *)
Lemma astar_expand (current : string) (st : AStar) :
  current ∈ openSet st -> current <> endId ->
  astar_inv nodes currentEdges startId endId st ->
  astar_inv nodes currentEdges startId endId
    (expand nodes currentEdges endId current st).
Proof.
  intros Hin Hne Hinv.
  destruct (astar_round_start current st Hin Hne Hinv) as (qc & Hinit).
  apply (astar_round_end current qc). unfold expand.
  apply astar_fold_round; [auto | exact Hinit].
Qed.

Lemma astar_init_inv :
  astar_inv nodes currentEdges startId endId (astar_init nodes startId endId).
Proof.
  destruct (astar_init_shape nodes currentEdges startId endId) as [Horigin Hlinks].
  split; [exact Horigin|]. split; [exact Hlinks|].
  unfold open_scores, goal_open, pred_cost, astar_init.
  cbn [openSet cameFrom gScore fScore].
  split; [apply init_dom_known|]. split; [apply init_start_zero|].
  split; [apply init_walk_costs|]. split; [|split; [|split]].
  - intros m e Hm _ qm t gt Hqm. apply init_finite in Hqm as [-> _].
    exfalso. apply Hm, list_elem_of_here.
  - intros n Hn. apply list_elem_of_singleton in Hn as ->.
    rewrite !lookup_insert_eq. eexists _, _. split; [reflexivity|].
    split; [reflexivity|]. ring.
  - intros q Hq. apply init_finite in Hq as [-> _]. apply list_elem_of_here.
  - intros n c Hn. rewrite lookup_empty in Hn. discriminate.
Qed.

(* When the goal is selected, its g-score is below the cost of every walk
   from the start to it: this is where the heuristic has to be admissible. *)
Lemma astar_goal_optimal (st : AStar) (a : string) (rest : list string) (t c : Q) :
  admissible nodes currentEdges startId endId ->
  astar_inv nodes currentEdges startId endId st ->
  openSet st = a :: rest ->
  lowest (fScore st) a rest = endId ->
  gScore st !! endId = Some (Fin t) ->
  walk nodes currentEdges startId startId endId c ->
  t <= c.
Proof.
  intros Hadm (Horigin & Hlinks & Hdom & Hstart & Hcosts & Hclosed & Hscores
               & Hgoal & Hpred) Hopen Hlow Ht Hw.
  destruct (frontier_on_walk nodes currentEdges startId (openSet st) (gScore st)
              Hdom Hstart Hclosed endId c Hw)
    as [(qt & Hqt & Hle)|(y & q & c' & c'' & Hy & Hq & Hle & Hsuf & Hsum)].
  - rewrite Ht in Hqt. injection Hqt as <-. exact Hle.
  - assert (Hdef : forall x, x ∈ a :: rest -> is_Some (fScore st !! x)).
    { intros x Hx. rewrite <- Hopen in Hx.
      destruct (Hscores x Hx) as (? & fq & _ & Hfq & _). rewrite Hfq. eauto. }
    rewrite Hopen in Hy.
    pose proof (lowest_min (fScore st) rest a Hdef y Hy) as Hmin.
    rewrite Hlow in Hmin. rewrite <- Hopen in Hy.
    destruct (Hscores y Hy) as (qy & fy & Hqy & Hfy & Hfyeq).
    assert (Hgin : endId ∈ openSet st) by exact (Hgoal t Ht).
    destruct (Hscores endId Hgin) as (qg & fg & Hqg & Hfg & Hfgeq).
    rewrite Hfy, Hfg in Hmin. simpl in Hmin. apply Qltb_ge in Hmin.
    rewrite Hq in Hqy. injection Hqy as <-. rewrite Ht in Hqg. injection Hqg as <-.
    pose proof (heuristic_goal nodes endId) as Hh0.
    pose proof (Hadm y c'' Hsuf) as Hhy. lra.
Qed.

(* The walk of the reconstruction is a walk of the graph, and it costs no
   more than the g-score of the node it starts from. *)
Lemma rchain_route_cost (st : AStar) (l : list string) :
  astar_inv nodes currentEdges startId endId st ->
  rchain (cameFrom st) l ->
  forall n l', l = n :: l' -> last l = Some startId ->
    exists c, route_cost nodes currentEdges l c
              /\ walk nodes currentEdges startId startId n c
              /\ forall qn, gScore st !! n = Some (Fin qn) -> c <= qn.
Proof.
  intros (Horigin & Hlinks & Hdom & Hstart & Hcosts & Hclosed & Hscores
          & Hgoal & Hpred).
  induction 1 as [r Hr | b a l Hb Hl IH]; intros n l' Heq Hlast.
  - injection Heq as <- <-. simpl in Hlast. injection Hlast as ->.
    exists 0. split; [constructor|]. split; [constructor|].
    intros qn Hqn. destruct (Hcosts _ _ Hqn) as (c & Hw & Hc).
    pose proof (walk_nonneg nodes currentEdges startId lengths _ _ _ Hw). lra.
  - injection Heq as <- <-.
    destruct (IH a l eq_refl Hlast) as (c & Hroute & Hwalk & Hle).
    destruct (Hpred b a Hb) as (e & qa & qb & He & Hconn & Hqa & Hqb & Hcost).
    exists (c + staticCost nodes e b). split; [|split].
    + constructor; assumption.
    + apply (walk_step _ _ _ _ a); try assumption. apply Hdom. rewrite Hqb. eauto.
    + intros qn Hqn. rewrite Hqb in Hqn. injection Hqn as <-.
      specialize (Hle qa Hqa). lra.
Qed.

(* What the loop returns: a path that is a walk of the graph from the start
   to the goal, at a cost equal to the time reported, which no walk from
   the start to the goal undercuts; and no walk at all when it returns
   null. *)
Lemma search_optimal (fuel : nat) :
  admissible nodes currentEdges startId endId ->
  forall st : AStar,
    astar_inv nodes currentEdges startId endId st ->
    match search fuel nodes currentEdges endId st with
    | Some (Some r) =>
        (exists c, pathCost nodes currentEdges (Route.path r) c
                   /\ walk nodes currentEdges startId startId endId c
                   /\ c == Route.time r)
        /\ forall c, walk nodes currentEdges startId startId endId c -> Route.time r <= c
    | Some None => forall c, ~ walk nodes currentEdges startId startId endId c
    | None => True
    end.
Proof.
  intros Hadm. induction fuel as [|k IH]; intros st Hinv; simpl; [exact I|].
  destruct (openSet st) as [|a rest] eqn:Hopen.
  - (* the open set is empty: the goal cannot be reached *)
    intros c Hw.
    destruct Hinv as (Horigin & Hlinks & Hdom & Hstart & Hcosts & Hclosed & Hscores
                      & Hgoal & Hpred).
    destruct (frontier_on_walk nodes currentEdges startId (openSet st) (gScore st)
                Hdom Hstart Hclosed endId c Hw)
      as [(qt & Hqt & _)|(y & _ & _ & _ & Hy & _)].
    + specialize (Hgoal qt Hqt). rewrite Hopen in Hgoal. inversion Hgoal.
    + rewrite Hopen in Hy. inversion Hy.
  - pose proof (lowest_elem (fScore st) rest a) as Hin. rewrite <- Hopen in Hin.
    destruct (String.eqb_spec (lowest (fScore st) a rest) endId) as [Hlow|Hlow].
    + destruct (reconstruct k (cameFrom st) (lowest (fScore st) a rest)
                  [lowest (fScore st) a rest]) as [totalPath|] eqn:Erec; [|exact I].
      destruct (gScore st !! endId) as [[t|]|] eqn:Ht; try exact I.
      cbn [Route.path Route.time].
      assert (Hopt : forall c, walk nodes currentEdges startId startId endId c -> t <= c).
      { intros c Hw. eapply astar_goal_optimal; eassumption. }
      split; [|exact Hopt].
      rewrite Hlow in Erec.
      apply reconstruct_rchain in Erec as (l & Hchain & ->). rewrite app_nil_r.
      assert (Hlast : last (endId :: l) = Some startId).
      { destruct Hinv as (Horigin & _).
        destruct (rchain_end _ _ Hchain) as (root & Hlast & Hnone & Hfrom).
        rewrite Hlast. f_equal.
        destruct (Horigin root) as [Hroot|[x Hx]]; [|exact Hroot|congruence].
        destruct Hfrom as [Hhead|Hp]; [left|right; exact Hp].
        simpl in Hhead. injection Hhead as <-. rewrite <- Hlow. exact Hin. }
      destruct (rchain_route_cost st (endId :: l) Hinv Hchain endId l eq_refl Hlast)
        as (c & Hroute & Hwalk & Hle).
      exists c. unfold pathCost. rewrite rev_involutive.
      split; [exact Hroute|]. split; [exact Hwalk|].
      specialize (Hle t Ht). specialize (Hopt c Hwalk). lra.
    + apply IH. apply astar_expand; assumption.
Qed.
End PlannerOptimal.

(** ** Termination of the planner: finitely many values for a g-score *)

Lemma Qsum_Permutation (l1 l2 : list Q) : l1 ≡ₚ l2 -> Qsum l1 == Qsum l2.
Proof.
  induction 1 as [|x l1 l2 _ IH|x y l|l1 l2 l3 _ IH1 _ IH2]; simpl.
  - reflexivity.
  - rewrite IH. reflexivity.
  - ring.
  - rewrite IH1. exact IH2.
Qed.

Lemma subset_sums_sublist (l1 l2 : list Q) :
  l1 `sublist_of` l2 -> Qsum l1 ∈ subset_sums l2.
Proof.
  induction 1 as [|x l1 l2 _ IH|x l1 l2 _ IH]; simpl.
  - apply list_elem_of_here.
  - apply elem_of_app. right. apply (list_elem_of_fmap_2 (Qplus x)), IH.
  - apply elem_of_app. left. exact IH.
Qed.

Lemma subset_sums_submseteq (l1 l2 : list Q) :
  l1 ⊆+ l2 -> exists v, v ∈ subset_sums l2 /\ v == Qsum l1.
Proof.
  intros H. apply submseteq_sublist_r in H as (l & Hperm & Hsub).
  exists (Qsum l). split; [apply subset_sums_sublist, Hsub|].
  symmetry. apply Qsum_Permutation, Hperm.
Qed.

Lemma countBelow_mono (p q : Q) (l : list Q) :
  p <= q -> (countBelow p l <= countBelow q l)%nat.
Proof.
  intros Hle. unfold countBelow. induction l as [|v l IH]; simpl; [lia|].
  destruct (Qltb v p) eqn:Ep.
  - apply Qltb_lt in Ep. assert (Eq : Qltb v q = true) by (apply Qltb_lt; lra).
    rewrite Eq. simpl. lia.
  - destruct (Qltb v q); simpl; lia.
Qed.

(* A value of the list that lies between the two bounds makes the count
   strictly smaller. *)
Lemma countBelow_strict (p q v0 : Q) (l : list Q) :
  v0 ∈ l -> p <= v0 -> v0 < q -> (countBelow p l < countBelow q l)%nat.
Proof.
  intros Hin Hlo Hhi. assert (Hle : p <= q) by lra.
  induction l as [|v l IH]; [inversion Hin|].
  pose proof (countBelow_mono p q l Hle) as Hmono.
  unfold countBelow in *. simpl.
  apply elem_of_cons in Hin as [<-|Hin].
  - assert (Ep : Qltb v0 p = false) by (apply Qltb_ge; exact Hlo).
    assert (Eq : Qltb v0 q = true) by (apply Qltb_lt; exact Hhi).
    rewrite Ep, Eq. simpl. lia.
  - specialize (IH Hin). destruct (Qltb v p) eqn:Ep.
    + apply Qltb_lt in Ep. assert (Eq : Qltb v q = true) by (apply Qltb_lt; lra).
      rewrite Eq. simpl. lia.
    + destruct (Qltb v q); simpl; lia.
Qed.

Lemma countBelow_length (q : Q) (l : list Q) : (countBelow q l <= List.length l)%nat.
Proof. unfold countBelow. apply List.filter_length_le. Qed.

Lemma potential_insert_other (sums : list Q) (g : gmap string num) (k : string)
    (new : num) (keys : list string) :
  k ∉ keys -> potential sums (<[k := new]> g) keys = potential sums g keys.
Proof.
  induction keys as [|a keys IH]; intros Hk; simpl; [reflexivity|].
  apply not_elem_of_cons in Hk as [Hne Hk].
  rewrite lookup_insert_ne by exact Hne. rewrite IH by exact Hk. reflexivity.
Qed.

(* Lowering the rank of one key lowers the potential. *)
Lemma potential_insert (sums : list Q) (g : gmap string num) (k : string)
    (new : num) (keys : list string) :
  k ∈ keys ->
  (rank sums (Some new) < rank sums (g !! k))%nat ->
  (potential sums (<[k := new]> g) keys < potential sums g keys)%nat.
Proof.
  intros Hin Hrank.
  assert (Hle : forall keys', (potential sums (<[k := new]> g) keys'
                               <= potential sums g keys')%nat).
  { induction keys' as [|a keys' IH]; simpl; [lia|].
    destruct (decide (k = a)) as [<-|Hne].
    - rewrite lookup_insert_eq. lia.
    - rewrite lookup_insert_ne by exact Hne. lia. }
  induction keys as [|a keys IH]; [inversion Hin|]. simpl.
  destruct (decide (k = a)) as [<-|Hne].
  - rewrite lookup_insert_eq. specialize (Hle keys). lia.
  - rewrite lookup_insert_ne by exact Hne.
    apply elem_of_cons in Hin as [->|Hin]; [congruence|].
    specialize (IH Hin). lia.
Qed.

Lemma Qsum_snd_cons (m : string) (v : Q) (T : list (string * Q)) :
  Qsum (((m, v) :: T).*2) = v + Qsum (T.*2).
Proof. reflexivity. Qed.

Section Trails.
Variable nodes : list Node.t.
Variable currentEdges : list Edge.t.
Hypothesis lengths : positiveLengths currentEdges.

Lemma stepEntries_pos (m : string) (v : Q) :
  (m, v) ∈ stepEntries nodes currentEdges -> 0 < v.
Proof.
  unfold stepEntries. rewrite list_elem_of_In, in_flat_map.
  intros (e & He & Hin). apply list_elem_of_In in He.
  pose proof (lengths e He) as Hlen.
  destruct Hin as [[= <- <-]|[[= <- <-]|[]]]; apply staticCost_pos, Hlen.
Qed.

Lemma stepEntries_edge (e : Edge.t) (u v : string) :
  e ∈ currentEdges -> connects e u v ->
  (v, staticCost nodes e v) ∈ stepEntries nodes currentEdges.
Proof.
  intros He Hc. unfold stepEntries. rewrite list_elem_of_In, in_flat_map.
  exists e. split; [apply list_elem_of_In, He|].
  destruct Hc as [[_ <-]|[<- _]]; simpl; auto.
Qed.

Lemma trail_sum_nonneg (g : gmap string num) (T : list (string * Q)) :
  trail nodes currentEdges g T -> 0 <= Qsum (T.*2).
Proof.
  induction 1 as [|m v T q _ IH Hin _ _ _]; [simpl; lra|].
  rewrite Qsum_snd_cons. pose proof (stepEntries_pos m v Hin). lra.
Qed.

Lemma trail_NoDup (g : gmap string num) (T : list (string * Q)) :
  trail nodes currentEdges g T -> NoDup (T.*1).
Proof.
  induction 1 as [|m v T q _ IH _ Hm _ _]; [constructor|].
  rewrite fmap_cons. constructor; assumption.
Qed.

Lemma trail_entries (g : gmap string num) (T : list (string * Q)) :
  trail nodes currentEdges g T ->
  forall x, x ∈ T -> x ∈ stepEntries nodes currentEdges.
Proof.
  induction 1 as [|m v T q _ IH Hin _ _ _]; intros x Hx; [inversion Hx|].
  apply elem_of_cons in Hx as [->|Hx]; [exact Hin | apply IH, Hx].
Qed.

(* A node entered on the trail has a g-score at most the sum of the trail. *)
Lemma trail_member (g : gmap string num) (T : list (string * Q)) (m : string) :
  trail nodes currentEdges g T -> m ∈ T.*1 ->
  exists q, g !! m = Some (Fin q) /\ q <= Qsum (T.*2).
Proof.
  induction 1 as [|m' v T q HT IH Hin _ Hq Hle]; intros Hm; [inversion Hm|].
  rewrite Qsum_snd_cons. rewrite fmap_cons in Hm.
  apply elem_of_cons in Hm as [->|Hm].
  - exists q. auto.
  - destruct (IH Hm) as (q' & Hq' & Hle'). exists q'. split; [exact Hq'|].
    pose proof (stepEntries_pos m' v Hin). lra.
Qed.

(* A trail stays one when g-scores decrease. *)
Lemma trail_mono (g g' : gmap string num) (T : list (string * Q)) :
  (forall n q, g !! n = Some (Fin q) -> exists q', g' !! n = Some (Fin q') /\ q' <= q) ->
  trail nodes currentEdges g T -> trail nodes currentEdges g' T.
Proof.
  intros Hdec. induction 1 as [|m v T q _ IH Hin Hm Hq Hle]; [constructor|].
  destruct (Hdec m q Hq) as (q' & Hq' & Hle').
  apply (trail_cons _ _ _ m v T q'); try assumption. lra.
Qed.

(* The sum of a trail is one of finitely many values. *)
Lemma trail_sum_in (g : gmap string num) (T : list (string * Q)) :
  trail nodes currentEdges g T ->
  exists v, v ∈ allSums nodes currentEdges /\ v == Qsum (T.*2).
Proof.
  intros HT. apply subset_sums_submseteq.
  apply fmap_submseteq, NoDup_submseteq.
  - eapply NoDup_fmap_1, trail_NoDup, HT.
  - apply (trail_entries g), HT.
Qed.

(* The g-score that replaces an entry has a smaller rank. *)
Lemma rank_decreases (g : gmap string num) (T : list (string * Q)) (tq : Q)
    (old : option num) :
  trail nodes currentEdges g T -> tq == Qsum (T.*2) ->
  js_lt (Some (Fin tq)) old = true ->
  (rank (allSums nodes currentEdges) (Some (Fin tq))
   < rank (allSums nodes currentEdges) old)%nat.
Proof.
  intros HT Hsum Hless.
  destruct (js_lt_Fin_inv _ _ Hless) as [->|(qo & -> & Hlt)]; simpl.
  - pose proof (countBelow_length tq (allSums nodes currentEdges)). lia.
  - destruct (trail_sum_in g T HT) as (v0 & Hin & Hv0).
    apply (countBelow_strict tq qo v0); [exact Hin | lra | lra].
Qed.
End Trails.

Lemma set_add_length (x : string) (s : list string) :
  (List.length (set_add x s) <= S (List.length s))%nat.
Proof.
  unfold set_add. destruct (decide (x ∈ s)); [lia|].
  rewrite length_app. simpl. lia.
Qed.

Lemma known_allKeys (nodes : list Node.t) (startId n : string) :
  known nodes startId n -> n ∈ allKeys nodes startId.
Proof.
  intros [->|H]; [apply list_elem_of_here | apply list_elem_of_further, H].
Qed.

Section PlannerTerminates.
Variable nodes : list Node.t.
Variable currentEdges : list Edge.t.
Variables startId endId : string.
Hypothesis turns : noTurnPenalty nodes currentEdges.
Hypothesis levels : noRoadLevelPenalty currentEdges.
Hypothesis lengths : positiveLengths currentEdges.

(* A step of the for loop keeps the trails and does not increase the
   measure. *)
Lemma relax_measure (current : string) (qc : Q) (done : list Edge.t)
    (st : AStar) (e : Edge.t) :
  e ∈ neighbors currentEdges current ->
  astar_round_inv nodes currentEdges startId endId current qc done st ->
  trails nodes currentEdges (gScore st) ->
  trails nodes currentEdges (gScore (relax nodes endId current st e))
  /\ (measure nodes currentEdges startId (relax nodes endId current st e)
      <= measure nodes currentEdges startId st)%nat.
Proof.
  intros Hnb (Horigin & Hlinks & Hhas & Hdom & Hstart & Hcosts & Hclosed & Hcur
              & Hdone & Hscores & Hgoal & Hpred) Htrails.
  pose proof (stepCost_static nodes currentEdges turns levels st current e Hlinks Hnb)
    as Hstatic.
  pose proof Hnb as Hnb'. apply neighbors_spec in Hnb' as [He Hconn].
  destruct (relax_cases nodes endId current st e) as [[Heq _]|(t & Ht & Hless & Heq)];
    rewrite Heq; clear Heq; [auto|].
  rewrite Hcur in Ht. cbn [js_add num_plus] in Ht. injection Ht as <-.
  set (v := neighborOf current e) in *.
  set (tq := qc + stepCost nodes (cameFrom st) current e) in *.
  set (w := staticCost nodes e v) in *.
  assert (Htq : tq == qc + w) by (unfold tq; rewrite Hstatic; reflexivity).
  assert (Hw : 0 < w) by (apply staticCost_pos, lengths, He).
  unfold measure. cbn [openSet gScore].
  destruct (Htrails current qc Hcur) as (Tc & HTc & Hsum).
  (* the neighbour has not been entered on the way to current *)
  assert (Hfresh : v ∉ Tc.*1).
  { intros Hin. destruct (trail_member nodes currentEdges lengths _ _ _ HTc Hin)
      as (q' & Hq' & Hle').
    rewrite Hq' in Hless. simpl in Hless. apply Qltb_lt in Hless. lra. }
  assert (Hdec : forall n q, gScore st !! n = Some (Fin q) ->
            exists q', <[v := Fin tq]> (gScore st) !! n = Some (Fin q') /\ q' <= q).
  { intros n q Hq. destruct (decide (v = n)) as [<-|Hne].
    - rewrite lookup_insert_eq. exists tq. split; [reflexivity|].
      rewrite Hq in Hless. simpl in Hless. apply Qltb_lt in Hless. lra.
    - rewrite lookup_insert_ne by exact Hne. exists q. split; [exact Hq | lra]. }
  assert (HT' : trail nodes currentEdges (<[v := Fin tq]> (gScore st)) ((v, w) :: Tc)).
  { apply (trail_cons _ _ _ v w Tc tq).
    - apply (trail_mono nodes currentEdges (gScore st)); assumption.
    - apply (stepEntries_edge nodes currentEdges e current v); assumption.
    - exact Hfresh.
    - apply lookup_insert_eq.
    - lra. }
  split.
  - intros n q. destruct (decide (v = n)) as [<-|Hne].
    + rewrite lookup_insert_eq. intros [= <-]. exists ((v, w) :: Tc).
      split; [exact HT'|]. rewrite Qsum_snd_cons. lra.
    + intros Hq. pose proof Hq as Hq'. rewrite lookup_insert_ne in Hq' by exact Hne.
      destruct (Htrails n q Hq') as (T & HT & HsumT). exists T.
      split; [|exact HsumT].
      apply (trail_mono nodes currentEdges (gScore st)); assumption.
  - assert (Hrank : (rank (allSums nodes currentEdges) (Some (Fin tq))
                     < rank (allSums nodes currentEdges) (gScore st !! v))%nat).
    { eapply rank_decreases;
        [exact HT' | rewrite Qsum_snd_cons; lra | exact Hless]. }
    assert (Hkey : v ∈ allKeys nodes startId).
    { apply known_allKeys. eapply improve_known; eassumption. }
    pose proof (potential_insert (allSums nodes currentEdges) (gScore st) v (Fin tq)
                  (allKeys nodes startId) Hkey Hrank).
    pose proof (set_add_length v (openSet st)). lia.
Qed.

Lemma fold_measure (current : string) (qc : Q) (es : list Edge.t) :
  forall (done : list Edge.t) (st : AStar),
    (forall e, e ∈ es -> e ∈ neighbors currentEdges current) ->
    astar_round_inv nodes currentEdges startId endId current qc done st ->
    trails nodes currentEdges (gScore st) ->
    trails nodes currentEdges (gScore (fold_left (relax nodes endId current) es st))
    /\ (measure nodes currentEdges startId (fold_left (relax nodes endId current) es st)
        <= measure nodes currentEdges startId st)%nat.
Proof.
  induction es as [|e es IH]; intros done st Hsub Hinv Htrails; simpl; [auto|].
  assert (He : e ∈ neighbors currentEdges current) by apply Hsub, list_elem_of_here.
  destruct (relax_measure current qc done st e He Hinv Htrails) as [Htrails' Hle].
  destruct (IH (e :: done) (relax nodes endId current st e)) as [Htrails'' Hle''].
  - intros e' He'. apply Hsub, list_elem_of_further, He'.
  - apply astar_relax_round; assumption.
  - exact Htrails'.
  - split; [exact Htrails''|lia].
Qed.

(* Every turn of the while loop that does not select the goal decreases the
   measure. *)
Lemma expand_measure (current : string) (st : AStar) :
  current ∈ openSet st -> current <> endId ->
  astar_inv nodes currentEdges startId endId st ->
  trails nodes currentEdges (gScore st) ->
  trails nodes currentEdges (gScore (expand nodes currentEdges endId current st))
  /\ (measure nodes currentEdges startId (expand nodes currentEdges endId current st)
      < measure nodes currentEdges startId st)%nat.
Proof.
  intros Hin Hne Hinv Htrails.
  destruct (astar_round_start nodes currentEdges startId endId current st Hin Hne Hinv)
    as (qc & Hinit).
  unfold expand.
  destruct (fold_measure current qc (neighbors currentEdges current) [] _
              (fun e H => H) Hinit Htrails) as [Htrails' Hle].
  split; [exact Htrails'|].
  pose proof (set_delete_length current (openSet st) Hin) as Hlt.
  unfold measure in *. cbn [openSet gScore] in Hle. lia.
Qed.

Lemma init_trails :
  trails nodes currentEdges (gScore (astar_init nodes startId endId)).
Proof.
  intros n q Hq. simpl in Hq. apply init_finite in Hq as [_ ->].
  exists []. split; [constructor | reflexivity].
Qed.

Lemma keysBelow_length (g : gmap string num) (q : Q) (keys : list string) :
  (keysBelow g q keys <= List.length keys)%nat.
Proof. unfold keysBelow. apply List.filter_length_le. Qed.

Lemma keysBelow_strict (g : gmap string num) (c : string) (qc qn : Q)
    (keys : list string) :
  c ∈ keys -> g !! c = Some (Fin qc) -> qc < qn ->
  (keysBelow g qc keys < keysBelow g qn keys)%nat.
Proof.
  intros Hin Hc Hlt. unfold keysBelow.
  assert (Hmono : forall k, js_lt (g !! k) (Some (Fin qc)) = true ->
                            js_lt (g !! k) (Some (Fin qn)) = true).
  { intros k. destruct (g !! k) as [[q|]|]; simpl; try discriminate.
    rewrite !Qltb_lt. lra. }
  assert (Hle : forall l, (List.length (List.filter
                   (fun k => js_lt (g !! k) (Some (Fin qc))) l)
                 <= List.length (List.filter
                      (fun k => js_lt (g !! k) (Some (Fin qn))) l))%nat).
  { induction l as [|a l IH]; simpl; [lia|].
    destruct (js_lt (g !! a) (Some (Fin qc))) eqn:E.
    - rewrite (Hmono a E). simpl. lia.
    - destruct (js_lt (g !! a) (Some (Fin qn))); simpl; lia. }
  induction keys as [|a keys IH]; [inversion Hin|]. simpl.
  apply elem_of_cons in Hin as [<-|Hin].
  - rewrite Hc. simpl.
    assert (E1 : Qltb qc qc = false) by (apply Qltb_ge; lra).
    assert (E2 : Qltb qc qn = true) by (apply Qltb_lt; exact Hlt).
    rewrite E1, E2. simpl. specialize (Hle keys). lia.
  - specialize (IH Hin). destruct (js_lt (g !! a) (Some (Fin qc))) eqn:E.
    + rewrite (Hmono a E). simpl. lia.
    + destruct (js_lt (g !! a) (Some (Fin qn))); simpl; lia.
Qed.

(* The reconstruction loop ends: g-scores decrease strictly along the
   predecessor links. *)
Lemma reconstruct_terminates (st : AStar) :
  astar_inv nodes currentEdges startId endId st ->
  forall (fuel : nat) (n : string) (qn : Q) (acc : list string),
    gScore st !! n = Some (Fin qn) ->
    (keysBelow (gScore st) qn (allKeys nodes startId) <= fuel)%nat ->
    exists totalPath, reconstruct fuel (cameFrom st) n acc = Some totalPath.
Proof.
  intros (Horigin & Hlinks & Hdom & Hstart & Hcosts & Hclosed & Hscores
          & Hgoal & Hpred).
  assert (Hstep : forall n c qn, cameFrom st !! n = Some c ->
            gScore st !! n = Some (Fin qn) ->
            exists qc, gScore st !! c = Some (Fin qc)
              /\ (keysBelow (gScore st) qc (allKeys nodes startId)
                  < keysBelow (gScore st) qn (allKeys nodes startId))%nat).
  { intros n c qn Hn Hqn.
    destruct (Hpred n c Hn) as (e & qc & qn' & He & Hconn & Hqc & Hqn' & Hle).
    rewrite Hqn in Hqn'. injection Hqn' as <-. exists qc. split; [exact Hqc|].
    pose proof (staticCost_pos nodes e n (lengths e He)).
    apply (keysBelow_strict _ c); [|exact Hqc|lra].
    apply known_allKeys, Hdom. rewrite Hqc. eauto. }
  induction fuel as [|k IH]; intros n qn acc Hqn Hfuel; simpl.
  - destruct (cameFrom st !! n) as [c|] eqn:E; [|eauto].
    destruct (Hstep n c qn E Hqn) as (qc & _ & Hlt). lia.
  - destruct (cameFrom st !! n) as [c|] eqn:E; [|eauto].
    destruct (Hstep n c qn E Hqn) as (qc & Hqc & Hlt).
    apply (IH c qc); [exact Hqc | lia].
Qed.

(* With fuel above the measure, the while loop returns. *)
Lemma search_terminates (fuel : nat) :
  forall st : AStar,
    astar_inv nodes currentEdges startId endId st ->
    trails nodes currentEdges (gScore st) ->
    (measure nodes currentEdges startId st + List.length (allKeys nodes startId)
     < fuel)%nat ->
    exists res, search fuel nodes currentEdges endId st = Some res.
Proof.
  induction fuel as [|k IH]; intros st Hinv Htrails Hfuel; [lia|]. simpl.
  destruct (openSet st) as [|a rest] eqn:Hopen; [eauto|].
  pose proof (lowest_elem (fScore st) rest a) as Hin. rewrite <- Hopen in Hin.
  destruct (String.eqb_spec (lowest (fScore st) a rest) endId) as [Hlow|Hlow].
  - assert (Hscores : open_scores nodes endId st) by apply Hinv.
    destruct (Hscores _ Hin) as (q & fq & Hq & _ & _).
    destruct (reconstruct_terminates st Hinv k (lowest (fScore st) a rest) q
                [lowest (fScore st) a rest] Hq) as (totalPath & ->).
    { pose proof (keysBelow_length (gScore st) q (allKeys nodes startId)). lia. }
    rewrite <- Hlow, Hq. eauto.
  - destruct (expand_measure _ st Hin Hlow Hinv Htrails) as [Htrails' Hlt].
    apply IH; [apply astar_expand; assumption | exact Htrails' | lia].
Qed.
End PlannerTerminates.


(** ** The planner on the small worlds *)

(* Case analysis on membership in a list that is written out. *)
Ltac elem_cases :=
  repeat match goal with
         | H : _ ∈ _ :: _ |- _ => apply elem_of_cons in H as [->|H]
         | H : _ ∈ [] |- _ => inversion H
         end.

Ltac connects_cases :=
  repeat match goal with
         | H : connects _ _ _ |- _ => destruct H as [[? ?]|[? ?]]; simpl in *; subst
         end.

Lemma detour_noTurnPenalty : noTurnPenalty detourNodes detourEdges.
Proof.
  intros e1 e2 p c n H1 H2 Hc1 Hc2. unfold detourEdges in *.
  elem_cases; connects_cases; try discriminate; reflexivity.
Qed.

Lemma detour_noRoadLevelPenalty : noRoadLevelPenalty detourEdges.
Proof.
  intros e He. unfold detourEdges in *. elem_cases; simpl; lra.
Qed.

Lemma detour_positiveLengths : positiveLengths detourEdges.
Proof.
  intros e He. unfold detourEdges in *. elem_cases; simpl; lra.
Qed.


Lemma line_noTurnPenalty : noTurnPenalty lineNodes lineEdges.
Proof.
  intros e1 e2 p c n H1 H2 Hc1 Hc2. unfold lineEdges in *.
  elem_cases; connects_cases; try discriminate; reflexivity.
Qed.

Lemma line_noRoadLevelPenalty : noRoadLevelPenalty lineEdges.
Proof.
  intros e He. unfold lineEdges in *. elem_cases; simpl; lra.
Qed.

Lemma line_positiveLengths : positiveLengths lineEdges.
Proof.
  intros e He. unfold lineEdges in *. elem_cases; simpl; lra.
Qed.

Lemma line_consistent : consistent lineNodes lineEdges "C".
Proof.
  intros e a b He Hc. unfold lineEdges in *.
  elem_cases; connects_cases; vm_compute; discriminate.
Qed.

Lemma line_walk : walk lineNodes lineEdges "A" "A" "C"
                    (0 + staticCost lineNodes (Edge.mk "ac" "A" "C" 2 60 50 30 None) "C").
Proof.
  apply (walk_step _ _ _ _ "A"); [constructor | | left; auto | right].
  - unfold lineEdges. do 2 apply list_elem_of_further. apply list_elem_of_here.
  - unfold lineNodes. simpl. do 2 apply list_elem_of_further. apply list_elem_of_here.
Qed.


(* The run on the line world. *)
Example line_run :
  findBestPath 20 "A" "C" lineEdges lineNodes
  = Some (Some (Route.mk ["A"; "B"; "C"] (600000 # 250000)))
  /\ dijkstra "A" "C" lineEdges lineNodes = Some (6000 # 2500)
  /\ 600000 # 250000 == 6000 # 2500.
Proof. vm_compute. auto. Qed.

(** ** Concrete runs of the simulation *)

Lemma reroute_same_suffix_noop_witness :
  rerouteEffect 20 noon (drivingSim gridNodes gridEdges ["1"; "3"; "4"] 20 0 0)
  = Some (drivingSim gridNodes gridEdges ["1"; "3"; "4"] 20 0 0).
Proof.
  apply (reroute_same_suffix_noop 20 noon
           (drivingSim gridNodes gridEdges ["1"; "3"; "4"] 20 0 0)
           (Route.mk ["1"; "3"; "4"] (63750000 # 25000000))).
  - reflexivity.
  - intros currentNode H. injection H as <-. vm_compute. reflexivity.
  - reflexivity.
Defined.

Lemma red_light_wait_then_resume_witness :
  let s := drivingSim redNodes gridEdges ["1"; "3"; "4"] 20 0 0.9 in
  let s1 := moveTick noon s in
  (isWaitingForLight s1 = true
   /\ carNodeIndex s1 = carNodeIndex s
   /\ progressBetweenNodes s1 = progressBetweenNodes s
   /\ currentPath s1 = currentPath s
   /\ isPlaying s1 = true
   /\ SimulationMetrics.totalTime (metrics s1)
      = SimulationMetrics.totalTime (metrics s) + 0.05
   /\ SimulationMetrics.distanceTraveled (metrics s1)
      = SimulationMetrics.distanceTraveled (metrics s))
  /\ (forall (clock2 : Clock) (s2 : Sim) (edge2 : Edge.t),
        isPlaying s2 = true ->
        currentPath s2 = currentPath s1 ->
        carNodeIndex s2 = carNodeIndex s1 ->
        progressBetweenNodes s2 = progressBetweenNodes s1 ->
        findEdge (edges s2) (currentPath s2 !! carNodeIndex s2)
          (currentPath s2 !! (carNodeIndex s2 + 1)%nat) = Some edge2 ->
        0 < Edge.currentSpeed edge2 ->
        0 < Edge.length edge2 ->
        lightIsRed (nodes s2) (currentPath s2 !! (carNodeIndex s2 + 1)%nat) = false ->
        isWaitingForLight (moveTick clock2 s2) = false
        /\ advanced s2 (moveTick clock2 s2)).
Proof.
  intros s.
  apply (red_light_wait_then_resume noon s (gridEdge "e13" "1" "3" 50)).
  - reflexivity.
  - simpl. lia.
  - reflexivity.
  - reflexivity.
  - simpl. lra.
Defined.

Lemma incident_edge_frozen_witness :
  let s := initialSim gridEdges gridNodes in
  let incident := Edge.mk "e12" "1" "2" 1 60 50 2 (Some true) in
  edges (triggerCongestion noon "e12" 2 "Sudden Accident" s) !! 0%nat = Some incident
  /\ (forall draws : list (Tape * nat),
        edges (envTicks draws (triggerCongestion noon "e12" 2 "Sudden Accident" s))
          !! 0%nat = Some incident)
  /\ (forall (rnd : Tape) (pos : nat) (s' : Sim),
        edges s' !! 0%nat = Some incident ->
        edges (fst (envTick rnd pos s')) !! 0%nat = Some incident).
Proof.
  intros s.
  apply (incident_edge_frozen noon "e12" 2 "Sudden Accident" s 0
           (gridEdge "e12" "1" "2" 50)).
  - reflexivity.
  - reflexivity.
Defined.

(* The jam step by step: the accident, then the reroute. *)
Example accident_then_reroute :
  let s := triggerCongestion noon "e12" 2 "Sudden Accident"
             (drivingSim gridNodes gridEdges ["1"; "2"; "4"] 20 0 0) in
  edges s = jammedEdges
  /\ (currentPath <$> rerouteEffect 20 noon s) = Some ["1"; "3"; "4"].
Proof. vm_compute. auto. Qed.

(** ** Fuel *)

Lemma reconstruct_fuel_mono (cf : gmap string string) (fuel : nat) :
  forall (fuel' : nat) (current : string) (acc totalPath : list string),
    (fuel <= fuel')%nat ->
    reconstruct fuel cf current acc = Some totalPath ->
    reconstruct fuel' cf current acc = Some totalPath.
Proof.
  induction fuel as [|k IH]; intros fuel' current acc totalPath Hle H.
  - simpl in H. destruct (cf !! current) eqn:E; [discriminate|].
    destruct fuel'; simpl; rewrite E; exact H.
  - destruct fuel' as [|k']; [lia|]. simpl in *.
    destruct (cf !! current) as [prev|]; [|exact H].
    apply IH; [lia | exact H].
Qed.

(* More fuel does not change what the loop returns. *)
Lemma search_fuel_mono (nodes : list Node.t) (currentEdges : list Edge.t)
    (endId : string) (fuel : nat) :
  forall (fuel' : nat) (st : AStar) (res : option Route.t),
    (fuel <= fuel')%nat ->
    search fuel nodes currentEdges endId st = Some res ->
    search fuel' nodes currentEdges endId st = Some res.
Proof.
  induction fuel as [|k IH]; intros fuel' st res Hle H; [discriminate|].
  destruct fuel' as [|k']; [lia|]. simpl in *.
  destruct (openSet st) as [|a rest]; [exact H|].
  destruct (lowest (fScore st) a rest =? endId)%string.
  - destruct (reconstruct k (cameFrom st) (lowest (fScore st) a rest)
                [lowest (fScore st) a rest]) as [totalPath|] eqn:E; [|discriminate].
    rewrite (reconstruct_fuel_mono _ k k' _ _ _ ltac:(lia) E). exact H.
  - apply IH; [lia | exact H].
Qed.

Lemma findBestPath_fuel_mono (fuel fuel' : nat) (startId endId : string)
    (currentEdges : list Edge.t) (nodes : list Node.t) (res : option Route.t) :
  (fuel <= fuel')%nat ->
  findBestPath fuel startId endId currentEdges nodes = Some res ->
  findBestPath fuel' startId endId currentEdges nodes = Some res.
Proof. apply search_fuel_mono. Qed.

(** ** Comparing paths by their joined ids *)

Lemma join_cons (x y : string) (l : list string) :
  String.concat "," (x :: y :: l) = (x ++ String comma (String.concat "," (y :: l)))%string.
Proof. reflexivity. Qed.

(* A comma-free id followed by a comma is read back unambiguously. *)
Lemma append_comma_inj (x : string) :
  forall (x' r r' : string),
    commaFree x -> commaFree x' ->
    (x ++ String comma r = x' ++ String comma r')%string -> x = x' /\ r = r'.
Proof.
  induction x as [|a x IH]; intros x' r r' Hx Hx' H; destruct x' as [|a' x']; simpl in *.
  - injection H as <-. auto.
  - injection H as <- _. destruct Hx' as [Hne _]. congruence.
  - injection H as -> _. destruct Hx as [Hne _]. congruence.
  - injection H as <- H. destruct Hx as [_ Hx], Hx' as [_ Hx'].
    destruct (IH x' r r' Hx Hx' H) as [-> ->]. auto.
Qed.

Lemma append_comma_not_free (x x' r : string) :
  commaFree x' -> (x ++ String comma r)%string <> x'.
Proof.
  revert x'. induction x as [|a x IH]; intros x' Hx' H; destruct x' as [|a' x'];
    simpl in *; try discriminate.
  - injection H as <- _. destruct Hx' as [Hne _]. congruence.
  - injection H as _ H. destruct Hx' as [_ Hx']. exact (IH x' Hx' H).
Qed.

(* On non-empty lists of comma-free ids, join(',') is injective: the
   engine's comparison of the joined strings is the comparison of the two
   id sequences. *)
Lemma join_comma_inj (l1 : list string) :
  forall l2 : list string,
    Forall commaFree l1 -> Forall commaFree l2 ->
    l1 <> [] -> l2 <> [] ->
    String.concat "," l1 = String.concat "," l2 -> l1 = l2.
Proof.
  induction l1 as [|x l1 IH]; intros l2 H1 H2 Hn1 Hn2 H; [congruence|].
  destruct l2 as [|x' l2]; [congruence|].
  inversion H1 as [|? ? Hx Hl1]; subst. inversion H2 as [|? ? Hx' Hl2]; subst.
  destruct l1 as [|y l1], l2 as [|y' l2].
  - simpl in H. congruence.
  - rewrite join_cons in H. simpl in H. symmetry in H.
    exfalso. exact (append_comma_not_free _ _ _ Hx H).
  - rewrite join_cons in H. simpl in H.
    exfalso. exact (append_comma_not_free _ _ _ Hx' H).
  - rewrite !join_cons in H.
    destruct (append_comma_inj _ _ _ _ Hx Hx' H) as [-> Hrest].
    f_equal. apply IH; try assumption; discriminate.
Qed.

(** ** The log is never written *)

Lemma addLog_keeps_empty (clock : Clock) (message : LogMessage) (type : LogType)
    (s : Sim) :
  logs s = [] -> logs (addLog clock message type s) = [].
Proof.
  intros H. unfold addLog. cbn [logs setLogs]. apply addLogEntry_short.
  rewrite H. simpl. lia.
Qed.

(** X20.  Starting from the empty log, no transition of the component
    leaves an entry in it: the log is empty in every state reached from the
    initial one, whatever the incidents are. *)
Lemma reachable_logs_empty (INITIAL_EDGES : list Edge.t) (NODES : list Node.t)
    (s : Sim) :
  reachable INITIAL_EDGES NODES anyIncident s -> logs s = [].
Proof.
  induction 1 as [|s s' _ IH Hstep]; [reflexivity|].
  destruct Hstep.
  - unfold envTick. destruct (isPlaying s); [|exact IH].
    destruct (tickNodes rnd pos (nodes s)) as [ns pos1].
    destruct (tickEdges rnd pos1 (edges s)) as [es pos2]. exact IH.
  - unfold rerouteEffect in H.
    repeat match type of H with
           | context [match ?c with _ => _ end] => destruct c
           end;
      try discriminate; injection H as <-; try exact IH.
    unfold commitReroute. cbn [logs setEstimatedTime setMetrics setCurrentPath].
    apply addLog_keeps_empty, IH.
  - unfold moveTick.
    repeat match goal with
           | |- context [match ?c with _ => _ end] => destruct c
           end;
      try exact IH; apply addLog_keeps_empty; exact IH.
  - unfold triggerCongestion. apply addLog_keeps_empty. exact IH.
  - unfold randomAccident. destruct (randomEdge r s); [|exact IH].
    unfold triggerCongestion. apply addLog_keeps_empty. exact IH.
  - unfold handleReset. apply addLog_keeps_empty. exact IH.
  - unfold handleNodeClick. destruct (selectionMode s) as [[|]|]; [| |exact IH];
      unfold handleReset; apply addLog_keeps_empty; cbn [logs setEdges setMetrics
        setIsWaitingForLight setProgressBetweenNodes setCarNodeIndex setIsPlaying];
      apply addLog_keeps_empty; exact IH.
  - exact IH.
  - unfold togglePlay. cbn [logs setIsPlaying].
    destruct (negb (isPlaying s) && Nat.eqb (carNodeIndex s) 0); [|exact IH].
    apply addLog_keeps_empty, IH.
  - exact IH.
Qed.


(* Two id sequences that differ have joined strings that differ, when the
   ids hold no comma: the guard `oldPathStr !== newPathStr` then holds
   exactly when the candidate is not the remaining suffix. *)
Lemma joined_paths_differ (fuel : nat) (s : Sim) (currentNode : string)
    (newRoute : Route.t) :
  currentPath s !! carNodeIndex s = Some currentNode ->
  findBestPath fuel currentNode (endNode s) (edges s) (nodes s) = Some (Some newRoute) ->
  Forall commaFree (currentPath s) ->
  Forall commaFree (Route.path newRoute) ->
  drop (carNodeIndex s) (currentPath s) <> Route.path newRoute ->
  String.concat "," (drop (carNodeIndex s) (currentPath s))
    <> String.concat "," (Route.path newRoute).
Proof.
  intros Hcur Hplan Hfree Hfree' Hdiff Heq. apply Hdiff.
  apply join_comma_inj; try assumption.
  - apply Forall_drop, Hfree.
  - intros Hnil. apply (f_equal List.length) in Hnil. rewrite length_drop in Hnil.
    apply lookup_lt_Some in Hcur. simpl in Hnil. lia.
  - intros Hnil. unfold findBestPath in Hplan.
    destruct (astar_init_shape (nodes s) (edges s) currentNode (endNode s)) as [Ho Hl].
    destruct (search_shape (nodes s) (edges s) currentNode (endNode s) fuel _ _ Ho Hl Hplan)
      as (cf & l & _ & Hpath & _).
    rewrite Hnil in Hpath. simpl in Hpath. destruct (rev l); discriminate.
Qed.



(** ** The planner on every graph: reachability *)

Lemma relax_dom_known (nodes : list Node.t) (startId endId current : string)
    (st : AStar) (edge : Edge.t) :
  dom_known nodes startId (gScore st) ->
  dom_known nodes startId (gScore (relax nodes endId current st edge)).
Proof.
  intros Hdom.
  destruct (relax_cases nodes endId current st edge) as [[-> _]|(t & _ & Hless & ->)];
    [exact Hdom|].
  intros n. cbn [gScore]. split.
  - intros H. apply lookup_insert_is_Some' in H as [<-|H]; apply Hdom; [|exact H].
    destruct (gScore st !! neighborOf current edge) as [o|]; [eauto|].
    destruct t; discriminate Hless.
  - intros H. apply lookup_insert_is_Some'. right. apply Hdom, H.
Qed.

Lemma finite_at_insert (g : gmap string num) (k n : string) (q : Q) :
  finite_at g n -> finite_at (<[k := Fin q]> g) n.
Proof.
  intros [q' Hq']. destruct (decide (k = n)) as [<-|Hne].
  - exists q. apply lookup_insert_eq.
  - exists q'. rewrite lookup_insert_ne by exact Hne. exact Hq'.
Qed.

(* What a successful comparison of the loop body says. *)
Lemma relax_improves (st : AStar) (current : string) (c : Q) (t : num) (o : option num) :
  js_add (gScore st !! current) c = Some t -> js_lt (Some t) o = true ->
  exists qc, gScore st !! current = Some (Fin qc) /\ t = Fin (qc + c).
Proof.
  intros Ht Hless. destruct (gScore st !! current) as [[qc|]|]; simpl in Ht;
    try discriminate Ht; injection Ht as <-; [eauto|].
  destruct o as [[?|]|]; discriminate Hless.
Qed.

Section PlannerReach.
Variable nodes : list Node.t.
Variable currentEdges : list Edge.t.
Variables startId endId : string.

Lemma relax_reach_round (current : string) (done : list Edge.t) (st : AStar)
    (e : Edge.t) :
  e ∈ neighbors currentEdges current ->
  reach_round_inv nodes currentEdges startId endId current done st ->
  reach_round_inv nodes currentEdges startId endId current (e :: done)
    (relax nodes endId current st e).
Proof.
  intros Hnb (Hdom & Hstart & Hclosed & Hgoal & Hopen & Hcur & Hdone).
  pose proof (relax_dom_known nodes startId endId current st e Hdom) as Hdom'.
  pose proof (relax_open_finite nodes endId current st e Hopen) as Hopen'.
  destruct (relax_cases nodes endId current st e) as [[Heq Hge]|(t & Ht & Hless & Heq)];
    rewrite Heq in *; clear Heq.
  - repeat (split; [assumption|]).
    intros e' t He' Hconn Hknown. apply elem_of_cons in He' as [->|He'];
      [|eapply Hdone; eassumption].
    rewrite (connects_neighborOf _ _ _ Hconn) in Hge.
    destruct Hcur as [qc Hqc]. rewrite Hqc in Hge. cbn [js_add num_plus] in Hge.
    apply Hdom in Hknown as [gt Hgt]. rewrite Hgt in Hge.
    apply js_ge_Fin_inv in Hge as (qt & -> & _). exists qt. exact Hgt.
  - destruct (relax_improves _ _ _ _ _ Ht Hless) as (qc & Hqc & ->).
    set (v := neighborOf current e) in *. cbn [openSet gScore] in *.
    split; [exact Hdom'|]. split; [apply finite_at_insert, Hstart|].
    split; [|split; [|split; [exact Hopen'|split; [apply finite_at_insert, Hcur|]]]].
    + intros m e' t Hm Hfin He' Hconn Hknown. apply finite_at_insert.
      apply not_elem_of_cons in Hm as [Hmc Hm].
      assert (Hmv : m <> v).
      { intros ->. apply Hm, elem_of_set_add. auto. }
      apply (Hclosed m e' t); try assumption.
      * apply not_elem_of_cons. split; [exact Hmc|].
        intros Hin. apply Hm, elem_of_set_add. auto.
      * destruct Hfin as [q Hq]. cbn [gScore] in Hq.
        rewrite lookup_insert_ne in Hq by congruence.
        exists q. exact Hq.
    + intros q Hq. apply elem_of_set_add.
      destruct (decide (endId = v)) as [|Hne]; [auto|]. right.
      cbn [gScore] in Hq. rewrite lookup_insert_ne in Hq by congruence.
      eapply Hgoal, Hq.
    + intros e' t He' Hconn Hknown. apply elem_of_cons in He' as [->|He'].
      * pose proof (connects_neighborOf _ _ _ Hconn) as Hv. fold v in Hv.
        rewrite <- Hv. eexists. cbn [gScore]. apply lookup_insert_eq.
      * apply finite_at_insert. eapply Hdone; eassumption.
Qed.

Lemma fold_reach_round (current : string) (es : list Edge.t) :
  forall (done : list Edge.t) (st : AStar),
    (forall e, e ∈ es -> e ∈ neighbors currentEdges current) ->
    reach_round_inv nodes currentEdges startId endId current done st ->
    reach_round_inv nodes currentEdges startId endId current (rev es ++ done)
      (fold_left (relax nodes endId current) es st).
Proof.
  induction es as [|e es IH]; intros done st Hsub Hinv; simpl; [exact Hinv|].
  rewrite <- app_assoc. apply IH.
  - intros e' He'. apply Hsub, list_elem_of_further, He'.
  - apply relax_reach_round; [apply Hsub, list_elem_of_here | exact Hinv].
Qed.

Lemma expand_reach (current : string) (st : AStar) :
  current ∈ openSet st -> current <> endId ->
  reach_inv nodes currentEdges startId endId st ->
  reach_inv nodes currentEdges startId endId (expand nodes currentEdges endId current st).
Proof.
  intros Hin Hne (Hdom & Hstart & Hclosed & Hgoal & Hopen). unfold expand.
  set (st0 := {| openSet := set_delete current (openSet st); cameFrom := cameFrom st;
                 gScore := gScore st; fScore := fScore st |}).
  assert (H0 : reach_round_inv nodes currentEdges startId endId current [] st0).
  { split; [exact Hdom|]. split; [exact Hstart|]. split; [|split; [|split; [|split]]].
    - intros m e t Hm. apply Hclosed. intros Hmo. apply Hm.
      destruct (decide (m = current)) as [->|Hmc]; [apply list_elem_of_here|].
      apply list_elem_of_further, elem_of_set_delete. auto.
    - intros q Hq. apply elem_of_set_delete. split; [congruence|]. eapply Hgoal, Hq.
    - intros n Hn. apply elem_of_set_delete in Hn as [_ Hn]. apply Hopen, Hn.
    - apply Hopen, Hin.
    - intros e t He. inversion He. }
  pose proof (fold_reach_round current (neighbors currentEdges current) [] st0
                (fun e H => H) H0) as (Hdom' & Hstart' & Hclosed' & Hgoal' & Hopen' & _ & Hdone').
  repeat (split; [assumption|]). split; [|auto].
  intros m e t Hm Hfin He Hconn Hknown.
  destruct (decide (m = current)) as [->|Hmc].
  - apply (Hdone' e t); [|assumption..].
    rewrite app_nil_r, rev_reverse, elem_of_reverse. eapply connects_neighbors; eassumption.
  - apply (Hclosed' m e t); try assumption.
    apply not_elem_of_cons. auto.
Qed.

Lemma astar_init_reach : reach_inv nodes currentEdges startId endId (astar_init nodes startId endId).
Proof.
  split; [apply init_dom_known|].
  split; [exists 0; apply lookup_insert_eq|].
  split; [|split; [|apply astar_init_open_finite]].
  - intros m e t Hm [q Hq]. simpl in *. apply init_finite in Hq as [-> _].
    exfalso. apply Hm, list_elem_of_here.
  - intros q Hq. simpl in *. apply init_finite in Hq as [-> _]. apply list_elem_of_here.
Qed.

(* When the open set is empty, every node that can be reached has a finite
   g-score. *)
Lemma reach_walk_finite (st : AStar) (t : string) (c : Q) :
  reach_inv nodes currentEdges startId endId st -> openSet st = [] ->
  walk nodes currentEdges startId startId t c -> finite_at (gScore st) t.
Proof.
  intros (Hdom & Hstart & Hclosed & Hgoal & Hopen) Hempty.
  induction 1 as [|m b c e _ IH He Hconn Hknown]; [exact Hstart|].
  apply (Hclosed m e b); try assumption. rewrite Hempty. apply not_elem_of_nil.
Qed.

Lemma search_null_unreachable (fuel : nat) :
  forall st : AStar,
    reach_inv nodes currentEdges startId endId st ->
    search fuel nodes currentEdges endId st = Some None ->
    forall c, ~ walk nodes currentEdges startId startId endId c.
Proof.
  induction fuel as [|k IH]; intros st Hinv H; simpl in H; [discriminate H|].
  destruct (openSet st) as [|a rest] eqn:Eopen.
  - intros c Hwalk.
    destruct (reach_walk_finite st endId c Hinv Eopen Hwalk) as [q Hq].
    destruct Hinv as (_ & _ & _ & Hgoal & _). apply Hgoal in Hq.
    rewrite Eopen in Hq. inversion Hq.
  - pose proof (lowest_elem (fScore st) rest a) as Hin. rewrite <- Eopen in Hin.
    destruct (String.eqb_spec (lowest (fScore st) a rest) endId) as [Hgoal|Hgoal].
    + destruct (reconstruct k (cameFrom st) _ _); [|discriminate H].
      destruct (gScore st !! endId) as [[t|]|]; discriminate H.
    + apply (IH _ (expand_reach _ st Hin Hgoal Hinv) H).
Qed.
End PlannerReach.

(** ** The planner on every graph: only known nodes *)

Lemma rchain_links (cf : gmap string string) (l : list string) :
  rchain cf l -> forall b x l', l = b :: l' -> x ∈ l' -> exists m, cf !! m = Some x.
Proof.
  induction 1 as [r Hr|b a l Hb _ IH]; intros b' x l' [= <- <-] Hx; [inversion Hx|].
  apply elem_of_cons in Hx as [->|Hx]; [eauto|].
  eapply IH; [reflexivity | exact Hx].
Qed.

Section PlannerKnown.
Variable nodes : list Node.t.
Variable currentEdges : list Edge.t.
Variables startId endId : string.

Lemma relax_links_known (current : string) (st : AStar) (e : Edge.t) :
  dom_known nodes startId (gScore st) ->
  links_known nodes startId st ->
  links_known nodes startId (relax nodes endId current st e).
Proof.
  intros Hdom [Hopen Hlinks].
  destruct (relax_cases nodes endId current st e) as [[-> _]|(t & Ht & Hless & ->)];
    [split; assumption|].
  destruct (relax_improves _ _ _ _ _ Ht Hless) as (qc & Hqc & ->).
  assert (Hv : known nodes startId (neighborOf current e)).
  { apply Hdom. destruct (gScore st !! neighborOf current e); [eauto|discriminate Hless]. }
  assert (Hc : known nodes startId current) by (apply Hdom; rewrite Hqc; eauto).
  split; cbn [openSet cameFrom].
  - intros n Hn. apply elem_of_set_add in Hn as [->|Hn]; [exact Hv | apply Hopen, Hn].
  - intros n c. destruct (decide (neighborOf current e = n)) as [<-|Hne].
    + rewrite lookup_insert_eq. intros [= <-]. auto.
    + rewrite lookup_insert_ne by exact Hne. apply Hlinks.
Qed.

Lemma expand_links_known (current : string) (st : AStar) :
  dom_known nodes startId (gScore st) ->
  links_known nodes startId st ->
  dom_known nodes startId (gScore (expand nodes currentEdges endId current st))
  /\ links_known nodes startId (expand nodes currentEdges endId current st).
Proof.
  intros Hdom [Hopen Hlinks]. unfold expand.
  set (st0 := {| openSet := set_delete current (openSet st); cameFrom := cameFrom st;
                 gScore := gScore st; fScore := fScore st |}).
  assert (H0 : dom_known nodes startId (gScore st0) /\ links_known nodes startId st0).
  { split; [exact Hdom|]. split; [|exact Hlinks].
    intros n Hn. apply elem_of_set_delete in Hn as [_ Hn]. apply Hopen, Hn. }
  clearbody st0. revert st0 H0.
  induction (neighbors currentEdges current) as [|e es IH]; intros st0 [Hd Hl]; simpl;
    [auto|].
  apply IH. split; [apply relax_dom_known, Hd | apply relax_links_known; assumption].
Qed.

Lemma astar_init_links_known : links_known nodes startId (astar_init nodes startId endId).
Proof.
  split; simpl.
  - intros n Hn. apply list_elem_of_singleton in Hn as ->. left. reflexivity.
  - intros n c Hn. rewrite lookup_empty in Hn. discriminate Hn.
Qed.

Lemma search_known (fuel : nat) :
  forall (st : AStar) (r : Route.t),
    dom_known nodes startId (gScore st) -> links_known nodes startId st ->
    search fuel nodes currentEdges endId st = Some (Some r) ->
    forall n, n ∈ Route.path r -> known nodes startId n.
Proof.
  induction fuel as [|k IH]; intros st r Hdom Hl H; simpl in H; [discriminate H|].
  destruct (openSet st) as [|a rest] eqn:Eopen; [discriminate H|].
  pose proof (lowest_elem (fScore st) rest a) as Hin. rewrite <- Eopen in Hin.
  set (current := lowest (fScore st) a rest) in *.
  destruct (String.eqb_spec current endId) as [Hgoal|Hgoal].
  - destruct (reconstruct k (cameFrom st) current [current]) as [totalPath|] eqn:Erec;
      [|discriminate H].
    destruct (gScore st !! endId) as [[t|]|]; try discriminate H.
    injection H as <-. simpl.
    apply reconstruct_rchain in Erec as (l & Hchain & ->).
    intros n. rewrite app_nil_r, rev_reverse, elem_of_reverse.
    intros Hn. apply elem_of_cons in Hn as [->|Hn]; [apply Hl, Hin|].
    destruct (rchain_links _ _ Hchain current n l eq_refl Hn) as [m Hm].
    eapply Hl, Hm.
  - destruct (expand_links_known current st Hdom Hl) as [Hdom' Hl'].
    exact (IH _ r Hdom' Hl' H).
Qed.
End PlannerKnown.

(** ** The planner on every graph of positive lengths: termination *)

Lemma turnPenalty_cases (nodes : list Node.t) (cf : gmap string string)
    (current neighborId : string) :
  turnPenalty nodes cf current neighborId = 0
  \/ turnPenalty nodes cf current neighborId = 0.15.
Proof.
  unfold turnPenalty. destruct (cf !! current) as [prevId|]; [|auto].
  destruct (truthy prevId); [|auto].
  destruct (Direction_eqb _ _); auto.
Qed.

Section CostTrails.
Variable nodes : list Node.t.
Variable currentEdges : list Edge.t.
Hypothesis lengths : positiveLengths currentEdges.

Lemma weightOf_pos (e : Edge.t) (n : string) (turn : Q) :
  e ∈ currentEdges -> 0 <= turn -> 0 < weightOf nodes e n turn.
Proof.
  intros He Hturn. unfold weightOf.
  pose proof (baseTime_pos e (lengths e He)).
  pose proof (lightPenalty_nonneg nodes n).
  apply Qmult_lt_0_compat; [lra|].
  unfold roadLevelFactor. destruct (Qle_bool 60 (Edge.limit e)); lra.
Qed.

Lemma costEntries_pos (m : string) (v : Q) :
  (m, v) ∈ costEntries nodes currentEdges -> 0 < v.
Proof.
  unfold costEntries. rewrite list_elem_of_In, in_flat_map.
  intros (e & He & Hin). apply list_elem_of_In in He.
  destruct Hin as [[= <- <-]|[[= <- <-]|[[= <- <-]|[[= <- <-]|[]]]]];
    apply weightOf_pos; try assumption; lra.
Qed.

Lemma stepCost_entry (cf : gmap string string) (e : Edge.t) (u v : string) :
  e ∈ currentEdges -> connects e u v ->
  (v, stepCost nodes cf u e) ∈ costEntries nodes currentEdges.
Proof.
  intros He Hc. unfold costEntries. rewrite list_elem_of_In, in_flat_map.
  exists e. split; [apply list_elem_of_In, He|].
  unfold stepCost. rewrite (connects_neighborOf _ _ _ Hc). fold (weightOf nodes e v).
  change ((baseTime e + lightPenalty nodes v + turnPenalty nodes cf u v)
          * roadLevelFactor e) with (weightOf nodes e v (turnPenalty nodes cf u v)).
  destruct (turnPenalty_cases nodes cf u v) as [->| ->];
    destruct Hc as [[_ <-]|[<- _]]; simpl; auto.
Qed.

Lemma stepCost_pos (cf : gmap string string) (e : Edge.t) (u : string) :
  e ∈ neighbors currentEdges u -> 0 < stepCost nodes cf u e.
Proof.
  intros Hnb. apply neighbors_spec in Hnb as [He Hc].
  eapply costEntries_pos, stepCost_entry; eassumption.
Qed.

Lemma costTrail_NoDup (g : gmap string num) (T : list (string * Q)) :
  costTrail nodes currentEdges g T -> NoDup (T.*1).
Proof.
  induction 1 as [|m v T q _ IH _ Hm _ _]; [constructor|].
  rewrite fmap_cons. constructor; assumption.
Qed.

Lemma costTrail_entries (g : gmap string num) (T : list (string * Q)) :
  costTrail nodes currentEdges g T ->
  forall x, x ∈ T -> x ∈ costEntries nodes currentEdges.
Proof.
  induction 1 as [|m v T q _ IH Hin _ _ _]; intros x Hx; [inversion Hx|].
  apply elem_of_cons in Hx as [->|Hx]; [exact Hin | apply IH, Hx].
Qed.

(* A node entered on the trail has a g-score at most the sum of the trail. *)
Lemma costTrail_member (g : gmap string num) (T : list (string * Q)) (m : string) :
  costTrail nodes currentEdges g T -> m ∈ T.*1 ->
  exists q, g !! m = Some (Fin q) /\ q <= Qsum (T.*2).
Proof.
  induction 1 as [|m' v T q HT IH Hin _ Hq Hle]; intros Hm; [inversion Hm|].
  rewrite Qsum_snd_cons. rewrite fmap_cons in Hm.
  apply elem_of_cons in Hm as [->|Hm].
  - exists q. auto.
  - destruct (IH Hm) as (q' & Hq' & Hle'). exists q'. split; [exact Hq'|].
    pose proof (costEntries_pos m' v Hin). lra.
Qed.

Lemma costTrail_mono (g g' : gmap string num) (T : list (string * Q)) :
  (forall n q, g !! n = Some (Fin q) -> exists q', g' !! n = Some (Fin q') /\ q' <= q) ->
  costTrail nodes currentEdges g T -> costTrail nodes currentEdges g' T.
Proof.
  intros Hdec. induction 1 as [|m v T q _ IH Hin Hm Hq Hle]; [constructor|].
  destruct (Hdec m q Hq) as (q' & Hq' & Hle').
  apply (costTrail_cons _ _ _ m v T q'); try assumption. lra.
Qed.

Lemma costTrail_sum_in (g : gmap string num) (T : list (string * Q)) :
  costTrail nodes currentEdges g T ->
  exists v, v ∈ planSums nodes currentEdges /\ v == Qsum (T.*2).
Proof.
  intros HT. apply subset_sums_submseteq.
  apply fmap_submseteq, NoDup_submseteq.
  - eapply NoDup_fmap_1, costTrail_NoDup, HT.
  - apply (costTrail_entries g), HT.
Qed.

Lemma planRank_decreases (g : gmap string num) (T : list (string * Q)) (tq : Q)
    (old : option num) :
  costTrail nodes currentEdges g T -> tq == Qsum (T.*2) ->
  js_lt (Some (Fin tq)) old = true ->
  (rank (planSums nodes currentEdges) (Some (Fin tq))
   < rank (planSums nodes currentEdges) old)%nat.
Proof.
  intros HT Hsum Hless.
  destruct (js_lt_Fin_inv _ _ Hless) as [->|(qo & -> & Hlt)]; simpl.
  - pose proof (countBelow_length tq (planSums nodes currentEdges)). lia.
  - destruct (costTrail_sum_in g T HT) as (v0 & Hin & Hv0).
    apply (countBelow_strict tq qo v0); [exact Hin | lra | lra].
Qed.

Variables startId endId : string.

(* A turn of the for loop keeps the invariant and the g-score of the node
   expanded, and does not increase the measure. *)
Lemma relax_plan (current : string) (qc : Q) (st : AStar) (e : Edge.t) :
  e ∈ neighbors currentEdges current ->
  plan_inv nodes currentEdges startId st ->
  gScore st !! current = Some (Fin qc) ->
  plan_inv nodes currentEdges startId (relax nodes endId current st e)
  /\ gScore (relax nodes endId current st e) !! current = Some (Fin qc)
  /\ (planMeasure nodes currentEdges startId (relax nodes endId current st e)
      <= planMeasure nodes currentEdges startId st)%nat.
Proof.
  intros Hnb (Hdom & Hopen & Htrails & Hpred) Hcur.
  pose proof (relax_dom_known nodes startId endId current st e Hdom) as Hdom'.
  pose proof (relax_open_finite nodes endId current st e Hopen) as Hopen'.
  pose proof (stepCost_pos (cameFrom st) e current Hnb) as Hw.
  pose proof Hnb as Hnb'. apply neighbors_spec in Hnb' as [He Hconn].
  destruct (relax_cases nodes endId current st e) as [[Heq _]|(t & Ht & Hless & Heq)];
    rewrite Heq in *; clear Heq;
    [split; [repeat (split; [assumption|]); assumption | split; [exact Hcur | lia]]|].
  rewrite Hcur in Ht. cbn [js_add num_plus] in Ht. injection Ht as <-.
  set (v := neighborOf current e) in *.
  set (w := stepCost nodes (cameFrom st) current e) in *.
  set (tq := qc + w) in *.
  assert (Hvc : v <> current).
  { intros Heq. rewrite Heq, Hcur in Hless. simpl in Hless.
    apply Qltb_lt in Hless. unfold tq in Hless. lra. }
  destruct (Htrails current qc Hcur) as (Tc & HTc & Hsum).
  assert (Hfresh : v ∉ Tc.*1).
  { intros Hin. destruct (costTrail_member _ _ _ HTc Hin) as (q' & Hq' & Hle').
    rewrite Hq' in Hless. simpl in Hless. apply Qltb_lt in Hless. unfold tq in Hless. lra. }
  assert (Hdec : forall n q, gScore st !! n = Some (Fin q) ->
            exists q', <[v := Fin tq]> (gScore st) !! n = Some (Fin q') /\ q' <= q).
  { intros n q Hq. destruct (decide (v = n)) as [<-|Hne].
    - rewrite lookup_insert_eq. exists tq. split; [reflexivity|].
      rewrite Hq in Hless. simpl in Hless. apply Qltb_lt in Hless. lra.
    - rewrite lookup_insert_ne by exact Hne. exists q. split; [exact Hq | lra]. }
  assert (HT' : costTrail nodes currentEdges (<[v := Fin tq]> (gScore st)) ((v, w) :: Tc)).
  { apply (costTrail_cons _ _ _ v w Tc tq).
    - apply (costTrail_mono (gScore st)); assumption.
    - apply (stepCost_entry (cameFrom st) e current v); assumption.
    - exact Hfresh.
    - apply lookup_insert_eq.
    - unfold tq. lra. }
  cbn [openSet cameFrom gScore] in *.
  split; [split; [exact Hdom'|split; [exact Hopen'|split]]|split].
  - intros n q. cbn [gScore]. destruct (decide (v = n)) as [<-|Hne].
    + rewrite lookup_insert_eq. intros [= <-]. exists ((v, w) :: Tc).
      split; [exact HT'|]. rewrite Qsum_snd_cons. unfold tq. lra.
    + intros Hq. pose proof Hq as Hq'. rewrite lookup_insert_ne in Hq' by exact Hne.
      destruct (Htrails n q Hq') as (T & HT & HsumT). exists T.
      split; [|exact HsumT]. apply (costTrail_mono (gScore st)); assumption.
  - intros n c. cbn [cameFrom gScore]. destruct (decide (v = n)) as [<-|Hne].
    + rewrite lookup_insert_eq. intros [= <-]. exists qc, tq.
      rewrite lookup_insert_ne by exact Hvc. rewrite lookup_insert_eq.
      split; [exact Hcur|]. split; [reflexivity|]. unfold tq. lra.
    + rewrite lookup_insert_ne by exact Hne. intros Hn.
      destruct (Hpred n c Hn) as (qc' & qn & Hqc' & Hqn & Hlt).
      rewrite (lookup_insert_ne _ v n) by exact Hne.
      destruct (Hdec c qc' Hqc') as (q' & Hq' & Hle'). exists q', qn.
      split; [exact Hq'|]. split; [exact Hqn|]. lra.
  - rewrite lookup_insert_ne by exact Hvc. exact Hcur.
  - unfold planMeasure. cbn [openSet gScore].
    assert (Hrank : (rank (planSums nodes currentEdges) (Some (Fin tq))
                     < rank (planSums nodes currentEdges) (gScore st !! v))%nat).
    { eapply planRank_decreases;
        [exact HT' | rewrite Qsum_snd_cons; unfold tq; lra | exact Hless]. }
    assert (Hkey : v ∈ allKeys nodes startId).
    { apply known_allKeys, Hdom. destruct (gScore st !! v); [eauto|discriminate Hless]. }
    pose proof (potential_insert (planSums nodes currentEdges) (gScore st) v (Fin tq)
                  (allKeys nodes startId) Hkey Hrank).
    pose proof (set_add_length v (openSet st)). lia.
Qed.

Lemma fold_plan (current : string) (qc : Q) (es : list Edge.t) :
  forall st : AStar,
    (forall e, e ∈ es -> e ∈ neighbors currentEdges current) ->
    plan_inv nodes currentEdges startId st ->
    gScore st !! current = Some (Fin qc) ->
    plan_inv nodes currentEdges startId (fold_left (relax nodes endId current) es st)
    /\ (planMeasure nodes currentEdges startId (fold_left (relax nodes endId current) es st)
        <= planMeasure nodes currentEdges startId st)%nat.
Proof.
  induction es as [|e es IH]; intros st Hsub Hinv Hcur; simpl; [auto|].
  assert (He : e ∈ neighbors currentEdges current) by apply Hsub, list_elem_of_here.
  destruct (relax_plan current qc st e He Hinv Hcur) as (Hinv' & Hcur' & Hle).
  destruct (IH (relax nodes endId current st e)) as [Hinv'' Hle'']; try assumption.
  - intros e' He'. apply Hsub, list_elem_of_further, He'.
  - split; [exact Hinv''|lia].
Qed.

(* Every turn of the while loop that expands a node decreases the measure. *)
Lemma expand_plan (current : string) (st : AStar) :
  current ∈ openSet st ->
  plan_inv nodes currentEdges startId st ->
  plan_inv nodes currentEdges startId (expand nodes currentEdges endId current st)
  /\ (planMeasure nodes currentEdges startId (expand nodes currentEdges endId current st)
      < planMeasure nodes currentEdges startId st)%nat.
Proof.
  intros Hin (Hdom & Hopen & Htrails & Hpred).
  destruct (Hopen current Hin) as [qc Hqc]. unfold expand.
  set (st0 := {| openSet := set_delete current (openSet st); cameFrom := cameFrom st;
                 gScore := gScore st; fScore := fScore st |}).
  assert (H0 : plan_inv nodes currentEdges startId st0).
  { split; [exact Hdom|]. split; [|split; assumption].
    intros n Hn. apply elem_of_set_delete in Hn as [_ Hn]. apply Hopen, Hn. }
  destruct (fold_plan current qc (neighbors currentEdges current) st0
              (fun e H => H) H0 Hqc) as [Hinv' Hle].
  split; [exact Hinv'|].
  pose proof (set_delete_length current (openSet st) Hin) as Hlt.
  unfold planMeasure in *. subst st0. cbn [openSet gScore] in Hle. lia.
Qed.

Lemma astar_init_plan : plan_inv nodes currentEdges startId (astar_init nodes startId endId).
Proof.
  split; [apply init_dom_known|]. split; [apply astar_init_open_finite|]. split.
  - intros n q Hq. simpl in Hq. apply init_finite in Hq as [_ ->].
    exists []. split; [constructor | reflexivity].
  - intros n c Hn. simpl in Hn. rewrite lookup_empty in Hn. discriminate Hn.
Qed.

(* The reconstruction loop ends: g-scores decrease strictly along the
   predecessor links. *)
Lemma reconstruct_ends (st : AStar) :
  plan_inv nodes currentEdges startId st ->
  forall (fuel : nat) (n : string) (qn : Q) (acc : list string),
    gScore st !! n = Some (Fin qn) ->
    (keysBelow (gScore st) qn (allKeys nodes startId) <= fuel)%nat ->
    exists totalPath, reconstruct fuel (cameFrom st) n acc = Some totalPath.
Proof.
  intros (Hdom & Hopen & Htrails & Hpred).
  assert (Hstep : forall n c qn, cameFrom st !! n = Some c ->
            gScore st !! n = Some (Fin qn) ->
            exists qc, gScore st !! c = Some (Fin qc)
              /\ (keysBelow (gScore st) qc (allKeys nodes startId)
                  < keysBelow (gScore st) qn (allKeys nodes startId))%nat).
  { intros n c qn Hn Hqn.
    destruct (Hpred n c Hn) as (qc & qn' & Hqc & Hqn' & Hlt).
    rewrite Hqn in Hqn'. injection Hqn' as <-. exists qc. split; [exact Hqc|].
    apply (keysBelow_strict _ c); [|exact Hqc|exact Hlt].
    apply known_allKeys, Hdom. rewrite Hqc. eauto. }
  induction fuel as [|k IH]; intros n qn acc Hqn Hfuel; simpl.
  - destruct (cameFrom st !! n) as [c|] eqn:E; [|eauto].
    destruct (Hstep n c qn E Hqn) as (qc & _ & Hlt). lia.
  - destruct (cameFrom st !! n) as [c|] eqn:E; [|eauto].
    destruct (Hstep n c qn E Hqn) as (qc & Hqc & Hlt).
    apply (IH c qc); [exact Hqc | lia].
Qed.

Lemma search_ends (fuel : nat) :
  forall st : AStar,
    plan_inv nodes currentEdges startId st ->
    (planMeasure nodes currentEdges startId st + List.length (allKeys nodes startId)
     < fuel)%nat ->
    exists res, search fuel nodes currentEdges endId st = Some res.
Proof.
  induction fuel as [|k IH]; intros st Hinv Hfuel; [lia|]. simpl.
  destruct (openSet st) as [|a rest] eqn:Hopen; [eauto|].
  pose proof (lowest_elem (fScore st) rest a) as Hin. rewrite <- Hopen in Hin.
  destruct (String.eqb_spec (lowest (fScore st) a rest) endId) as [Hlow|Hlow].
  - assert (Hfin : open_finite st) by apply Hinv.
    destruct (Hfin _ Hin) as (q & Hq).
    destruct (reconstruct_ends st Hinv k (lowest (fScore st) a rest) q
                [lowest (fScore st) a rest] Hq) as (totalPath & ->).
    { pose proof (keysBelow_length (gScore st) q (allKeys nodes startId)). lia. }
    rewrite <- Hlow, Hq. eauto.
  - destruct (expand_plan _ st Hin Hinv) as [Hinv' Hlt].
    apply IH; [exact Hinv' | lia].
Qed.
End CostTrails.

(** ** The cases of the transitions *)

Lemma rerouteEffect_cases (fuel : nat) (clock : Clock) (s s' : Sim) :
  rerouteEffect fuel clock s = Some s' ->
  s' = s
  \/ (isPlaying s = false
      /\ exists result,
           findBestPath fuel (startNode s) (endNode s) (edges s) (nodes s)
           = Some (Some result)
           /\ s' = setProgressBetweenNodes 0
                     (setCarNodeIndex 0
                        (setEstimatedTime (Route.time result)
                           (setCurrentPath (Route.path result) s))))
  \/ (isPlaying s = true
      /\ exists currentNode newRoute,
           currentPath s !! carNodeIndex s = Some currentNode
           /\ findBestPath fuel currentNode (endNode s) (edges s) (nodes s)
              = Some (Some newRoute)
           /\ s' = commitReroute clock newRoute s).
Proof.
  unfold rerouteEffect. intros H. destruct (isPlaying s); simpl in H.
  - destruct (currentPath s !! carNodeIndex s) as [currentNode|];
      [|injection H as <-; auto].
    destruct (truthy currentNode && negb (String.eqb currentNode (endNode s)));
      [|injection H as <-; auto].
    destruct (findBestPath fuel currentNode _ _ _) as [[newRoute|]|] eqn:Eplan;
      [| injection H as <-; auto | discriminate H].
    repeat match type of H with
           | context [if ?c then _ else _] => destruct c
           end; injection H as <-; auto.
    right. right. split; [reflexivity|]. exists currentNode, newRoute. auto.
  - destruct (findBestPath fuel _ _ _ _) as [[result|]|];
      [| injection H as <-; auto | discriminate H].
    injection H as <-. right. left. split; [reflexivity|]. exists result. auto.
Qed.

Lemma moveTick_moved (clock : Clock) (s : Sim) : moved clock s (moveTick clock s).
Proof.
  unfold moveTick. destruct (isPlaying s) eqn:Eplay; simpl; [|apply moved_paused; exact Eplay].
  destruct (Z.leb_spec (Z.of_nat (List.length (currentPath s)) - 1)
              (Z.of_nat (carNodeIndex s))) as [Hend|Hin]; [constructor|].
  destruct (findEdge _ _ _) as [edge|] eqn:Eedge; [|constructor].
  destruct (lightIsRed _ _ && Qltb 0.85 _); [constructor|].
  destruct (Qle_bool 1 _) eqn:Ecmp.
  - apply moved_next. lia.
  - apply (moved_along _ _ edge); [exact Eedge|]. apply Qle_bool_false, Ecmp.
Qed.

Lemma tickNodes_frame (rnd : Tape) (l : list Node.t) :
  forall pos, nodeFrame <$> fst (tickNodes rnd pos l) = nodeFrame <$> l.
Proof.
  induction l as [|n l IH]; intros pos; [reflexivity|].
  cbn [tickNodes]. specialize (IH (S pos)).
  destruct (tickNodes rnd (S pos) l) as [r pos'].
  cbn [fst] in *. rewrite !fmap_cons, IH. f_equal.
  unfold toggleLight. destruct (Qltb 0.7 (rnd pos)); reflexivity.
Qed.

(* Every edge after the tick is the edge before it, or that edge with a
   new speed drawn. *)
Lemma tickEdges_Forall2 (rnd : Tape) (l : list Edge.t) :
  forall pos,
    Forall2 ticked l (fst (tickEdges rnd pos l)).
Proof.
  induction l as [|e l IH]; intros pos; simpl; [constructor|].
  destruct (isCongested e) eqn:Ec.
  - specialize (IH pos). destruct (tickEdges rnd pos l) as [r pos'].
    constructor; [left; auto | exact IH].
  - specialize (IH (S (S pos))). destruct (tickEdges rnd (S (S pos)) l) as [r pos'].
    constructor; [right; eauto | exact IH].
Qed.

Lemma tickEdges_frame (rnd : Tape) (l : list Edge.t) (pos : nat) :
  edgeFrame <$> fst (tickEdges rnd pos l) = edgeFrame <$> l.
Proof.
  pose proof (tickEdges_Forall2 rnd l pos) as H.
  induction H as [|e e' l l' He _ IH]; [reflexivity|].
  rewrite !fmap_cons, IH. f_equal.
  destruct He as [[_ ->]|(_ & r1 & r2 & ->)]; reflexivity.
Qed.

Lemma envTick_cases (rnd : Tape) (pos : nat) (s : Sim) :
  fst (envTick rnd pos s) = s
  \/ exists ns es,
       fst (envTick rnd pos s) = setEdges es (setNodes ns s)
       /\ nodeFrame <$> ns = nodeFrame <$> nodes s
       /\ Forall2 ticked (edges s) es.
Proof.
  unfold envTick. destruct (isPlaying s); [|auto]. right.
  pose proof (tickNodes_frame rnd (nodes s) pos) as Hn.
  destruct (tickNodes rnd pos (nodes s)) as [ns pos1].
  pose proof (tickEdges_Forall2 rnd (edges s) pos1) as He.
  destruct (tickEdges rnd pos1 (edges s)) as [es pos2]. simpl in *. eauto.
Qed.

Lemma Forall2_perturb_frame (l l' : list Edge.t) :
  Forall2 ticked l l' -> edgeFrame <$> l' = edgeFrame <$> l.
Proof.
  induction 1 as [|e e' l l' He _ IH]; [reflexivity|].
  rewrite !fmap_cons, IH. f_equal.
  destruct He as [[_ ->]|(_ & r1 & r2 & ->)]; reflexivity.
Qed.

Lemma triggerCongestion_frame (clock : Clock) (edgeId : string) (speed : Q)
    (reason : string) (s : Sim) :
  edgeFrame <$> edges (triggerCongestion clock edgeId speed reason s)
  = edgeFrame <$> edges s.
Proof.
  rewrite triggerCongestion_edges. induction (edges s) as [|e l IH]; [reflexivity|].
  cbn [map]. rewrite !fmap_cons. f_equal; [|exact IH].
  destruct (String.eqb (Edge.id e) edgeId); reflexivity.
Qed.

(** ** Paths joined by edges *)

Lemma joined_frame (es1 es2 : list Edge.t) (a b : string) :
  edgeFrame <$> es1 = edgeFrame <$> es2 -> joined es1 a b -> joined es2 a b.
Proof.
  intros Heq (e & He & Hc).
  apply (list_elem_of_fmap_2 edgeFrame) in He. rewrite Heq in He.
  apply list_elem_of_fmap in He as (e2 & Hf & He2).
  exists e2. split; [exact He2|].
  unfold edgeFrame in Hf. injection Hf as _ Hs Ht _ _ _.
  unfold connects in *. rewrite <- Hs, <- Ht. exact Hc.
Qed.

Lemma findEdge_joined (es : list Edge.t) (u v : string) :
  joined es u v ->
  exists e, findEdge es (Some u) (Some v) = Some e /\ e ∈ es /\ connects e u v.
Proof.
  intros (e0 & He0 & Hc0). unfold findEdge.
  destruct (List.find _ es) as [e|] eqn:E.
  - apply find_some in E as [Hin Hp]. exists e. split; [reflexivity|].
    split; [apply list_elem_of_In, Hin|].
    apply orb_true_iff in Hp as [Hp|Hp]; apply andb_true_iff in Hp as [H1 H2];
      apply String.eqb_eq in H1, H2; [left|right]; auto.
  - exfalso. apply list_elem_of_In in He0.
    pose proof (find_none _ _ E e0 He0) as Hp. simpl in Hp.
    destruct Hc0 as [[<- <-]|[<- <-]]; rewrite !String.eqb_refl in Hp; simpl in Hp;
      [discriminate Hp|]. rewrite orb_true_r in Hp. discriminate Hp.
Qed.

Lemma findEdge_Some (es : list Edge.t) (u v : option string) (e : Edge.t) :
  findEdge es u v = Some e -> e ∈ es.
Proof.
  unfold findEdge. destruct u as [u|]; [|discriminate]. destruct v as [v|]; [|discriminate].
  intros H. apply find_some in H as [Hin _]. apply list_elem_of_In, Hin.
Qed.

Lemma adjacent_lookup (l : list string) (i : nat) (u v : string) :
  l !! i = Some u -> l !! (i + 1)%nat = Some v -> adjacent u v l.
Proof.
  intros Hu Hv. exists (take i l), (drop (S (S i)) l).
  rewrite <- (take_drop i l) at 1. f_equal.
  rewrite (drop_S l u i Hu). f_equal.
  replace (i + 1)%nat with (S i) in Hv by lia.
  rewrite (drop_S l v (S i) Hv). reflexivity.
Qed.

Lemma adjacent_cons (a b x : string) (l : list string) :
  adjacent a b l -> adjacent a b (x :: l).
Proof. intros (l1 & l2 & ->). exists (x :: l1), l2. reflexivity. Qed.

Lemma adjacent_app_l (a b : string) (l rest : list string) :
  adjacent a b l -> adjacent a b (l ++ rest).
Proof.
  intros (l1 & l2 & ->). exists l1, (l2 ++ rest).
  rewrite <- app_assoc. reflexivity.
Qed.

(* A consecutive pair of [l1 ++ c :: l2] lies in [l1 ++ [c]] or in
   [c :: l2]. *)
Lemma adjacent_app_cases (a b c : string) (l1 l2 : list string) :
  adjacent a b (l1 ++ c :: l2) ->
  adjacent a b (l1 ++ [c]) \/ adjacent a b (c :: l2).
Proof.
  induction l1 as [|x l1 IH]; [auto|].
  intros (p & q & Heq). destruct p as [|y p]; simpl in Heq.
  - injection Heq as -> Heq. left. destruct l1 as [|z l1]; simpl in Heq.
    + injection Heq as -> _. exists [], []. reflexivity.
    + injection Heq as -> _. exists [], (l1 ++ [c]). reflexivity.
  - injection Heq as -> Heq.
    destruct IH as [H|H]; [exists p, q; exact Heq | left | right; exact H].
    apply adjacent_cons, H.
Qed.

Lemma findBestPath_linked (fuel : nat) (startId endId : string)
    (currentEdges : list Edge.t) (nodes : list Node.t) (r : Route.t) :
  findBestPath fuel startId endId currentEdges nodes = Some (Some r) ->
  pathLinked currentEdges (Route.path r)
  /\ (exists rest, Route.path r = startId :: rest)
  /\ last (Route.path r) = Some endId.
Proof.
  intros H. unfold findBestPath in H.
  destruct (astar_init_shape nodes currentEdges startId endId) as [Ho Hl].
  destruct (search_shape nodes currentEdges startId endId fuel _ r Ho Hl H)
    as (cf & l & Hchain & Hpath & Hlast & Hedges).
  split; [|split].
  - intros a b Hadj. rewrite Hpath in Hadj. apply adjacent_rev in Hadj.
    apply Hedges. exact (rchain_adjacent cf _ b a Hchain Hadj).
  - assert (Hhead : head (Route.path r) = Some startId).
    { rewrite Hpath, rev_reverse, head_reverse. exact Hlast. }
    destruct (Route.path r) as [|x rest]; [discriminate Hhead|].
    injection Hhead as ->. eauto.
  - rewrite Hpath, rev_reverse, last_reverse. reflexivity.
Qed.

(* The path of an accepted reroute is linked when the path before it and
   the new route are. *)
Lemma commit_linked (es : list Edge.t) (path rest : list string) (i : nat)
    (currentNode : string) :
  path !! i = Some currentNode ->
  pathLinked es path -> pathLinked es (currentNode :: rest) ->
  pathLinked es (take i path ++ currentNode :: rest).
Proof.
  intros Hi Hold Hnew a b Hadj.
  apply adjacent_app_cases in Hadj as [Hadj|Hadj]; [|apply Hnew, Hadj].
  apply Hold. rewrite <- (take_drop i path), (drop_S path currentNode i Hi).
  change (currentNode :: drop (S i) path) with ([currentNode] ++ drop (S i) path).
  rewrite app_assoc. apply adjacent_app_l, Hadj.
Qed.

Lemma handleReset_fields (INITIAL_EDGES : list Edge.t) (clock : Clock) (s : Sim) :
  let s' := handleReset INITIAL_EDGES clock s in
  carNodeIndex s' = 0%nat /\ progressBetweenNodes s' = 0
  /\ currentPath s' = currentPath s /\ edges s' = INITIAL_EDGES
  /\ nodes s' = nodes s /\ startNode s' = startNode s /\ endNode s' = endNode s.
Proof. repeat split; reflexivity. Qed.

Lemma handleNodeClick_cases (INITIAL_EDGES : list Edge.t) (clock : Clock)
    (id : string) (s : Sim) :
  let s' := handleNodeClick INITIAL_EDGES clock id s in
  s' = s
  \/ (carNodeIndex s' = 0%nat /\ progressBetweenNodes s' = 0
      /\ currentPath s' = currentPath s /\ edges s' = INITIAL_EDGES
      /\ nodes s' = nodes s
      /\ ((startNode s' = id /\ endNode s' = endNode s)
          \/ (startNode s' = startNode s /\ endNode s' = id))).
Proof.
  unfold handleNodeClick. destruct (selectionMode s) as [[|]|]; [right|right|left; reflexivity];
    repeat split; try reflexivity; [left|right]; split; reflexivity.
Qed.

(** ** Invariants of the component *)

(* Reads of a field after a handler. *)
Ltac handler_simpl := unfold triggerCongestion, commitReroute; sim_simpl.

Section Invariants.
Variable INITIAL_EDGES : list Edge.t.
Variable NODES : list Node.t.
Variable allowed : Sim -> string -> Q -> Prop.

Lemma initialSim_simInv : simInv INITIAL_EDGES NODES (initialSim INITIAL_EDGES NODES).
Proof.
  split; [split; reflexivity|]. split; [|left; reflexivity].
  intros a b (l1 & l2 & H). simpl in H. destruct l1; discriminate H.
Qed.

Lemma step_simInv (s s' : Sim) :
  step INITIAL_EDGES allowed s s' ->
  simInv INITIAL_EDGES NODES s -> simInv INITIAL_EDGES NODES s'.
Proof.
  intros Hstep ([Hnodes Hedges] & Hlinked & Hindex). destruct Hstep.
  - destruct (envTick_cases rnd pos s) as [->|(ns & es & -> & Hns & Hes)];
      [repeat split; assumption|].
    apply Forall2_perturb_frame in Hes.
    split; [split; sim_simpl; congruence|]. split; assumption.
  - apply rerouteEffect_cases in H
      as [->|[(_ & result & Hplan & ->)|(_ & cur & newRoute & Hcur & Hplan & ->)]].
    + repeat split; assumption.
    + split; [split; assumption|]. split; [|left; reflexivity].
      sim_simpl. apply findBestPath_linked in Hplan as (Hl & _ & _).
      intros a b Hab. eapply joined_frame; [exact Hedges | apply Hl, Hab].
    + apply findBestPath_linked in Hplan as (Hl & (rest & Hrest) & _).
      split; [split; assumption|]. unfold indexOk. handler_simpl. rewrite Hrest in *.
      split.
      * apply commit_linked; [exact Hcur | exact Hlinked|].
        intros a b Hab. eapply joined_frame; [exact Hedges | apply Hl, Hab].
      * right. rewrite length_app, length_take. apply lookup_lt_Some in Hcur.
        simpl. lia.
  - destruct (moveTick_moved clock s) as [_| | |dt dd Hlt|edge dt dd _ np _];
      (split; [split; assumption|]); (split; [assumption|]);
      try exact Hindex.
    right. sim_simpl. lia.
  - split; [split; [exact Hnodes|]|split; assumption].
    rewrite triggerCongestion_frame. exact Hedges.
  - unfold randomAccident. destruct (randomEdge r s); [|repeat split; assumption].
    split; [split; [exact Hnodes|]|split; assumption].
    rewrite triggerCongestion_frame. exact Hedges.
  - split; [split; [exact Hnodes|reflexivity]|]. split; [exact Hlinked|left; reflexivity].
  - unfold handleNodeClick. destruct (selectionMode s) as [[|]|];
      [| |repeat split; assumption];
      (split; [split; [exact Hnodes|reflexivity]|]);
      (split; [exact Hlinked|left; reflexivity]).
  - repeat split; assumption.
  - unfold togglePlay. destruct (negb (isPlaying s) && Nat.eqb (carNodeIndex s) 0);
      repeat split; assumption.
  - repeat split; assumption.
Qed.

Lemma reachable_simInv (s : Sim) :
  reachable INITIAL_EDGES NODES allowed s -> simInv INITIAL_EDGES NODES s.
Proof.
  induction 1 as [|s s' _ IH Hstep]; [apply initialSim_simInv|].
  exact (step_simInv s s' Hstep IH).
Qed.
End Invariants.

(** ** The position of the vehicle *)

Lemma perturb_whole (r1 r2 : Q) (e : Edge.t) :
  exists z, (5 <= z)%Z /\ Edge.currentSpeed (perturb r1 r2 e) = inject_Z z.
Proof.
  unfold perturb. cbn [Edge.currentSpeed]. unfold Math_floor.
  eexists. split; [|reflexivity].
  change 5%Z with (Qfloor 5). apply Qfloor_resp_le.
  destruct (Qltb 0.95 r2); apply Math_max_lower.
Qed.

Lemma perturb_drivable (r1 r2 : Q) (e : Edge.t) : drivable e -> drivable (perturb r1 r2 e).
Proof.
  intros [Hlen _]. split; [exact Hlen|].
  destruct (perturb_whole r1 r2 e) as (z & Hz & ->).
  change 0 with (inject_Z 0). rewrite <- Zle_Qle. lia.
Qed.

Lemma ticked_drivable (l l' : list Edge.t) :
  Forall2 ticked l l' -> Forall drivable l -> Forall drivable l'.
Proof.
  induction 1 as [|e e' l l' He _ IH]; intros Hall; [constructor|].
  inversion Hall as [|? ? Hd Hl]; subst. constructor; [|apply IH, Hl].
  destruct He as [[_ ->]|(_ & r1 & r2 & ->)]; [exact Hd | apply perturb_drivable, Hd].
Qed.

Lemma triggerCongestion_drivable (clock : Clock) (edgeId : string) (speed : Q)
    (reason : string) (s : Sim) :
  0 <= speed -> Forall drivable (edges s) ->
  Forall drivable (edges (triggerCongestion clock edgeId speed reason s)).
Proof.
  intros Hspeed Hall. rewrite triggerCongestion_edges.
  apply Forall_fmap. rewrite Forall_forall in Hall |- *.
  intros e He. simpl. destruct (String.eqb (Edge.id e) edgeId); [|apply Hall, He].
  destruct (Hall e He) as [Hlen _]. split; [exact Hlen | exact Hspeed].
Qed.

Section Progress.
Variable INITIAL_EDGES : list Edge.t.
Variable NODES : list Node.t.
Hypothesis initial_drivable : Forall drivable INITIAL_EDGES.

Lemma step_progressInv (s s' : Sim) :
  step INITIAL_EDGES nonnegIncident s s' -> progressInv s -> progressInv s'.
Proof.
  intros Hstep (Hall & Hlo & Hhi). destruct Hstep.
  - destruct (envTick_cases rnd pos s) as [->|(ns & es & -> & _ & Hes)];
      [repeat split; assumption|].
    split; [|split; assumption]. sim_simpl. eapply ticked_drivable; eassumption.
  - apply rerouteEffect_cases in H
      as [->|[(_ & result & _ & ->)|(_ & cur & newRoute & _ & _ & ->)]].
    + repeat split; assumption.
    + split; [exact Hall|]. sim_simpl. split; lra.
    + split; [exact Hall|]. split; assumption.
  - pose proof (moveTick_edges clock s) as Hedges. unfold progressInv.
    rewrite Hedges. split; [exact Hall|].
    destruct (moveTick_moved clock s) as [_| | |dt dd Hlt|edge dt dd Hedge np Hnp];
      sim_simpl; try (split; assumption); [split; lra|].
    split; [|exact Hnp]. apply findEdge_Some in Hedge.
    rewrite Forall_forall in Hall. destruct (Hall edge Hedge) as [Hlen Hspeed].
    assert (0 <= Edge.currentSpeed edge / Edge.length edge).
    { apply Qle_shift_div_l; [exact Hlen | lra]. }
    unfold np. nra.
  - split; [|handler_simpl; split; assumption].
    apply triggerCongestion_drivable; [exact H | exact Hall].
  - unfold randomAccident. destruct (randomEdge r s) as [e|] eqn:E;
      [|repeat split; assumption].
    split; [|handler_simpl; split; assumption].
    apply triggerCongestion_drivable; [exact (H e eq_refl) | exact Hall].
  - destruct (handleReset_fields INITIAL_EDGES clock s) as (_ & Hp & _ & He & _).
    unfold progressInv. rewrite Hp, He. split; [exact initial_drivable|]. split; lra.
  - destruct (handleNodeClick_cases INITIAL_EDGES clock id s)
      as [->|(_ & Hp & _ & He & _)]; [repeat split; assumption|].
    unfold progressInv. rewrite Hp, He. split; [exact initial_drivable|]. split; lra.
  - repeat split; assumption.
  - unfold togglePlay. destruct (negb (isPlaying s) && Nat.eqb (carNodeIndex s) 0);
      repeat split; assumption.
  - repeat split; assumption.
Qed.

Lemma reachable_progressInv (s : Sim) :
  reachable INITIAL_EDGES NODES nonnegIncident s -> progressInv s.
Proof.
  induction 1 as [|s s' _ IH Hstep].
  - split; [exact initial_drivable|]. simpl. split; lra.
  - exact (step_progressInv s s' Hstep IH).
Qed.
End Progress.

(** ** The states of the page *)

Lemma step_path (INITIAL_EDGES : list Edge.t) (allowed : Sim -> string -> Q -> Prop)
    (s s' : Sim) :
  step INITIAL_EDGES allowed s s' ->
  currentPath s' = currentPath s
  \/ exists fuel clock, rerouteEffect fuel clock s = Some s'.
Proof.
  intros Hstep. destruct Hstep; try (left; reflexivity).
  - left. destruct (envTick_cases rnd pos s) as [->|(ns & es & -> & _)]; reflexivity.
  - right. eauto.
  - left. destruct (moveTick_moved clock s); reflexivity.
  - left. unfold randomAccident. destruct (randomEdge r s); reflexivity.
  - left. destruct (handleNodeClick_cases INITIAL_EDGES clock id s)
      as [->|(_ & _ & Hp & _)]; [reflexivity | exact Hp].
  - left. unfold togglePlay.
    destruct (negb (isPlaying s) && Nat.eqb (carNodeIndex s) 0); reflexivity.
Qed.

Lemma step_mono (INITIAL_EDGES : list Edge.t) (A B : Sim -> string -> Q -> Prop)
    (s s' : Sim) :
  (forall s edgeId speed, A s edgeId speed -> B s edgeId speed) ->
  step INITIAL_EDGES A s s' -> step INITIAL_EDGES B s s'.
Proof.
  intros HAB Hstep. destruct Hstep; try (constructor; fail).
  - eapply step_plan; eassumption.
  - apply step_incident, HAB. assumption.
  - apply step_accident. intros e He. apply HAB. auto.
Qed.

Lemma node_ids_frame (l1 l2 : list Node.t) :
  nodeFrame <$> l1 = nodeFrame <$> l2 -> Node.id <$> l1 = Node.id <$> l2.
Proof.
  intros H. apply (f_equal (fmap (fun f : string * Q * Q * string => f.1.1.1))) in H.
  rewrite <- !list_fmap_compose in H. exact H.
Qed.

Lemma find_node_frame (id : string) (l1 : list Node.t) :
  forall l2, nodeFrame <$> l1 = nodeFrame <$> l2 ->
    nodeFrame <$> find_node l1 id = nodeFrame <$> find_node l2 id.
Proof.
  unfold find_node.
  induction l1 as [|n1 l1 IH]; intros [|n2 l2] H; try discriminate H; [reflexivity|].
  rewrite !fmap_cons in H. injection H as Hid Hx Hy Hlabel Hl. simpl.
  rewrite Hid. destruct (String.eqb (Node.id n2) id); [|apply IH, Hl].
  change (Some (nodeFrame n1) = Some (nodeFrame n2)). unfold nodeFrame. congruence.
Qed.

Lemma find_node_Some (nodes : list Node.t) (id : string) :
  isNodeId nodes id ->
  exists n, find_node nodes id = Some n /\ n ∈ nodes /\ Node.id n = id.
Proof.
  unfold isNodeId, find_node. intros Hin.
  apply list_elem_of_fmap in Hin as (n0 & -> & Hn0).
  destruct (List.find _ nodes) as [n|] eqn:E.
  - apply find_some in E as [Hin Heq]. exists n. split; [reflexivity|].
    split; [apply list_elem_of_In, Hin | apply String.eqb_eq, Heq].
  - apply list_elem_of_In in Hn0. pose proof (find_none _ _ E n0 Hn0) as H.
    simpl in H. rewrite String.eqb_refl in H. discriminate H.
Qed.

Lemma findBestPath_known (fuel : nat) (startId endId : string)
    (currentEdges : list Edge.t) (nodes : list Node.t) (r : Route.t) :
  findBestPath fuel startId endId currentEdges nodes = Some (Some r) ->
  forall n, n ∈ Route.path r -> known nodes startId n.
Proof.
  intros H.
  apply (search_known nodes currentEdges startId endId fuel
           (astar_init nodes startId endId) r);
    [apply init_dom_known | apply astar_init_links_known | exact H].
Qed.

Lemma perturb_pageSpeedOk (r1 r2 : Q) (e : Edge.t) :
  pageSpeedOk e -> pageSpeedOk (perturb r1 r2 e).
Proof.
  intros (_ & _ & Hlimit & Hslow).
  destruct (perturb_speedInvariant r1 r2 e Hlimit Hslow) as (_ & Hlo & Hhi).
  split; [left; exact Hlo|]. split; [exact Hhi|]. split; assumption.
Qed.

Lemma ticked_pageSpeedOk (l l' : list Edge.t) :
  Forall2 ticked l l' -> Forall pageSpeedOk l -> Forall pageSpeedOk l'.
Proof.
  induction 1 as [|e e' l l' He _ IH]; intros Hall; [constructor|].
  inversion Hall as [|? ? Hd Hl]; subst. constructor; [|apply IH, Hl].
  destruct He as [[_ ->]|(_ & r1 & r2 & ->)]; [exact Hd | apply perturb_pageSpeedOk, Hd].
Qed.

Lemma triggerCongestion_pageSpeedOk (clock : Clock) (edgeId : string)
    (reason : string) (s : Sim) :
  Forall pageSpeedOk (edges s) ->
  Forall pageSpeedOk (edges (triggerCongestion clock edgeId 2 reason s)).
Proof.
  intros Hall. rewrite triggerCongestion_edges.
  apply Forall_fmap. rewrite Forall_forall in Hall |- *.
  intros e He. simpl. destruct (String.eqb (Edge.id e) edgeId); [|apply Hall, He].
  destruct (Hall e He) as (_ & _ & Hlimit & Hslow).
  split; [right; reflexivity|]. split; [simpl; lra|]. split; assumption.
Qed.

Lemma edgeOk_pageSpeedOk (e : Edge.t) : edgeOk e -> pageSpeedOk e.
Proof.
  intros [(_ & Hlo & Hhi) Hslow]. split; [left; exact Hlo|].
  split; [exact Hhi|]. split; [lra | exact Hslow].
Qed.

Section Page.
Variable INITIAL_EDGES : list Edge.t.
Variable NODES : list Node.t.

Lemma onPage_reachable (allowed : Sim -> string -> Q -> Prop) (s : Sim) :
  (forall s edgeId, allowed s edgeId 2) ->
  onPage INITIAL_EDGES NODES s -> reachable INITIAL_EDGES NODES allowed s.
Proof.
  intros Hall. induction 1 as [|s s' _ IH Hstep _]; [constructor|].
  apply (reachable_step _ _ _ s s' IH).
  apply (step_mono INITIAL_EDGES pageIncident); [|exact Hstep].
  intros s0 edgeId speed ->. apply Hall.
Qed.

Lemma onPage_simInv (s : Sim) :
  onPage INITIAL_EDGES NODES s -> simInv INITIAL_EDGES NODES s.
Proof.
  intros H. apply (reachable_simInv INITIAL_EDGES NODES anyIncident).
  apply onPage_reachable; [|exact H]. intros; exact I.
Qed.

Lemma onPage_progressInv (s : Sim) :
  Forall drivable INITIAL_EDGES -> onPage INITIAL_EDGES NODES s -> progressInv s.
Proof.
  intros Hd H. apply (reachable_progressInv INITIAL_EDGES NODES Hd).
  apply onPage_reachable; [|exact H]. intros; unfold nonnegIncident; lra.
Qed.

Lemma onPage_pathKnown (s : Sim) :
  onPage INITIAL_EDGES NODES s -> pathKnown NODES s.
Proof.
  induction 1 as [|s s' Hs IH Hstep [Hstart _]];
    [intros n Hn; inversion Hn|].
  destruct (step_path _ _ _ _ Hstep) as [Hsame|(fuel & clock & Hplan)].
  { unfold pathKnown. rewrite Hsame. exact IH. }
  destruct (onPage_simInv s Hs) as ([Hnodes _] & _ & _).
  apply node_ids_frame in Hnodes.
  apply rerouteEffect_cases in Hplan
    as [->|[(_ & result & Hplan & ->)|(_ & cur & newRoute & Hcur & Hplan & ->)]];
    [exact IH| |]; intros n Hn.
  - apply (findBestPath_known _ _ _ _ _ _ Hplan) in Hn as [->|Hn].
    + unfold isNodeId in *. rewrite <- Hnodes. exact Hstart.
    + unfold isNodeId. rewrite <- Hnodes. exact Hn.
  - change (n ∈ take (carNodeIndex s) (currentPath s) ++ Route.path newRoute) in Hn.
    apply elem_of_app in Hn as [Hn|Hn].
    + apply IH. apply elem_of_take in Hn as (i & Hi & _).
      eapply list_elem_of_lookup_2, Hi.
    + apply (findBestPath_known _ _ _ _ _ _ Hplan) in Hn as [->|Hn].
      * apply IH. eapply list_elem_of_lookup_2, Hcur.
      * unfold isNodeId. rewrite <- Hnodes. exact Hn.
Qed.

Lemma onPage_pageSpeedOk (s : Sim) :
  Forall edgeOk INITIAL_EDGES ->
  onPage INITIAL_EDGES NODES s -> Forall pageSpeedOk (edges s).
Proof.
  intros Hinit.
  assert (Hinit' : Forall pageSpeedOk INITIAL_EDGES).
  { eapply Forall_impl; [exact Hinit | apply edgeOk_pageSpeedOk]. }
  induction 1 as [|s s' _ IH Hstep _]; [exact Hinit'|].
  destruct Hstep.
  - destruct (envTick_cases rnd pos s) as [->|(ns & es & -> & _ & Hes)]; [exact IH|].
    sim_simpl. eapply ticked_pageSpeedOk; eassumption.
  - erewrite rerouteEffect_edges by eassumption. exact IH.
  - rewrite moveTick_edges. exact IH.
  - unfold pageIncident in H. subst speed. apply triggerCongestion_pageSpeedOk, IH.
  - unfold randomAccident. destruct (randomEdge r s); [|exact IH].
    apply triggerCongestion_pageSpeedOk, IH.
  - exact Hinit'.
  - destruct (handleNodeClick_cases INITIAL_EDGES clock id s)
      as [->|(_ & _ & _ & -> & _)]; [exact IH | exact Hinit'].
  - exact IH.
  - unfold togglePlay. destruct (negb (isPlaying s) && Nat.eqb (carNodeIndex s) 0);
      exact IH.
  - exact IH.
Qed.
End Page.

(** ** Drawing the vehicle *)

Lemma frame_inBox (NODES nodes : list Node.t) (x0 x1 y0 y1 : Q) (n : Node.t) :
  nodeFrame <$> nodes = nodeFrame <$> NODES ->
  Forall (fun n => inBox x0 x1 y0 y1 (Node.x n, Node.y n)) NODES ->
  n ∈ nodes -> inBox x0 x1 y0 y1 (Node.x n, Node.y n).
Proof.
  intros Hframe Hall Hn.
  apply (list_elem_of_fmap_2 nodeFrame) in Hn. rewrite Hframe in Hn.
  apply list_elem_of_fmap in Hn as (n0 & Hf & Hn0).
  rewrite Forall_forall in Hall. specialize (Hall n0 Hn0).
  unfold nodeFrame in Hf. injection Hf as _ Hx Hy _. rewrite Hx, Hy. exact Hall.
Qed.

(* A point between two points of the rectangle is in the rectangle. *)
Lemma inBox_between (x0 x1 y0 y1 ux uy vx vy p : Q) :
  inBox x0 x1 y0 y1 (ux, uy) -> inBox x0 x1 y0 y1 (vx, vy) -> 0 <= p -> p <= 1 ->
  inBox x0 x1 y0 y1 (ux + (vx - ux) * p, uy + (vy - uy) * p).
Proof.
  unfold inBox. simpl. intros [[? ?] [? ?]] [[? ?] [? ?]] Hp0 Hp1.
  repeat split; nra.
Qed.

Lemma orElse_cases (l : list string) (i : nat) (u : string) :
  l !! i = Some u ->
  exists v, orElse (l !! (i + 1)%nat) (l !! i) = Some v /\ v ∈ l.
Proof.
  intros Hu. rewrite Hu. unfold orElse.
  destruct (l !! (i + 1)%nat) as [w|] eqn:Ew.
  - destruct (truthy w).
    + exists w. split; [reflexivity | eapply list_elem_of_lookup_2, Ew].
    + exists u. split; [reflexivity | eapply list_elem_of_lookup_2, Hu].
  - exists u. split; [reflexivity | eapply list_elem_of_lookup_2, Hu].
Qed.

(** X11.  In every state the page can reach, getCarCoords returns a point
    (the two non-null assertions on the nodes found never fail): the origin
    while there is no path, and otherwise a point of any rectangle that
    holds the nodes of the map. *)
Theorem car_drawn_on_map (INITIAL_EDGES : list Edge.t) (NODES : list Node.t)
    (x0 x1 y0 y1 : Q) (s : Sim) :
  Forall drivable INITIAL_EDGES ->
  Forall (fun n => inBox x0 x1 y0 y1 (Node.x n, Node.y n)) NODES ->
  onPage INITIAL_EDGES NODES s ->
  exists p, getCarCoords s = Some p
            /\ ((currentPath s = [] /\ p = (0, 0)) \/ inBox x0 x1 y0 y1 p).
Proof.
  intros Hdrive Hbox Hpage. unfold getCarCoords.
  destruct (currentPath s) as [|a l] eqn:Epath; [simpl; eauto|].
  rewrite <- Epath. replace (List.length (currentPath s) =? 0)%nat with false
    by (rewrite Epath; reflexivity).
  destruct (onPage_simInv _ _ _ Hpage) as ([Hnodes _] & _ & Hindex).
  pose proof (onPage_pathKnown _ _ _ Hpage) as Hknown.
  destruct (onPage_progressInv _ _ _ Hdrive Hpage) as (_ & Hp0 & Hp1).
  assert (Hlt : (carNodeIndex s < List.length (currentPath s))%nat).
  { destruct Hindex as [->|H]; [rewrite Epath; simpl; lia | exact H]. }
  apply lookup_lt_is_Some in Hlt as [u Hu].
  destruct (orElse_cases _ _ _ Hu) as (v & Hv & Hvin). rewrite Hv, Hu. simpl.
  assert (Hfind : forall n, n ∈ currentPath s ->
            exists node, find_node (nodes s) n = Some node
                         /\ inBox x0 x1 y0 y1 (Node.x node, Node.y node)).
  { intros n Hn. apply Hknown in Hn. unfold isNodeId in Hn.
    rewrite <- (node_ids_frame _ _ Hnodes) in Hn.
    apply find_node_Some in Hn as (node & Hnode & Hin & _).
    exists node. split; [exact Hnode|]. eapply frame_inBox; eassumption. }
  destruct (Hfind u) as (nu & -> & Hbu); [eapply list_elem_of_lookup_2, Hu|].
  destruct (Hfind v Hvin) as (nv & -> & Hbv).
  eexists. split; [reflexivity|]. right.
  apply inBox_between; [assumption | assumption | exact Hp0 | lra].
Qed.

(** ** The heuristic on a map *)

Lemma heuristic_nonneg (nodes : list Node.t) (endId id : string) :
  0 <= heuristic nodes endId id.
Proof.
  unfold heuristic. destruct (find_node nodes id) as [n|]; [|lra].
  destruct (find_node nodes endId) as [t|]; [|lra].
  pose proof (Qabs_nonneg (Node.x n - Node.x t)).
  pose proof (Qabs_nonneg (Node.y n - Node.y t)).
  unfold Math_abs. cbv zeta. apply Qle_shift_div_l; lra.
Qed.

Lemma heuristic_triangle (nodes : list Node.t) (endId a b : string) :
  isNodeId nodes a -> isNodeId nodes b ->
  heuristic nodes endId a <= heuristic nodes b a + heuristic nodes endId b.
Proof.
  intros Ha Hb. pose proof (heuristic_nonneg nodes b a) as Hab.
  apply find_node_Some in Ha as (na & Ha & _). apply find_node_Some in Hb as (nb & Hb & _).
  unfold heuristic in *. rewrite Ha, Hb in *.
  destruct (find_node nodes endId) as [t|]; [|lra].
  unfold Math_abs in *. cbv zeta in *.
  pose proof (Qabs_triangle (Node.x na - Node.x nb) (Node.x nb - Node.x t)) as Hx.
  pose proof (Qabs_triangle (Node.y na - Node.y nb) (Node.y nb - Node.y t)) as Hy.
  rewrite (Qabs_wd _ (Node.x na - Node.x t)) in Hx by ring.
  rewrite (Qabs_wd _ (Node.y na - Node.y t)) in Hy by ring.
  unfold Qdiv. rewrite <- Qmult_plus_distr_l.
  apply Qmult_le_compat_r; [lra | discriminate].
Qed.

Lemma heuristic_frame (NODES nodes : list Node.t) (endId id : string) :
  nodeFrame <$> nodes = nodeFrame <$> NODES ->
  heuristic nodes endId id = heuristic NODES endId id.
Proof.
  intros Hframe. unfold heuristic.
  pose proof (find_node_frame id _ _ Hframe) as H1.
  pose proof (find_node_frame endId _ _ Hframe) as H2.
  destruct (find_node nodes id) as [n|], (find_node NODES id) as [n'|];
    try discriminate H1; [|reflexivity].
  destruct (find_node nodes endId) as [t|], (find_node NODES endId) as [t'|];
    try discriminate H2; [|reflexivity].
  injection H1 as _ Hx Hy _. injection H2 as _ Hx' Hy' _.
  rewrite Hx, Hy, Hx', Hy'. reflexivity.
Qed.

(* The travel time of an edge under its limit is at least the time at the
   limit. *)
Lemma baseTime_at_limit (e : Edge.t) :
  0 < Edge.length e -> 5 <= Edge.limit e -> Edge.currentSpeed e <= Edge.limit e ->
  Edge.length e / Edge.limit e * 60 <= baseTime e.
Proof.
  intros Hlen Hlimit Hspeed. unfold baseTime.
  set (m := Math_max 0.1 (Edge.currentSpeed e)).
  assert (Hm : 0 < m /\ m <= Edge.limit e).
  { unfold m. destruct (Math_max_spec 0.1 (Edge.currentSpeed e)) as [[? ->]|[? ->]]; lra. }
  destruct Hm as [Hm0 Hm1].
  assert (Edge.length e / Edge.limit e <= Edge.length e / m); [|lra].
  apply Qle_shift_div_l; [exact Hm0|].
  assert (Heq : Edge.length e / Edge.limit e * m
                == Edge.length e * (m / Edge.limit e)) by (field; lra).
  rewrite Heq.
  assert (m / Edge.limit e <= 1) by (apply Qle_shift_div_r; lra).
  nra.
Qed.

(* A condition on the edges that gives consistency: the estimate between
   the two ends of an edge is at most its travel time. *)
Lemma consistent_of_edges (nodes : list Node.t) (currentEdges : list Edge.t)
    (endId : string) :
  (forall e, e ∈ currentEdges ->
     isNodeId nodes (Edge.source e) /\ isNodeId nodes (Edge.target e)
     /\ heuristic nodes (Edge.target e) (Edge.source e) <= baseTime e
     /\ heuristic nodes (Edge.source e) (Edge.target e) <= baseTime e) ->
  consistent nodes currentEdges endId.
Proof.
  intros Hall e a b He Hc. destruct (Hall e He) as (Hs & Ht & H1 & H2).
  pose proof (lightPenalty_nonneg nodes b). unfold staticCost.
  destruct Hc as [[<- <-]|[<- <-]].
  - pose proof (heuristic_triangle nodes endId _ _ Hs Ht). lra.
  - pose proof (heuristic_triangle nodes endId _ _ Ht Hs). lra.
Qed.

Lemma heuristic_sym (nodes : list Node.t) (a b : string) :
  heuristic nodes a b == heuristic nodes b a.
Proof.
  unfold heuristic.
  destruct (find_node nodes b) as [nb|], (find_node nodes a) as [na|]; try reflexivity.
  unfold Math_abs. cbv zeta.
  rewrite (Qabs_wd (Node.x nb - Node.x na) (- (Node.x na - Node.x nb))) by ring.
  rewrite (Qabs_wd (Node.y nb - Node.y na) (- (Node.y na - Node.y nb))) by ring.
  rewrite !Qabs_opp. reflexivity.
Qed.


(** ** Incidents *)

(** X17.  For a draw in [0, 1), the accident button picks an edge of the
    list that is not an incident, whenever there is one; it picks none only
    when every edge is an incident, and the click then does nothing. *)
Theorem randomEdge_picks_free_edge (r : Q) (s : Sim) :
  0 <= r -> r < 1 ->
  match randomEdge r s with
  | Some e => e ∈ edges s /\ isCongested e = false
  | None => forall e, e ∈ edges s -> isCongested e = true
  end.
Proof.
  intros Hr0 Hr1. unfold randomEdge.
  set (validEdges := List.filter (fun e => negb (isCongested e)) (edges s)).
  set (n := Z.of_nat (List.length validEdges)).
  set (i := Qfloor (r * inject_Z n)).
  assert (Hn : 0 <= inject_Z n).
  { change 0 with (inject_Z 0). rewrite <- Zle_Qle. lia. }
  assert (Hi0 : (0 <= i)%Z).
  { change 0%Z with (Qfloor 0). apply Qfloor_resp_le. nra. }
  apply Z.leb_le in Hi0 as Hleb. rewrite Hleb.
  destruct (validEdges !! Z.to_nat i) as [e|] eqn:E.
  - apply list_elem_of_lookup_2 in E. apply list_elem_of_In, filter_In in E as [Hin Hc].
    split; [apply list_elem_of_In, Hin|]. apply negb_true_iff, Hc.
  - apply lookup_ge_None in E.
    assert (Hzero : n = 0%Z).
    { destruct (Z.eq_dec n 0%Z) as [|Hne]; [assumption|exfalso].
      assert (Hpos : 0 < inject_Z n).
      { change 0 with (inject_Z 0). rewrite <- Zlt_Qlt. lia. }
      assert (Hlt : inject_Z i < inject_Z n).
      { eapply Qle_lt_trans; [apply Qfloor_le|]. nra. }
      rewrite <- Zlt_Qlt in Hlt. lia. }
    intros e He. destruct (isCongested e) eqn:Ec; [reflexivity|exfalso].
    assert (Hin : In e validEdges).
    { apply filter_In. split; [apply list_elem_of_In, He|]. rewrite Ec. reflexivity. }
    destruct validEdges; [inversion Hin | simpl in n; lia].
Qed.

(** X18.  triggerCongestion with an id that no edge has is not refused and
    changes nothing: the edge list is left as it is, and the alert handed
    to addLog is not stored, since the log keeps `slice(100)` of what it is
    given.  From the empty log, the log of every state the component
    reaches, the state after the call is the state before it. *)
Theorem triggerCongestion_unknown_edge (clock : Clock) (edgeId : string)
    (speed : Q) (reason : string) (s : Sim) :
  (forall e, e ∈ edges s -> Edge.id e <> edgeId) ->
  edges (triggerCongestion clock edgeId speed reason s) = edges s
  /\ logs (triggerCongestion clock edgeId speed reason s)
     = drop 100 (SimulationLog.mk (now clock) (toLocaleTimeString clock)
                   (MsgVanetAlert reason edgeId speed) error :: logs s)
  /\ (logs s = [] -> triggerCongestion clock edgeId speed reason s = s).
Proof.
  intros Hnone.
  assert (Hedges : edges (triggerCongestion clock edgeId speed reason s) = edges s).
  { rewrite triggerCongestion_edges.
    induction (edges s) as [|e l IH]; [reflexivity|]. simpl.
    destruct (String.eqb_spec (Edge.id e) edgeId) as [Heq|_].
    - exfalso. apply (Hnone e); [apply list_elem_of_here | exact Heq].
    - f_equal. apply IH. intros e' He'. apply Hnone, list_elem_of_further, He'. }
  split; [exact Hedges|]. split; [reflexivity|].
  intros Hlogs. rewrite triggerCongestion_edges in Hedges.
  unfold triggerCongestion, addLog, setLogs, setEdges, addLogEntry.
  cbn [edges nodes startNode endNode selectionMode isPlaying carNodeIndex
       progressBetweenNodes isWaitingForLight currentPath estimatedTime
       penaltyWeight logs metrics].
  rewrite Hedges, Hlogs. destruct s. cbn in Hlogs |- *. rewrite Hlogs. reflexivity.
Qed.

(** X19.  A second injection on the same edge id overrides the first: the
    edges are those that the second injection alone gives. *)
Theorem triggerCongestion_last_wins (clock clock' : Clock) (edgeId : string)
    (speed speed' : Q) (reason reason' : string) (s : Sim) :
  edges (triggerCongestion clock' edgeId speed' reason'
           (triggerCongestion clock edgeId speed reason s))
  = edges (triggerCongestion clock' edgeId speed' reason' s).
Proof.
  rewrite !triggerCongestion_edges, map_map. apply map_ext. intros e.
  destruct (String.eqb (Edge.id e) edgeId) eqn:E; simpl; rewrite E; reflexivity.
Qed.

(** ** The environment tick *)

(** X15.  After an environment tick of a running simulation, the speed of
    every edge that is not an incident is a whole number of km/h, 5 at
    least, whatever the draws and whatever the speeds before the tick. *)
Theorem envTick_speeds_whole (rnd : Tape) (pos : nat) (s : Sim) (e' : Edge.t) :
  isPlaying s = true ->
  e' ∈ edges (fst (envTick rnd pos s)) -> isCongested e' = false ->
  exists z, (5 <= z)%Z /\ Edge.currentSpeed e' = inject_Z z.
Proof.
  intros Hplay Hin Hfree. rewrite envTick_edges, Hplay in Hin.
  pose proof (tickEdges_Forall2 rnd (edges s)
                (snd (tickNodes rnd pos (nodes s)))) as Hall.
  apply list_elem_of_lookup_1 in Hin as [i Hi].
  destruct (Forall2_lookup_r _ _ _ _ _ Hall Hi) as (e & _ & [[Hc ->]|(_ & r1 & r2 & ->)]).
  - congruence.
  - apply perturb_whole.
Qed.

(* The draws of one tick: one for each node, two for each edge that is not
   an incident. *)
Lemma tickNodes_draws (rnd : Tape) (l : list Node.t) :
  forall pos, snd (tickNodes rnd pos l) = (pos + List.length l)%nat.
Proof.
  induction l as [|n l IH]; intros pos; simpl; [lia|].
  specialize (IH (S pos)). destruct (tickNodes rnd (S pos) l). simpl in *. lia.
Qed.

Lemma tickEdges_draws (rnd : Tape) (l : list Edge.t) :
  forall pos,
    snd (tickEdges rnd pos l)
    = (pos + 2 * List.length (List.filter (fun e => negb (isCongested e)) l))%nat.
Proof.
  induction l as [|e l IH]; intros pos; simpl; [lia|].
  destruct (isCongested e); simpl.
  - specialize (IH pos). destruct (tickEdges rnd pos l). simpl in *. lia.
  - specialize (IH (S (S pos))). destruct (tickEdges rnd (S (S pos)) l). simpl in *. lia.
Qed.

(** X16.  An environment tick of a running simulation reads Math.random
    once for each node and twice for each edge that is not an incident, and
    not at all for an incident edge. *)
Theorem envTick_draws (rnd : Tape) (pos : nat) (s : Sim) :
  isPlaying s = true ->
  snd (envTick rnd pos s)
  = (pos + List.length (nodes s)
     + 2 * List.length (List.filter (fun e => negb (isCongested e)) (edges s)))%nat.
Proof.
  intros Hplay. unfold envTick. rewrite Hplay.
  pose proof (tickNodes_draws rnd (nodes s) pos) as Hn.
  destruct (tickNodes rnd pos (nodes s)) as [ns pos1].
  pose proof (tickEdges_draws rnd (edges s) pos1) as He.
  destruct (tickEdges rnd pos1 (edges s)) as [es pos2]. simpl in *. lia.
Qed.

(** ** Rerouting *)

(** X12.  While the simulation runs, the replanning effect leaves the
    position of the vehicle and the path up to and including the current
    node as they are; a path that it changes ends at endNode. *)
Theorem reroute_keeps_travelled_prefix (fuel : nat) (clock : Clock) (s s' : Sim) :
  isPlaying s = true ->
  rerouteEffect fuel clock s = Some s' ->
  carNodeIndex s' = carNodeIndex s
  /\ progressBetweenNodes s' = progressBetweenNodes s
  /\ take (S (carNodeIndex s)) (currentPath s') = take (S (carNodeIndex s)) (currentPath s)
  /\ (currentPath s' = currentPath s \/ last (currentPath s') = Some (endNode s)).
Proof.
  intros Hplay H.
  apply rerouteEffect_cases in H
    as [->|[(Hpaused & _)|(_ & cur & newRoute & Hcur & Hplan & ->)]];
    [auto | congruence |].
  apply findBestPath_linked in Hplan as (_ & (rest & Hrest) & Hlast).
  unfold commitReroute. sim_simpl. rewrite Hrest in *.
  split; [reflexivity|]. split; [reflexivity|]. split.
  - rewrite (take_S_r _ _ _ Hcur).
    assert (Hlen : List.length (take (carNodeIndex s) (currentPath s)) = carNodeIndex s).
    { rewrite length_take. apply lookup_lt_Some in Hcur. lia. }
    rewrite take_app_ge by lia. rewrite Hlen.
    replace (S (carNodeIndex s) - carNodeIndex s)%nat with 1%nat by lia. reflexivity.
  - right. rewrite last_app, Hlast. reflexivity.
Qed.

(** ** The movement of the vehicle *)

Lemma moveTick_green (clock : Clock) (s : Sim) (edge : Edge.t) :
  isPlaying s = true ->
  (S (carNodeIndex s) < List.length (currentPath s))%nat ->
  findEdge (edges s) (currentPath s !! carNodeIndex s)
    (currentPath s !! (carNodeIndex s + 1)%nat) = Some edge ->
  lightIsRed (nodes s) (currentPath s !! (carNodeIndex s + 1)%nat) = false ->
  let stepSize := Edge.currentSpeed edge / Edge.length edge * 0.005 in
  let newProgress := progressBetweenNodes s + stepSize in
  moveTick clock s
  = setMetrics (addTime 0.02 (stepSize * Edge.length edge))
      (if Qle_bool 1 newProgress
       then setProgressBetweenNodes 0
              (setCarNodeIndex (carNodeIndex s + 1)%nat (setIsWaitingForLight false s))
       else setProgressBetweenNodes newProgress (setIsWaitingForLight false s)).
Proof.
  intros Hplay Hlen Hedge Hgreen. unfold moveTick. rewrite Hplay. simpl.
  destruct (Z.leb_spec (Z.of_nat (List.length (currentPath s)) - 1)
              (Z.of_nat (carNodeIndex s))) as [H|_]; [lia|].
  rewrite Hedge, Hgreen. reflexivity.
Qed.

(* On the exact sums: k ticks with progress + k x step >= 1 bring the
   vehicle to the next node. *)
Lemma moveTicks_cover (clock : Clock) (edge : Edge.t) (k : nat) :
  forall s : Sim,
    isPlaying s = true ->
    (S (carNodeIndex s) < List.length (currentPath s))%nat ->
    findEdge (edges s) (currentPath s !! carNodeIndex s)
      (currentPath s !! (carNodeIndex s + 1)%nat) = Some edge ->
    lightIsRed (nodes s) (currentPath s !! (carNodeIndex s + 1)%nat) = false ->
    progressBetweenNodes s < 1 ->
    1 <= progressBetweenNodes s
         + inject_Z (Z.of_nat k) * (Edge.currentSpeed edge / Edge.length edge * 0.005) ->
    exists j, (1 <= j <= k)%nat
      /\ carNodeIndex (moveTicks clock j s) = S (carNodeIndex s)
      /\ progressBetweenNodes (moveTicks clock j s) = 0.
Proof.
  set (stepSize := Edge.currentSpeed edge / Edge.length edge * 0.005).
  induction k as [|k IH]; intros s Hplay Hlen Hedge Hgreen Hp Hk.
  { change (inject_Z (Z.of_nat 0)) with 0 in Hk. rewrite Qmult_0_l, Qplus_0_r in Hk. lra. }
  pose proof (moveTick_green clock s edge Hplay Hlen Hedge Hgreen) as Htick.
  fold stepSize in Htick. cbv zeta in Htick.
  destruct (Qle_bool 1 (progressBetweenNodes s + stepSize)) eqn:Ecmp.
  - exists 1%nat. unfold moveTicks. simpl. rewrite Htick. sim_simpl.
    split; [lia|]. split; [lia|]. reflexivity.
  - apply Qle_bool_false in Ecmp.
    destruct (IH (moveTick clock s)) as (j & Hj & Hidx & Hprog);
      try (rewrite Htick; sim_simpl; assumption).
    { rewrite Htick. sim_simpl. rewrite Nat2Z.inj_succ, <- Z.add_1_r, inject_Z_plus in Hk.
      fold stepSize. change (inject_Z 1) with 1 in Hk. lra. }
    exists (S j). unfold moveTicks in *. rewrite Nat.iter_succ_r.
    split; [lia|]. split; [rewrite Hidx, Htick; reflexivity|]. exact Hprog.
Qed.

(** X14.  With the edge between the current and the next path node found,
    the light ahead not red, a step of at least a thousandth of the edge
    (on the page a step is at least 0.0113: 2 km/h on 0.88 km), and k
    steps enough to cover what is left of the edge (progress + k x step >=
    1), the vehicle is at the next node of the path, with progress 0, after
    at least one and at most k + 1 movement ticks in a row.  The tick
    beyond k is for the rounding of the running sum in the code, which
    stays far below one step when the steps are not smaller than that. *)
Theorem moveTicks_reach_next_node (clock : Clock) (edge : Edge.t) (k : nat) (s : Sim) :
  isPlaying s = true ->
  (S (carNodeIndex s) < List.length (currentPath s))%nat ->
  findEdge (edges s) (currentPath s !! carNodeIndex s)
    (currentPath s !! (carNodeIndex s + 1)%nat) = Some edge ->
  lightIsRed (nodes s) (currentPath s !! (carNodeIndex s + 1)%nat) = false ->
  0 <= progressBetweenNodes s < 1 ->
  0.001 <= Edge.currentSpeed edge / Edge.length edge * 0.005 ->
  1 <= progressBetweenNodes s
       + inject_Z (Z.of_nat k) * (Edge.currentSpeed edge / Edge.length edge * 0.005) ->
  exists j, (1 <= j <= S k)%nat
    /\ carNodeIndex (moveTicks clock j s) = S (carNodeIndex s)
    /\ progressBetweenNodes (moveTicks clock j s) = 0.
Proof.
  intros Hplay Hlen Hedge Hgreen [_ Hp] _ Hk.
  destruct (moveTicks_cover clock edge k s Hplay Hlen Hedge Hgreen Hp Hk)
    as (j & Hj & Hidx & Hprog).
  exists j. split; [lia|]. split; assumption.
Qed.

(** ** Drawing the edges *)

Lemma legAt_spec (path : list string) (e : Edge.t) (i : nat) :
  legAt path e i = true
  <-> exists a b, path !! i = Some a /\ path !! (i + 1)%nat = Some b /\ connects e b a.
Proof.
  unfold legAt, connects. split.
  - destruct (path !! i) as [a|]; [|discriminate].
    destruct (path !! (i + 1)%nat) as [b|]; [|discriminate].
    intros H. exists a, b. split; [reflexivity|]. split; [reflexivity|].
    apply orb_true_iff in H as [H|H]; apply andb_true_iff in H as [H1 H2];
      apply String.eqb_eq in H1, H2; subst; auto.
  - intros (a & b & -> & -> & [[<- <-]|[<- <-]]); rewrite !String.eqb_refl; simpl;
      [apply orb_true_r | reflexivity].
Qed.

Lemma isPath_spec (path : list string) (e : Edge.t) :
  isPath path e = true <-> exists i, legAt path e i = true.
Proof.
  unfold isPath.
  assert (Hgen : forall (l : list nat) (acc : bool),
            fold_left (fun isPath i => if legAt path e i then true else isPath) l acc
            = true <-> acc = true \/ exists i, i ∈ l /\ legAt path e i = true).
  { induction l as [|i l IH]; intros acc; simpl.
    - split; [auto|]. intros [H|(i & Hi & _)]; [exact H | inversion Hi].
    - rewrite IH. split.
      + intros [H|(j & Hj & Hleg)].
        * destruct (legAt path e i) eqn:E; [|auto].
          right. exists i. split; [apply list_elem_of_here | exact E].
        * right. exists j. split; [apply list_elem_of_further, Hj | exact Hleg].
      + intros [->|(j & Hj & Hleg)].
        * left. destruct (legAt path e i); reflexivity.
        * apply elem_of_cons in Hj as [->|Hj]; [left; rewrite Hleg; reflexivity|].
          right. eauto. }
  rewrite Hgen. split.
  - intros [H|(i & _ & Hleg)]; [discriminate H | eauto].
  - intros (i & Hleg). right. exists i. split; [|exact Hleg].
    apply legAt_spec in Hleg as (a & b & _ & Hb & _).
    apply lookup_lt_Some in Hb. apply elem_of_seq. lia.
Qed.

Lemma lookup_adjacent (l : list string) (a b : string) :
  adjacent a b l -> exists i, l !! i = Some a /\ l !! (i + 1)%nat = Some b.
Proof.
  intros (l1 & l2 & ->). exists (List.length l1).
  rewrite !lookup_app_r by lia.
  replace (List.length l1 - List.length l1)%nat with 0%nat by lia.
  replace (List.length l1 + 1 - List.length l1)%nat with 1%nat by lia.
  split; reflexivity.
Qed.

(** X21.  An edge is drawn in the colour of the path, #3b82f6, exactly when
    it joins two consecutive nodes of the committed path, in either
    direction; none of the three speed colours is that colour. *)
Theorem edge_blue_iff_leg_of_path (s : Sim) (e : Edge.t) :
  strokeColor s e = "#3b82f6"
  <-> exists a b, adjacent a b (currentPath s) /\ connects e a b.
Proof.
  unfold strokeColor, getEdgeColor.
  assert (Hleg : isPath (currentPath s) e = true
                 <-> exists a b, adjacent a b (currentPath s) /\ connects e a b).
  { rewrite isPath_spec. split.
    - intros (i & Hi). apply legAt_spec in Hi as (a & b & Ha & Hb & Hc).
      exists a, b. split; [eapply adjacent_lookup; eassumption|].
      destruct Hc as [[? ?]|[? ?]]; [right|left]; auto.
    - intros (a & b & Hadj & Hc). apply lookup_adjacent in Hadj as (i & Ha & Hb).
      exists i. apply legAt_spec. exists a, b. split; [exact Ha|]. split; [exact Hb|].
      destruct Hc as [[? ?]|[? ?]]; [right|left]; auto. }
  rewrite <- Hleg. destruct (isPath (currentPath s) e); [split; reflexivity|].
  split; [|discriminate].
  destruct (Qltb 0.7 _); [discriminate|]. destruct (Qltb 0.3 _); discriminate.
Qed.

(** ** The planner: reachability, termination, known nodes *)

(* Whatever the speed is, the speed of baseTime is at least 0.1: the
   lengths alone bound the weights. *)
Lemma weightOf_bound (nodes : list Node.t) (e : Edge.t) (n : string) (turn : Q) :
  0 <= turn <= 0.15 ->
  Qabs (weightOf nodes e n turn) <= 720 * Qabs (Edge.length e) + 0.78.
Proof.
  intros [Ht0 Ht1]. unfold weightOf.
  pose proof (lightPenalty_nonneg nodes n) as Hl0.
  assert (Hl1 : lightPenalty nodes n <= 0.5).
  { unfold lightPenalty. destruct (find_node nodes n) as [t|]; [|lra].
    destruct (Node.lightStatus t) as [[|]|]; lra. }
  assert (Hb : Qabs (baseTime e) <= 600 * Qabs (Edge.length e)).
  { unfold baseTime. cbv zeta.
    pose proof (Math_max_lower 0.1 (Edge.currentSpeed e)) as [Hm _].
    set (m := Math_max 0.1 (Edge.currentSpeed e)) in *.
    unfold Qdiv. rewrite !Qabs_Qmult.
    assert (Hinv : 0 <= / m <= 10).
    { split; [apply Qinv_le_0_compat; lra|].
      apply Qle_shift_inv_r; lra. }
    rewrite (Qabs_pos (/ m)) by lra. rewrite (Qabs_pos 60) by lra.
    pose proof (Qabs_nonneg (Edge.length e)) as Hn.
    assert (H1 : Qabs (Edge.length e) * / m <= Qabs (Edge.length e) * 10).
    { rewrite (Qmult_comm _ (/ m)), (Qmult_comm _ 10).
      apply Qmult_le_compat_r; lra. }
    lra. }
  rewrite Qabs_Qmult.
  assert (Hsum : Qabs (baseTime e + lightPenalty nodes n + turn)
                 <= 600 * Qabs (Edge.length e) + 0.65).
  { apply Qabs_Qle_condition. apply Qabs_Qle_condition in Hb. split; lra. }
  assert (Hf : 0 <= Qabs (roadLevelFactor e) <= 1.2).
  { unfold roadLevelFactor. destruct (Qle_bool 60 (Edge.limit e));
      rewrite Qabs_pos; lra. }
  pose proof (Qabs_nonneg (baseTime e + lightPenalty nodes n + turn)) as Hn.
  pose proof (Qabs_nonneg (Edge.length e)) as Hn'.
  apply Qle_trans with ((600 * Qabs (Edge.length e) + 0.65) * 1.2); [|lra].
  apply Qle_trans with (Qabs (baseTime e + lightPenalty nodes n + turn) * 1.2).
  - rewrite (Qmult_comm _ (Qabs (roadLevelFactor e))), (Qmult_comm _ 1.2).
    apply Qmult_le_compat_r; lra.
  - apply Qmult_le_compat_r; lra.
Qed.

Lemma costEntries_bound (nodes : list Node.t) (currentEdges : list Edge.t) :
  Qsum (Qabs <$> (costEntries nodes currentEdges).*2)
  <= Qsum ((fun e => 4 * (720 * Qabs (Edge.length e) + 0.78)) <$> currentEdges).
Proof.
  induction currentEdges as [|e es IH]; [simpl; lra|].
  change (costEntries nodes (e :: es))
    with ([(Edge.target e, weightOf nodes e (Edge.target e) 0);
           (Edge.target e, weightOf nodes e (Edge.target e) 0.15);
           (Edge.source e, weightOf nodes e (Edge.source e) 0);
           (Edge.source e, weightOf nodes e (Edge.source e) 0.15)]
          ++ costEntries nodes es).
  rewrite !fmap_app, !fmap_cons. cbn [app fmap list_fmap Qsum snd].
  pose proof (weightOf_bound nodes e (Edge.target e) 0) as H1.
  pose proof (weightOf_bound nodes e (Edge.target e) 0.15) as H2.
  pose proof (weightOf_bound nodes e (Edge.source e) 0) as H3.
  pose proof (weightOf_bound nodes e (Edge.source e) 0.15) as H4.
  assert (H0 : 0 <= 0 <= 0.15) by (split; lra).
  assert (H15 : 0 <= 0.15 <= 0.15) by (split; lra).
  specialize (H1 H0). specialize (H2 H15). specialize (H3 H0). specialize (H4 H15).
  lra.
Qed.

(* In every state reached on a map of positive lengths that add up to less
   than 10^196 km, with ids that are not names of Object.prototype, the
   planner is called within the domain of the statements below, whatever
   the speeds, the lights and the incidents are. *)
Lemma reachable_planner_domain (INITIAL_EDGES : list Edge.t) (NODES : list Node.t)
    (allowed : Sim -> string -> Q -> Prop) (s : Sim) (startId : string) :
  Forall (fun n => Node.id n ∉ Object_prototype) NODES ->
  Forall (fun e => 0 < Edge.length e) INITIAL_EDGES ->
  Qsum ((fun e => 4 * (720 * Qabs (Edge.length e) + 0.78)) <$> INITIAL_EDGES)
    <= inject_Z (10 ^ 200) ->
  reachable INITIAL_EDGES NODES allowed s ->
  isNodeId NODES startId ->
  plainIds (nodes s) startId
  /\ costsInRange (nodes s) (edges s)
  /\ positiveLengths (edges s).
Proof.
  intros Hplain Hpos Hsum Hreach Hstart.
  destruct (reachable_simInv _ _ _ _ Hreach) as [[Hnodes Hedges] _].
  assert (Hids : Node.id <$> nodes s = Node.id <$> NODES) by apply node_ids_frame, Hnodes.
  assert (Hlen : Edge.length <$> edges s = Edge.length <$> INITIAL_EDGES).
  { apply (f_equal (fmap (fun f : string * string * string * Q * Q * Q => f.1.1.2))) in Hedges.
    rewrite <- !list_fmap_compose in Hedges. exact Hedges. }
  assert (Hall : forall id, id ∈ (Node.id <$> nodes s) -> id ∉ Object_prototype).
  { rewrite Hids. intros id Hid. apply list_elem_of_fmap in Hid as (n & -> & Hn).
    rewrite Forall_forall in Hplain. apply Hplain, Hn. }
  split; [|split].
  - split; [apply Hall; rewrite Hids; exact Hstart|].
    apply Forall_forall. intros n Hn. apply Hall, list_elem_of_fmap. eauto.
  - unfold costsInRange. eapply Qle_trans; [apply costEntries_bound|].
    replace ((fun e => 4 * (720 * Qabs (Edge.length e) + 0.78)) <$> edges s)
      with ((fun l => 4 * (720 * Qabs l + 0.78)) <$> (Edge.length <$> edges s))
      by (rewrite <- list_fmap_compose; reflexivity).
    rewrite Hlen, <- list_fmap_compose. exact Hsum.
  - intros e He.
    assert (Hl : Edge.length e ∈ (Edge.length <$> edges s))
      by (apply list_elem_of_fmap; eauto).
    rewrite Hlen in Hl. apply list_elem_of_fmap in Hl as (e0 & -> & He0).
    rewrite Forall_forall in Hpos. apply Hpos, He0.
Qed.

(* The generated map is such a map. *)
Lemma grid_planner_domain :
  Forall (fun n => Node.id n ∉ Object_prototype) constants.NODES
  /\ Forall (fun e => 0 < Edge.length e) constants.INITIAL_EDGES
  /\ Qsum ((fun e => 4 * (720 * Qabs (Edge.length e) + 0.78)) <$> constants.INITIAL_EDGES)
     <= inject_Z (10 ^ 200).
Proof.
  split; [compute_done|]. split; [compute_done|].
  unfold Qle. vm_compute. discriminate.
Qed.

(* The ids of the generated map hold no comma and are not empty. *)
Lemma grid_commaFree :
  Forall (fun n => commaFree (Node.id n) /\ truthy (Node.id n) = true) constants.NODES.
Proof. compute_done. Qed.

(* On the page the replanning branch compares paths of such ids: the
   committed path and every candidate hold ids of nodes of the generated
   map. *)
Lemma onPage_reroute_ids (s : Sim) (fuel : nat) (currentNode : string)
    (newRoute : Route.t) :
  onPage constants.INITIAL_EDGES constants.NODES s ->
  currentPath s !! carNodeIndex s = Some currentNode ->
  findBestPath fuel currentNode (endNode s) (edges s) (nodes s) = Some (Some newRoute) ->
  truthy currentNode = true
  /\ Forall commaFree (currentPath s)
  /\ Forall commaFree (Route.path newRoute).
Proof.
  intros Hpage Hcur Hplan.
  pose proof (onPage_pathKnown _ _ s Hpage) as Hknown.
  destruct (onPage_simInv _ _ s Hpage) as ([Hnodes _] & _ & _).
  apply node_ids_frame in Hnodes.
  assert (Hid : forall n, isNodeId constants.NODES n -> commaFree n /\ truthy n = true).
  { intros n Hn. apply list_elem_of_fmap in Hn as (node & -> & Hnode).
    pose proof grid_commaFree as Hall. rewrite Forall_forall in Hall. apply Hall, Hnode. }
  assert (Hc : isNodeId constants.NODES currentNode).
  { apply Hknown. eapply list_elem_of_lookup_2, Hcur. }
  split; [apply Hid, Hc|]. split; apply Forall_forall; intros n Hn.
  - apply Hid, Hknown, Hn.
  - apply (findBestPath_known _ _ _ _ _ _ Hplan) in Hn as [->|Hn]; [apply Hid, Hc|].
    apply Hid. unfold isNodeId. rewrite <- Hnodes. exact Hn.
Qed.

(** X1.  For every amount of fuel, on every graph whose ids are not names
    of Object.prototype and whose weights are in the range where no sum
    overflows, findBestPath returns null only when the goal cannot be
    reached from the start along edges of the list through ids the score
    tables hold (the start and the ids of the nodes): within that range no
    weight, of either sign, no heuristic value and no speed makes it miss
    a goal that is connected to the start.  The calls of the page, from a
    node of the generated map, are within this domain in every state
    ([reachable_planner_domain], [grid_planner_domain]). *)
Theorem findBestPath_null_unreachable (fuel : nat) (startId endId : string)
    (currentEdges : list Edge.t) (nodes : list Node.t) :
  plainIds nodes startId ->
  costsInRange nodes currentEdges ->
  findBestPath fuel startId endId currentEdges nodes = Some None ->
  forall c, ~ walk nodes currentEdges startId startId endId c.
Proof.
  intros _ _ H. apply (search_null_unreachable nodes currentEdges startId endId fuel
                     (astar_init nodes startId endId)); [|exact H].
  apply astar_init_reach.
Qed.

(* The path returned is a walk from the start to the goal. *)
Lemma rchain_walk (nodes : list Node.t) (currentEdges : list Edge.t)
    (startId : string) (cf : gmap string string) (l : list string) :
  rchain cf l ->
  (forall n c, cf !! n = Some c -> exists e, e ∈ currentEdges /\ connects e c n) ->
  (forall n, n ∈ l -> known nodes startId n) ->
  forall b l', l = b :: l' -> last l = Some startId ->
    exists c, walk nodes currentEdges startId startId b c.
Proof.
  intros Hchain Hedges. induction Hchain as [r Hr|b a l Hb _ IH];
    intros Hknown b' l' [= <- <-] Hlast.
  - simpl in Hlast. injection Hlast as ->. exists 0. constructor.
  - destruct (IH (fun n Hn => Hknown n (list_elem_of_further _ _ _ Hn)) a l eq_refl)
      as [c Hc]; [rewrite last_cons_cons in Hlast; exact Hlast|].
    destruct (Hedges b a Hb) as (e & He & Hconn).
    exists (c + staticCost nodes e b).
    apply (walk_step _ _ _ _ a b c e); try assumption.
    apply Hknown, list_elem_of_here.
Qed.

Lemma findBestPath_walk (fuel : nat) (startId endId : string)
    (currentEdges : list Edge.t) (nodes : list Node.t) (r : Route.t) :
  findBestPath fuel startId endId currentEdges nodes = Some (Some r) ->
  exists c, walk nodes currentEdges startId startId endId c.
Proof.
  intros H. pose proof (findBestPath_known _ _ _ _ _ _ H) as Hknown.
  unfold findBestPath in H.
  destruct (astar_init_shape nodes currentEdges startId endId) as [Ho Hl].
  destruct (search_shape nodes currentEdges startId endId fuel _ r Ho Hl H)
    as (cf & l & Hchain & Hpath & Hlast & Hedges).
  apply (rchain_walk nodes currentEdges startId cf (endId :: l) Hchain Hedges)
    with (l' := l); [|reflexivity|exact Hlast].
  intros n Hn. apply Hknown. rewrite Hpath, rev_reverse, elem_of_reverse. exact Hn.
Qed.

(** X2.  On a graph of positive lengths, with ids that are not names of
    Object.prototype and weights in the range where no sum overflows, the
    loops of findBestPath end, with the turn penalty and the road-level
    factor in the weights: from [planFuel] turns on, the call returns a
    route when the goal can be reached from the start, and null when it
    cannot.  The calls of the page, from a node of the generated map, are
    within this domain in every state ([reachable_planner_domain],
    [grid_planner_domain]). *)
Theorem findBestPath_decides_reachability (fuel : nat) (startId endId : string)
    (currentEdges : list Edge.t) (nodes : list Node.t) :
  plainIds nodes startId ->
  costsInRange nodes currentEdges ->
  positiveLengths currentEdges ->
  (planFuel nodes currentEdges startId endId <= fuel)%nat ->
  ((exists r, findBestPath fuel startId endId currentEdges nodes = Some (Some r))
   /\ exists c, walk nodes currentEdges startId startId endId c)
  \/ (findBestPath fuel startId endId currentEdges nodes = Some None
      /\ forall c, ~ walk nodes currentEdges startId startId endId c).
Proof.
  intros _ _ Hlen Hfuel.
  destruct (search_ends nodes currentEdges Hlen startId endId fuel
              (astar_init nodes startId endId)) as [[r|] Hres].
  - apply astar_init_plan.
  - unfold planFuel in Hfuel. lia.
  - left. split; [exists r; exact Hres|]. eapply findBestPath_walk, Hres.
  - right. split; [exact Hres|].
    apply (search_null_unreachable nodes currentEdges startId endId fuel
             (astar_init nodes startId endId)); [apply astar_init_reach | exact Hres].
Qed.

(** X3.  With a start and node ids that are not names of Object.prototype,
    every id on a path returned by findBestPath is the start or the id of a
    node of the list: an edge whose other end is not a node is never taken,
    since the g-score read for it is not a number and the comparison with
    it is false. *)
Theorem findBestPath_visits_known_nodes (fuel : nat) (startId endId : string)
    (currentEdges : list Edge.t) (nodes : list Node.t) (r : Route.t) :
  plainIds nodes startId ->
  findBestPath fuel startId endId currentEdges nodes = Some (Some r) ->
  forall n, n ∈ Route.path r -> n = startId \/ exists node, node ∈ nodes /\ Node.id node = n.
Proof.
  intros _ H n Hn. apply (findBestPath_known _ _ _ _ _ _ H) in Hn as [->|Hn]; [auto|].
  right. apply list_elem_of_fmap in Hn as (node & -> & Hnode). eauto.
Qed.

(** X4.  Asked for a route from an id to itself, findBestPath returns the
    one-node path with time 0 at the first turn of the loop, whatever the
    edges and the nodes are, when the id is not the name of a property of
    Object.prototype (for such a name `current in cameFrom` holds on the
    empty table of the code, and the path gets a second element). *)
Theorem findBestPath_start_is_goal (fuel : nat) (startId : string)
    (currentEdges : list Edge.t) (nodes : list Node.t) :
  startId ∉ Object_prototype ->
  findBestPath (S fuel) startId startId currentEdges nodes
  = Some (Some {| Route.path := [startId]; Route.time := 0 |}).
Proof.
  intros _. unfold findBestPath. cbn [search astar_init openSet fScore cameFrom gScore lowest fold_left].
  rewrite String.eqb_refl, lookup_insert_eq.
  destruct fuel; simpl; rewrite lookup_empty; reflexivity.
Qed.

(** ** The generated map and the page on it *)

Lemma grid_edgeOk : Forall edgeOk constants.INITIAL_EDGES.
Proof. compute_done. Qed.

Lemma grid_drivable : Forall drivable constants.INITIAL_EDGES.
Proof. compute_done. Qed.

Lemma grid_estimateOk : Forall (estimateOk constants.NODES) constants.INITIAL_EDGES.
Proof. compute_done. Qed.

Lemma grid_inBox : Forall (fun n => inBox 50 750 50 550 (Node.x n, Node.y n)) constants.NODES.
Proof. compute_done. Qed.

Lemma pageDriving_onPage : onPage constants.INITIAL_EDGES constants.NODES pageDriving.
Proof.
  assert (Hvalid : forall s, nodes s = constants.NODES -> startNode s = "1" -> endNode s = "81" ->
            validEndpoints s).
  { intros s Hn Hs He. unfold validEndpoints, isNodeId. rewrite Hn, Hs, He.
    split; compute_done. }
  apply (onPage_step _ _ (togglePlay noon pagePlanned)).
  - apply (onPage_step _ _ pagePlanned).
    + apply (onPage_step _ _ pageStart); [constructor| |].
      * apply (step_plan _ _ 200%nat noon). vm_compute. reflexivity.
      * apply Hvalid; vm_compute; reflexivity.
    + apply step_play.
    + apply Hvalid; vm_compute; reflexivity.
  - apply step_move.
  - apply Hvalid; vm_compute; reflexivity.
Qed.

(** X6.  No transition of the component changes the map: in every state
    reached from the initial one, whatever the incidents are, the nodes
    have the ids, coordinates and labels of NODES and the edges have the
    ids, ends, lengths, limits and base speeds of INITIAL_EDGES, in the
    same order; only lights, current speeds and incident flags differ. *)
Theorem map_never_changes (INITIAL_EDGES : list Edge.t) (NODES : list Node.t)
    (allowed : Sim -> string -> Q -> Prop) (s : Sim) :
  reachable INITIAL_EDGES NODES allowed s -> sameMap INITIAL_EDGES NODES s.
Proof. intros H. apply (reachable_simInv _ _ _ _ H). Qed.

(** X7.  In every state reached from the initial one, every two
    consecutive nodes of the committed path are joined by an edge of the
    current edge list, so the edge lookup of the movement tick finds an
    edge: the branch that logs "Error: Path connectivity lost" is never
    taken. *)
Theorem path_connectivity_never_lost (INITIAL_EDGES : list Edge.t)
    (NODES : list Node.t) (allowed : Sim -> string -> Q -> Prop) (s : Sim)
    (i : nat) (u v : string) :
  reachable INITIAL_EDGES NODES allowed s ->
  currentPath s !! i = Some u -> currentPath s !! (i + 1)%nat = Some v ->
  exists edge, findEdge (edges s) (Some u) (Some v) = Some edge /\ connects edge u v.
Proof.
  intros Hreach Hu Hv.
  destruct (reachable_simInv _ _ _ _ Hreach) as ([_ Hedges] & Hlinked & _).
  pose proof (Hlinked u v (adjacent_lookup _ _ _ _ Hu Hv)) as Hjoin.
  apply (joined_frame _ (edges s)) in Hjoin; [|symmetry; exact Hedges].
  destruct (findEdge_joined _ _ _ Hjoin) as (edge & Hfind & _ & Hc). eauto.
Qed.

(** X8.  In every state reached from the initial one, carNodeIndex is an
    index of the committed path, or 0 (the value it has while there is no
    path and after a reset). *)
Theorem vehicle_index_in_path (INITIAL_EDGES : list Edge.t) (NODES : list Node.t)
    (allowed : Sim -> string -> Q -> Prop) (s : Sim) :
  reachable INITIAL_EDGES NODES allowed s ->
  carNodeIndex s = 0%nat \/ (carNodeIndex s < List.length (currentPath s))%nat.
Proof. intros H. apply (reachable_simInv _ _ _ _ H). Qed.

(** X9.  From initial edges of positive length and of a speed that is not
    negative, and with injections that force no negative speed, the
    progress along the current edge is at least 0 and less than 1 in every
    state reached from the initial one. *)
Theorem progress_in_unit_interval (INITIAL_EDGES : list Edge.t) (NODES : list Node.t)
    (s : Sim) :
  Forall drivable INITIAL_EDGES ->
  reachable INITIAL_EDGES NODES nonnegIncident s ->
  0 <= progressBetweenNodes s /\ progressBetweenNodes s < 1.
Proof. intros Hd H. apply (reachable_progressInv _ _ Hd _ H). Qed.


(** X22.  The generator of constants.ts builds its map with no createEdge
    that fails: 81 nodes with distinct comma-free ids and 144 edges with
    distinct ids, each joining two different nodes of the map at a positive
    length and satisfying the speed invariant and the slowdown bound. *)
Theorem generated_grid_wellformed :
  constants.generateEdges = Some constants.INITIAL_EDGES
  /\ List.length constants.NODES = 81%nat /\ List.length constants.INITIAL_EDGES = 144%nat
  /\ NoDup (Node.id <$> constants.NODES)
  /\ NoDup (Edge.id <$> constants.INITIAL_EDGES)
  /\ Forall commaFree (Node.id <$> constants.NODES)
  /\ Forall (fun e => isNodeId constants.NODES (Edge.source e) /\ isNodeId constants.NODES (Edge.target e)
                      /\ Edge.source e <> Edge.target e /\ 0 < Edge.length e)
       constants.INITIAL_EDGES
  /\ Forall edgeOk constants.INITIAL_EDGES.
Proof. unfold isNodeId. repeat split; compute_done. Qed.

Lemma pageDriving_reachable (allowed : Sim -> string -> Q -> Prop) :
  (forall s edgeId, allowed s edgeId 2) ->
  reachable constants.INITIAL_EDGES constants.NODES allowed pageDriving.
Proof. intros H. apply onPage_reachable; [exact H | apply pageDriving_onPage]. Qed.

Lemma findBestPath_null_unreachable_witness :
  findBestPath 10 "A" "C" islandEdges lineNodes = Some None
  /\ forall c, ~ walk lineNodes islandEdges "A" "A" "C" c.
Proof.
  split; [vm_compute; reflexivity|].
  apply (findBestPath_null_unreachable 10); [compute_done | compute_done |].
  vm_compute. reflexivity.
Defined.

Lemma findBestPath_decides_reachability_witness :
  let fuel := planFuel lineNodes lineEdges "A" "C" in
  ((exists r, findBestPath fuel "A" "C" lineEdges lineNodes = Some (Some r))
   /\ exists c, walk lineNodes lineEdges "A" "A" "C" c)
  \/ (findBestPath fuel "A" "C" lineEdges lineNodes = Some None
      /\ forall c, ~ walk lineNodes lineEdges "A" "A" "C" c).
Proof.
  apply findBestPath_decides_reachability;
    [compute_done | compute_done | apply line_positiveLengths | apply le_n].
Defined.

Lemma findBestPath_visits_known_nodes_witness :
  findBestPath 20 "1" "4" gridEdges gridNodes
  = Some (Some (Route.mk ["1"; "3"; "4"] (63750000 # 25000000)))
  /\ forall n, n ∈ ["1"; "3"; "4"] ->
       n = "1" \/ exists node, node ∈ gridNodes /\ Node.id node = n.
Proof.
  split; [vm_compute; reflexivity|].
  apply (findBestPath_visits_known_nodes 20 "1" "4" gridEdges gridNodes
           (Route.mk ["1"; "3"; "4"] (63750000 # 25000000))).
  - compute_done.
  - vm_compute. reflexivity.
Defined.

Lemma findBestPath_start_is_goal_witness :
  findBestPath 1 "81" "81" constants.INITIAL_EDGES constants.NODES
  = Some (Some {| Route.path := ["81"]; Route.time := 0 |}).
Proof.
  apply (findBestPath_start_is_goal 0 "81" constants.INITIAL_EDGES constants.NODES).
  compute_done.
Defined.

Lemma map_never_changes_witness :
  sameMap constants.INITIAL_EDGES constants.NODES pageDriving.
Proof.
  apply (map_never_changes constants.INITIAL_EDGES constants.NODES anyIncident).
  apply pageDriving_reachable. intros; exact I.
Defined.

Lemma path_connectivity_never_lost_witness :
  exists edge, findEdge (edges pageDriving) (Some "1") (Some "10") = Some edge
               /\ connects edge "1" "10".
Proof.
  apply (path_connectivity_never_lost constants.INITIAL_EDGES constants.NODES anyIncident pageDriving 0).
  - apply pageDriving_reachable. intros; exact I.
  - vm_compute. reflexivity.
  - vm_compute. reflexivity.
Defined.

Lemma vehicle_index_in_path_witness :
  carNodeIndex pageDriving = 0%nat
  \/ (carNodeIndex pageDriving < List.length (currentPath pageDriving))%nat.
Proof.
  apply (vehicle_index_in_path constants.INITIAL_EDGES constants.NODES anyIncident).
  apply pageDriving_reachable. intros; exact I.
Defined.

Lemma progress_in_unit_interval_witness :
  0 <= progressBetweenNodes pageDriving /\ progressBetweenNodes pageDriving < 1.
Proof.
  apply (progress_in_unit_interval constants.INITIAL_EDGES constants.NODES); [apply grid_drivable|].
  apply pageDriving_reachable. intros; unfold nonnegIncident; lra.
Defined.


Lemma car_drawn_on_map_witness :
  exists p, getCarCoords pageDriving = Some p
            /\ ((currentPath pageDriving = [] /\ p = (0, 0)) \/ inBox 50 750 50 550 p).
Proof.
  apply (car_drawn_on_map constants.INITIAL_EDGES constants.NODES);
    [apply grid_drivable | apply grid_inBox | apply pageDriving_onPage].
Defined.


Lemma randomEdge_picks_free_edge_witness :
  let s := drivingSim gridNodes jammedEdges ["1"; "2"; "4"] 20 0 0 in
  match randomEdge 0.5 s with
  | Some e => e ∈ edges s /\ isCongested e = false
  | None => forall e, e ∈ edges s -> isCongested e = true
  end.
Proof.
  intros s. apply (randomEdge_picks_free_edge 0.5 s); lra.
Defined.

Lemma triggerCongestion_unknown_edge_witness :
  let s := drivingSim gridNodes gridEdges ["1"; "2"; "4"] 20 0 0 in
  edges (triggerCongestion noon "e99" 2 "Sudden Accident" s) = edges s
  /\ logs (triggerCongestion noon "e99" 2 "Sudden Accident" s)
     = drop 100 (SimulationLog.mk 0 "12:00:00"
                   (MsgVanetAlert "Sudden Accident" "e99" 2) error :: logs s)
  /\ (logs s = [] -> triggerCongestion noon "e99" 2 "Sudden Accident" s = s).
Proof.
  intros s. apply (triggerCongestion_unknown_edge noon "e99" 2 "Sudden Accident" s).
  intros e He. unfold s, drivingSim, gridEdges in He. cbn [edges] in He.
  elem_cases; vm_compute; discriminate.
Defined.

Lemma envTick_speeds_whole_witness :
  let s := drivingSim gridNodes gridEdges ["1"; "2"; "4"] 20 0 0 in
  exists z, (5 <= z)%Z
    /\ Edge.currentSpeed (Edge.mk "e12" "1" "2" 1 60 50 50 None) = inject_Z z.
Proof.
  intros s.
  apply (envTick_speeds_whole halfTape 0 s (Edge.mk "e12" "1" "2" 1 60 50 50 None));
    [reflexivity | | reflexivity].
  vm_compute. apply list_elem_of_here.
Defined.

Lemma envTick_draws_witness :
  let s := drivingSim gridNodes jammedEdges ["1"; "2"; "4"] 20 0 0 in
  snd (envTick halfTape 0 s)
  = (0 + List.length (nodes s)
     + 2 * List.length (List.filter (fun e => negb (isCongested e)) (edges s)))%nat.
Proof. intros s. apply envTick_draws. reflexivity. Defined.

Lemma reroute_keeps_travelled_prefix_witness :
  let s := drivingSim gridNodes jammedEdges ["1"; "2"; "4"] 20 0 0 in
  let s' := commitReroute noon (Route.mk ["1"; "3"; "4"] (63750000 # 25000000)) s in
  carNodeIndex s' = carNodeIndex s
  /\ progressBetweenNodes s' = progressBetweenNodes s
  /\ take (S (carNodeIndex s)) (currentPath s') = take (S (carNodeIndex s)) (currentPath s)
  /\ (currentPath s' = currentPath s \/ last (currentPath s') = Some (endNode s)).
Proof.
  intros s s'. apply (reroute_keeps_travelled_prefix 20 noon s s'); [reflexivity|].
  vm_compute. reflexivity.
Defined.

Lemma moveTicks_reach_next_node_witness :
  let s := togglePlay noon pagePlanned in
  exists j, (1 <= j <= 4)%nat
    /\ carNodeIndex (moveTicks noon j s) = S (carNodeIndex s)
    /\ progressBetweenNodes (moveTicks noon j s) = 0.
Proof.
  intros s.
  apply (moveTicks_reach_next_node noon (Edge.mk "1-10" "1" "10" 0.63 60 60 60 None) 3 s).
  - reflexivity.
  - vm_compute. lia.
  - vm_compute. reflexivity.
  - vm_compute. reflexivity.
  - vm_compute. split; discriminate || reflexivity.
  - vm_compute. discriminate.
  - vm_compute. discriminate.
Defined.

Lemma reachable_logs_empty_witness : logs pageDriving = [].
Proof.
  apply (reachable_logs_empty constants.INITIAL_EDGES constants.NODES).
  apply pageDriving_reachable. intros; exact I.
Defined.

